(** * Openwork desktop: the Antigravity OAuth subsystem

    A shallow embedding of the delegated-authentication code of the
    desktop application (apps/desktop/src/main/antigravity):

    - [Codec]: the part of oauth.ts that computes ([generatePKCE],
      [encodeState], [decodeState]) and the platform operations it
      calls (base64, UTF-8, JSON, SHA-256);
    - [Server]: server.ts, the local callback listener ([handleRequest],
      [waitForOAuthCallback], [stopOAuthServer], [startOAuthServer]);
    - [SecureStorage], [Runtime]: the credential store and the world the
      module runs in (clock, network, file system);
    - [OAuth]: the part of oauth.ts that talks to the provider
      ([buildAuthorizationUrl], [fetchProjectId], [exchangeCodeForTokens],
      [refreshAccessToken]);
    - [TokenManager]: token-manager.ts ([login], [logout], [logoutAll],
      [getAccounts], [getValidAccessToken], [getAnyValidAccessToken],
      [syncToOpenCodePlugin], [cleanup]);
    - [CodecFacts], [ServerFacts], [OAuthFacts], [TokenManagerFacts]: what
      is proved of them.

    JavaScript strings are sequences of UTF-16 code units, written here as
    lists of integers; a code unit is an integer below 65536.  Epoch
    timestamps and lifetimes are integers (milliseconds, seconds), as
    [Date.now()] and the provider deliver them. *)

From Stdlib Require Import ZArith Lia List Ascii String Bool DecimalString.
From stdpp Require Import base option list gmap strings.

Local Open Scope Z_scope.
Set Warnings "-register-all".

(** ** JavaScript strings *)

Abbreviation jsstring := (list Z).

(** The code units of an ASCII literal. *)
Definition str (s : string) : jsstring :=
  map (fun a => Z.of_N (N_of_ascii a)) (list_ascii_of_string s).

Arguments str : simpl never.

(** A code unit is a 16-bit value. *)
Definition code_unit (u : Z) : Prop := 0 <= u < 65536.

Definition wf_string (s : jsstring) : Prop := Forall code_unit s.

(** JavaScript truthiness of a string: every string but the empty one. *)
Definition truthy (s : jsstring) : bool :=
  match s with [] => false | _ :: _ => true end.

(** Truthiness of a value that is a string or null/undefined. *)
Definition truthy_opt (o : option jsstring) : bool :=
  match o with Some s => truthy s | None => false end.

Definition jsstring_eqb (a b : jsstring) : bool := bool_decide (a = b).

(** Closed facts about concrete runs are settled by evaluation. *)
Ltac by_evaluation :=
  repeat match goal with |- _ /\ _ => split end; vm_compute;
  first [ reflexivity | intros; discriminate | congruence ].

(** * oauth.ts: PKCE pairs and the flow state *)

Module Codec.

(** ** The platform's string and buffer operations

    The operations of [String], [Buffer] and [JSON] that the module calls.
    A buffer is a list of bytes, a byte an integer below 256. *)

Definition is_byte (b : Z) : Prop := 0 <= b < 256.

(** [s.replace(/x/g, y)] for single characters [x] and [y]. *)
Definition replace_all (x y : Z) (s : jsstring) : jsstring :=
  map (fun c => if c =? x then y else c) s.

(** [s.replace(/x/g, '')] *)
Definition remove_all (x : Z) (s : jsstring) : jsstring :=
  List.filter (fun c => negb (c =? x)) s.

(** [s.slice(0, n)] *)
Definition slice0 (n : Z) (s : jsstring) : jsstring := take (Z.to_nat n) s.

(** [s.padEnd(targetLength, c)] *)
Definition padEnd (s : jsstring) (targetLength : Z) (c : Z) : jsstring :=
  s ++ replicate (Z.to_nat (targetLength - Z.of_nat (length s))) c.

(** *** Base64

    The alphabets of RFC 4648: the standard one ends in [+] and [/], the
    URL-safe one in [-] and [_]. *)
Definition base64_char (i : Z) : Z :=
  if i <? 26 then 65 + i
  else if i <? 52 then 71 + i
  else if i <? 62 then i - 4
  else if i =? 62 then 43 else 47.

Definition base64url_char (i : Z) : Z :=
  if i <? 26 then 65 + i
  else if i <? 52 then 71 + i
  else if i <? 62 then i - 4
  else if i =? 62 then 45 else 95.

(** Three bytes make four characters; a last group of one or two bytes
    makes two or three, filled up with [=] when [padding] is set. *)
Fixpoint base64_encode (alphabet : Z -> Z) (padding : bool) (bs : list Z) : jsstring :=
  match bs with
  | [] => []
  | [a] =>
    [alphabet (a / 4); alphabet (a mod 4 * 16)]
      ++ (if padding then [61; 61] else [])
  | [a; b] =>
    [alphabet (a / 4); alphabet (a mod 4 * 16 + b / 16); alphabet (b mod 16 * 4)]
      ++ (if padding then [61] else [])
  | a :: b :: c :: rest =>
    alphabet (a / 4) :: alphabet (a mod 4 * 16 + b / 16)
      :: alphabet (b mod 16 * 4 + c / 64) :: alphabet (c mod 64)
      :: base64_encode alphabet padding rest
  end.

(** [buf.toString('base64')] *)
Definition toString_base64 (buf : list Z) : jsstring :=
  base64_encode base64_char true buf.

(** [buf.toString('base64url')]: the URL-safe alphabet, no padding. *)
Definition toString_base64url (buf : list Z) : jsstring :=
  base64_encode base64url_char false buf.

(** The value of a character in either alphabet. *)
Definition unbase64 (c : Z) : option Z :=
  if (65 <=? c) && (c <=? 90) then Some (c - 65)
  else if (97 <=? c) && (c <=? 122) then Some (c - 71)
  else if (48 <=? c) && (c <=? 57) then Some (c + 4)
  else if (c =? 43) || (c =? 45) then Some 62
  else if (c =? 47) || (c =? 95) then Some 63
  else None.

(** The decoder reads up to the first [=] and skips what is in neither
    alphabet. *)
Fixpoint sextets (s : jsstring) : list Z :=
  match s with
  | [] => []
  | c :: rest =>
    if c =? 61 then []
    else
      match unbase64 c with
      | Some v => v :: sextets rest
      | None => sextets rest
      end
  end.

Fixpoint bytes_of_sextets (vs : list Z) : list Z :=
  match vs with
  | a :: b :: c :: d :: rest =>
    (a * 4 + b / 16) :: (b mod 16 * 16 + c / 4) :: (c mod 4 * 64 + d)
      :: bytes_of_sextets rest
  | [a; b; c] => [a * 4 + b / 16; b mod 16 * 16 + c / 4]
  | [a; b] => [a * 4 + b / 16]
  | _ => []
  end.

(** [Buffer.from(s, 'base64')] *)
Definition Buffer_from_base64 (s : jsstring) : list Z :=
  bytes_of_sextets (sextets s).

(** *** UTF-8 *)

Definition is_high_surrogate (u : Z) : bool := (0xD800 <=? u) && (u <? 0xDC00).
Definition is_low_surrogate (u : Z) : bool := (0xDC00 <=? u) && (u <? 0xE000).

Definition REPLACEMENT : Z := 0xFFFD.

Definition utf8_of_code_point (cp : Z) : list Z :=
  if cp <? 0x80 then [cp]
  else if cp <? 0x800 then [0xC0 + cp / 64; 0x80 + cp mod 64]
  else if cp <? 0x10000 then
    [0xE0 + cp / 4096; 0x80 + cp / 64 mod 64; 0x80 + cp mod 64]
  else
    [0xF0 + cp / 262144; 0x80 + cp / 4096 mod 64; 0x80 + cp / 64 mod 64;
     0x80 + cp mod 64].

Definition code_point_of_pair (hi lo : Z) : Z :=
  0x10000 + (hi - 0xD800) * 1024 + (lo - 0xDC00).

(** [Buffer.from(s, 'utf8')]: a surrogate pair is one code point, a
    surrogate on its own is replaced by U+FFFD. *)
Fixpoint Buffer_from_utf8 (s : jsstring) : list Z :=
  match s with
  | [] => []
  | u :: rest =>
    if is_high_surrogate u then
      match rest with
      | v :: rest' =>
        if is_low_surrogate v then
          utf8_of_code_point (code_point_of_pair u v) ++ Buffer_from_utf8 rest'
        else utf8_of_code_point REPLACEMENT ++ Buffer_from_utf8 rest
      | [] => utf8_of_code_point REPLACEMENT
      end
    else if is_low_surrogate u then
      utf8_of_code_point REPLACEMENT ++ Buffer_from_utf8 rest
    else utf8_of_code_point u ++ Buffer_from_utf8 rest
  end.

(** The decoder's state between two bytes: at the start of a sequence, or
    inside one, with the bits read so far, the number of bytes to come
    after the next one and the bounds the next byte must keep. *)
Inductive utf8_state :=
| Start
| Inside (cp : Z) (needed : nat) (lower upper : Z).

(** A byte met at the start of a sequence. *)
Definition utf8_lead (b : Z) : list Z * utf8_state :=
  if b <=? 0x7F then ([b], Start)
  else if (0xC2 <=? b) && (b <=? 0xDF) then
    ([], Inside (b mod 32) 0 0x80 0xBF)
  else if (0xE0 <=? b) && (b <=? 0xEF) then
    ([], Inside (b mod 16) 1
           (if b =? 0xE0 then 0xA0 else 0x80) (if b =? 0xED then 0x9F else 0xBF))
  else if (0xF0 <=? b) && (b <=? 0xF4) then
    ([], Inside (b mod 8) 2
           (if b =? 0xF0 then 0x90 else 0x80) (if b =? 0xF4 then 0x8F else 0xBF))
  else ([REPLACEMENT], Start).

(** The code points of a buffer; a byte that cannot continue a sequence
    ends it with U+FFFD and is read again as the start of the next. *)
Fixpoint utf8_code_points (st : utf8_state) (bs : list Z) : list Z :=
  match bs with
  | [] => match st with Start => [] | Inside _ _ _ _ => [REPLACEMENT] end
  | b :: rest =>
    match st with
    | Start => (utf8_lead b).1 ++ utf8_code_points (utf8_lead b).2 rest
    | Inside cp needed lower upper =>
      if (lower <=? b) && (b <=? upper) then
        match needed with
        | O => (cp * 64 + b mod 64) :: utf8_code_points Start rest
        | S n => utf8_code_points (Inside (cp * 64 + b mod 64) n 0x80 0xBF) rest
        end
      else
        REPLACEMENT :: (utf8_lead b).1 ++ utf8_code_points (utf8_lead b).2 rest
    end
  end.

Definition utf16_of_code_point (cp : Z) : jsstring :=
  if cp <? 0x10000 then [cp]
  else [0xD800 + (cp - 0x10000) / 1024; 0xDC00 + (cp - 0x10000) mod 1024].

(** [buf.toString('utf8')] *)
Definition toString_utf8 (buf : list Z) : jsstring :=
  flat_map utf16_of_code_point (utf8_code_points Start buf).

(** *** JSON *)

Inductive json :=
| JNull
| JBool (b : bool)
| JNumber (literal : jsstring)
| JString (s : jsstring)
| JArray (items : list json)
| JObject (members : list (jsstring * json)).

Definition hex_digit (d : Z) : Z := if d <? 10 then 48 + d else 87 + d.

(** [\uXXXX], in lower case. *)
Definition unicode_escape (u : Z) : jsstring :=
  [92; 117; hex_digit (u / 4096); hex_digit (u / 256 mod 16);
   hex_digit (u / 16 mod 16); hex_digit (u mod 16)].

(** What [JSON.stringify] writes for one code unit that is no part of a
    surrogate pair. *)
Definition quote_unit (u : Z) : jsstring :=
  if u =? 8 then [92; 98]
  else if u =? 9 then [92; 116]
  else if u =? 10 then [92; 110]
  else if u =? 12 then [92; 102]
  else if u =? 13 then [92; 114]
  else if u =? 34 then [92; 34]
  else if u =? 92 then [92; 92]
  else if (u <? 32) || is_high_surrogate u || is_low_surrogate u
  then unicode_escape u
  else [u].

Fixpoint quote_body (s : jsstring) : jsstring :=
  match s with
  | [] => []
  | u :: rest =>
    if is_high_surrogate u then
      match rest with
      | v :: rest' =>
        if is_low_surrogate v then u :: v :: quote_body rest'
        else quote_unit u ++ quote_body rest
      | [] => quote_unit u
      end
    else quote_unit u ++ quote_body rest
  end.

(** [JSON.stringify] of a string. *)
Definition quote (s : jsstring) : jsstring := [34] ++ quote_body s ++ [34].

Definition is_ws (c : Z) : bool :=
  (c =? 32) || (c =? 9) || (c =? 10) || (c =? 13).

Fixpoint skip_ws (s : jsstring) : jsstring :=
  match s with
  | c :: rest => if is_ws c then skip_ws rest else s
  | [] => []
  end.

Definition hex_value (c : Z) : option Z :=
  if (48 <=? c) && (c <=? 57) then Some (c - 48)
  else if (97 <=? c) && (c <=? 102) then Some (c - 87)
  else if (65 <=? c) && (c <=? 70) then Some (c - 55)
  else None.

(** The rest of a string literal, after its opening quote; the result
    is the string and what follows the closing quote. *)
Fixpoint parse_string (s : jsstring) : option (jsstring * jsstring) :=
  match s with
  | [] => None
  | c :: rest =>
    if c =? 34 then Some ([], rest)
    else if c =? 92 then
      match rest with
      | e :: rest1 =>
        let simple (u : Z) :=
          match parse_string rest1 with
          | Some (t, r) => Some (u :: t, r)
          | None => None
          end in
        if e =? 34 then simple 34
        else if e =? 92 then simple 92
        else if e =? 47 then simple 47
        else if e =? 98 then simple 8
        else if e =? 102 then simple 12
        else if e =? 110 then simple 10
        else if e =? 114 then simple 13
        else if e =? 116 then simple 9
        else if e =? 117 then
          match rest1 with
          | h1 :: h2 :: h3 :: h4 :: rest2 =>
            match hex_value h1, hex_value h2, hex_value h3, hex_value h4 with
            | Some a, Some b, Some c', Some d =>
              match parse_string rest2 with
              | Some (t, r) => Some ((a * 4096 + b * 256 + c' * 16 + d) :: t, r)
              | None => None
              end
            | _, _, _, _ => None
            end
          | _ => None
          end
        else None
      | [] => None
      end
    else if c <? 32 then None
    else
      match parse_string rest with
      | Some (t, r) => Some (c :: t, r)
      | None => None
      end
  end.

Definition is_digit (c : Z) : bool := (48 <=? c) && (c <=? 57).

Fixpoint span_digits (s : jsstring) : jsstring * jsstring :=
  match s with
  | c :: rest =>
    if is_digit c then let '(ds, r) := span_digits rest in (c :: ds, r)
    else ([], s)
  | [] => ([], [])
  end.

(** A number: [-]? int frac? exp?, kept as it is written. *)
Definition parse_number (s : jsstring) : option (jsstring * jsstring) :=
  let '(sign, s1) :=
    match s with
    | 45 :: r => ([45], r)
    | _ => ([], s)
    end in
  let int_part :=
    match s1 with
    | 48 :: r => Some ([48], r)
    | c :: _ => if is_digit c then Some (span_digits s1) else None
    | [] => None
    end in
  match int_part with
  | None => None
  | Some (int, s2) =>
    let frac_part :=
      match s2 with
      | 46 :: r =>
        match span_digits r with
        | ([], _) => None
        | (ds, r') => Some (46 :: ds, r')
        end
      | _ => Some ([], s2)
      end in
    match frac_part with
    | None => None
    | Some (frac, s3) =>
      let exp_part :=
        match s3 with
        | e :: r =>
          if (e =? 101) || (e =? 69) then
            let '(esign, r1) :=
              match r with
              | 43 :: r' => ([43], r')
              | 45 :: r' => ([45], r')
              | _ => ([], r)
              end in
            match span_digits r1 with
            | ([], _) => None
            | (ds, r') => Some (e :: esign ++ ds, r')
            end
          else Some ([], s3)
        | [] => Some ([], s3)
        end in
      match exp_part with
      | None => None
      | Some (ex, s4) => Some (sign ++ int ++ frac ++ ex, s4)
      end
    end
  end.

Definition strip_prefix (p s : jsstring) : option jsstring :=
  if bool_decide (take (length p) s = p) then Some (drop (length p) s) else None.

(** A value, then the elements of an array and the members of an object
    after their opening bracket.  Every call uses one unit of [fuel]. *)
Fixpoint parse_value (fuel : nat) (s : jsstring) : option (json * jsstring) :=
  match fuel with
  | O => None
  | S fuel =>
    match skip_ws s with
    | [] => None
    | c :: rest =>
      if c =? 34 then
        match parse_string rest with
        | Some (t, r) => Some (JString t, r)
        | None => None
        end
      else if c =? 91 then
        match skip_ws rest with
        | 93 :: r => Some (JArray [], r)
        | _ => parse_elements fuel [] rest
        end
      else if c =? 123 then
        match skip_ws rest with
        | 125 :: r => Some (JObject [], r)
        | _ => parse_members fuel [] rest
        end
      else if c =? 116 then
        match strip_prefix (str "rue") rest with
        | Some r => Some (JBool true, r)
        | None => None
        end
      else if c =? 102 then
        match strip_prefix (str "alse") rest with
        | Some r => Some (JBool false, r)
        | None => None
        end
      else if c =? 110 then
        match strip_prefix (str "ull") rest with
        | Some r => Some (JNull, r)
        | None => None
        end
      else
        match parse_number (c :: rest) with
        | Some (n, r) => Some (JNumber n, r)
        | None => None
        end
    end
  end
with parse_elements (fuel : nat) (acc : list json) (s : jsstring)
    : option (json * jsstring) :=
  match fuel with
  | O => None
  | S fuel =>
    match parse_value fuel s with
    | Some (v, r) =>
      match skip_ws r with
      | 44 :: r' => parse_elements fuel (acc ++ [v]) r'
      | 93 :: r' => Some (JArray (acc ++ [v]), r')
      | _ => None
      end
    | None => None
    end
  end
with parse_members (fuel : nat) (acc : list (jsstring * json)) (s : jsstring)
    : option (json * jsstring) :=
  match fuel with
  | O => None
  | S fuel =>
    match skip_ws s with
    | 34 :: r =>
      match parse_string r with
      | Some (k, r1) =>
        match skip_ws r1 with
        | 58 :: r2 =>
          match parse_value fuel r2 with
          | Some (v, r3) =>
            match skip_ws r3 with
            | 44 :: r4 => parse_members fuel (acc ++ [(k, v)]) r4
            | 125 :: r4 => Some (JObject (acc ++ [(k, v)]), r4)
            | _ => None
            end
          | None => None
          end
        | _ => None
        end
      | None => None
      end
    | _ => None
    end
  end.

(** [JSON.parse]; [None] stands for the [SyntaxError] it throws.  Two
    units of fuel for every character are more than a text can use. *)
Definition JSON_parse (text : jsstring) : option json :=
  match parse_value (2 * length text + 2) text with
  | Some (v, r) => match skip_ws r with [] => Some v | _ => None end
  | None => None
  end.

(** The value of a property of a parsed object: the last member of that
    name; [None] stands for [undefined]. *)
Fixpoint get_member (key : jsstring) (members : list (jsstring * json)) : option json :=
  match members with
  | [] => None
  | (k, v) :: rest =>
    match get_member key rest with
    | Some v' => Some v'
    | None => if jsstring_eqb k key then Some v else None
    end
  end.

(** What the module throws or lets through. *)
Inductive exn :=
| SyntaxError (text : jsstring)
| TypeError
| Error (message : jsstring).

Inductive outcome (A : Type) :=
| Returns (a : A)
| Throws (e : exn).
Arguments Returns {A} a.
Arguments Throws {A} e.

(** *** SHA-256 (FIPS 180-4), as [crypto.createHash('sha256')] computes it

    The round constants and the initial hash value are written in decimal. *)

Definition w32 (x : Z) : Z := x mod 4294967296.

Definition rotr (n x : Z) : Z := Z.lor (Z.shiftr x n) (w32 (Z.shiftl x (32 - n))).

Definition xor3 (x y z : Z) : Z := Z.lxor (Z.lxor x y) z.

Definition Ch (x y z : Z) : Z :=
  Z.lxor (Z.land x y) (Z.land (Z.lxor x 4294967295) z).

Definition Maj (x y z : Z) : Z := xor3 (Z.land x y) (Z.land x z) (Z.land y z).

Definition Sigma0 (x : Z) : Z := xor3 (rotr 2 x) (rotr 13 x) (rotr 22 x).
Definition Sigma1 (x : Z) : Z := xor3 (rotr 6 x) (rotr 11 x) (rotr 25 x).
Definition sigma0 (x : Z) : Z := xor3 (rotr 7 x) (rotr 18 x) (Z.shiftr x 3).
Definition sigma1 (x : Z) : Z := xor3 (rotr 17 x) (rotr 19 x) (Z.shiftr x 10).

Definition sha256_K : list Z :=
  [1116352408; 1899447441; 3049323471; 3921009573; 961987163;
   1508970993; 2453635748; 2870763221; 3624381080; 310598401;
   607225278; 1426881987; 1925078388; 2162078206; 2614888103;
   3248222580; 3835390401; 4022224774; 264347078; 604807628;
   770255983; 1249150122; 1555081692; 1996064986; 2554220882;
   2821834349; 2952996808; 3210313671; 3336571891; 3584528711;
   113926993; 338241895; 666307205; 773529912; 1294757372;
   1396182291; 1695183700; 1986661051; 2177026350; 2456956037;
   2730485921; 2820302411; 3259730800; 3345764771; 3516065817;
   3600352804; 4094571909; 275423344; 430227734; 506948616;
   659060556; 883997877; 958139571; 1322822218; 1537002063;
   1747873779; 1955562222; 2024104815; 2227730452; 2361852424;
   2428436474; 2756734187; 3204031479; 3329325298].

Definition sha256_H0 : list Z :=
  [1779033703; 3144134277; 1013904242; 2773480762; 1359893119;
   2600822924; 528734635; 1541459225].

(** The message, one bit, zeros up to 56 bytes modulo 64, and the length
    in bits as eight bytes. *)
Definition sha256_pad (msg : list Z) : list Z :=
  let n := Z.of_nat (length msg) in
  let zeros := Z.to_nat ((55 - n) mod 64) in
  let bits := n * 8 in
  msg ++ [0x80] ++ replicate zeros 0
    ++ map (fun i => Z.shiftr bits (8 * (7 - i)) mod 256) [0; 1; 2; 3; 4; 5; 6; 7].

Fixpoint words_of_bytes (bs : list Z) : list Z :=
  match bs with
  | a :: b :: c :: d :: rest =>
    (((a * 256 + b) * 256 + c) * 256 + d) :: words_of_bytes rest
  | _ => []
  end.

(** The message schedule, latest word first. *)
Fixpoint sha256_schedule (n : nat) (ws : list Z) : list Z :=
  match n with
  | O => ws
  | S n =>
    sha256_schedule n
      (w32 (sigma1 (nth 1 ws 0) + nth 6 ws 0 + sigma0 (nth 14 ws 0) + nth 15 ws 0)
         :: ws)
  end.

Definition sha256_round (v : list Z) (kw : Z * Z) : list Z :=
  match v with
  | [a; b; c; d; e; f; g; h] =>
    let t1 := h + Sigma1 e + Ch e f g + kw.1 + kw.2 in
    let t2 := Sigma0 a + Maj a b c in
    [w32 (t1 + t2); a; b; c; w32 (d + t1); e; f; g]
  | _ => v
  end.

Definition sha256_block (h : list Z) (block : list Z) : list Z :=
  let ws := rev (sha256_schedule 48 (rev (words_of_bytes block))) in
  let v := fold_left sha256_round (zip sha256_K ws) h in
  zip_with (fun x y => w32 (x + y)) h v.

Fixpoint sha256_blocks (n : nat) (h : list Z) (bs : list Z) : list Z :=
  match n with
  | O => h
  | S n => sha256_blocks n (sha256_block h (take 64 bs)) (drop 64 bs)
  end.

Definition bytes_of_word (w : Z) : list Z :=
  [w / 16777216 mod 256; w / 65536 mod 256; w / 256 mod 256; w mod 256].

(** [crypto.createHash('sha256').update(msg).digest()] *)
Definition sha256 (msg : list Z) : list Z :=
  let padded := sha256_pad msg in
  flat_map bytes_of_word
    (sha256_blocks (length padded / 64) sha256_H0 padded).

(** ** The module's own functions *)

(** [PkcePair] *)
Record PkcePair := mkPkce { challenge : jsstring; verifier : jsstring }.

(** [AuthState] *)
Record AuthState := mkAuthState { state_verifier : jsstring; projectId : jsstring }.

(** [generateRandomString]; [bytes] is what [crypto.randomBytes(length)]
    returns. *)
Definition generateRandomString (bytes : list Z) (length : Z) : jsstring :=
  slice0 length
    (remove_all 61 (replace_all 47 95 (replace_all 43 45 (toString_base64 bytes)))).

(** [generatePKCE]; [random] is what [crypto.randomBytes(64)] returns.
    [update(verifier)] hashes the string's UTF-8 bytes. *)
Definition generatePKCE (random : list Z) : PkcePair :=
  let verifier := generateRandomString random 64 in
  let hash := sha256 (Buffer_from_utf8 verifier) in
  let challenge :=
    remove_all 61 (replace_all 47 95 (replace_all 43 45 (toString_base64 hash))) in
  {| verifier := verifier; challenge := challenge |}.

(** [JSON.stringify(state)] for an [AuthState]: its two properties in the
    order the object literal lists them. *)
Definition JSON_stringify (state : AuthState) : jsstring :=
  [123] ++ quote (str "verifier") ++ [58] ++ quote (state_verifier state)
    ++ [44] ++ quote (str "projectId") ++ [58] ++ quote (projectId state)
    ++ [125].

(** [encodeState] *)
Definition encodeState (state : AuthState) : jsstring :=
  toString_base64url (Buffer_from_utf8 (JSON_stringify state)).

(** [decodeState].  Reading a property of [null] throws a [TypeError]; a
    property that a value does not have is [undefined]. *)
Definition decodeState (state : jsstring) : outcome AuthState :=
  let normalized := replace_all 95 47 (replace_all 45 43 state) in
  let n := Z.of_nat (length normalized) in
  let padded := padEnd normalized (n + (4 - n mod 4) mod 4) 61 in
  let json := toString_utf8 (Buffer_from_base64 padded) in
  match JSON_parse json with
  | None => Throws (SyntaxError json)
  | Some JNull => Throws TypeError
  | Some (JObject members) =>
    match get_member (str "verifier") members with
    | Some (JString verifier) =>
      Returns
        {| state_verifier := verifier;
           projectId :=
             match get_member (str "projectId") members with
             | Some (JString projectId) => projectId
             | _ => []
             end |}
    | _ => Throws (Error (str "Missing PKCE verifier in state"))
    end
  | Some _ => Throws (Error (str "Missing PKCE verifier in state"))
  end.

(** ** Notions for the statements *)

(** A value of six bits. *)
Definition is_sextet (i : Z) : Prop := 0 <= i < 64.

(** A Unicode scalar value: a code point that is no surrogate. *)
Definition scalar (cp : Z) : Prop :=
  0 <= cp < 0x110000 /\ ~ (0xD800 <= cp < 0xE000).

(** A string whose surrogates all stand in pairs. *)
Inductive well_formed : jsstring -> Prop :=
| well_formed_nil : well_formed []
| well_formed_unit u s :
    code_unit u -> is_high_surrogate u = false -> is_low_surrogate u = false ->
    well_formed s -> well_formed (u :: s)
| well_formed_pair hi lo s :
    is_high_surrogate hi = true -> is_low_surrogate lo = true ->
    well_formed s -> well_formed (hi :: lo :: s).

(** The parser's result with one more code unit in front. *)
Definition prepend (u : Z) (r : option (jsstring * jsstring)) :=
  match r with
  | Some (t, rest) => Some (u :: t, rest)
  | None => None
  end.

(** The URL-safe alphabet: letters, digits, [-] and [_]. *)
Definition url_safe (c : Z) : Prop :=
  65 <= c <= 90 \/ 97 <= c <= 122 \/ 48 <= c <= 57 \/ c = 45 \/ c = 95.

(** The 64 bytes 0, 1, ..., 63. *)
Definition sample_random : list Z := map Z.of_nat (seq 0 64).

(** [JSON.stringify] for an object all of whose properties are strings:
    the properties in the order the object lists them. *)
Fixpoint stringify_members (members : list (jsstring * jsstring)) : jsstring :=
  match members with
  | [] => []
  | (k, v) :: rest =>
    quote k ++ [58] ++ quote v
      ++ match rest with
         | [] => []
         | _ :: _ => [44] ++ stringify_members rest
         end
  end.

Definition stringify_object (members : list (jsstring * jsstring)) : jsstring :=
  [123] ++ stringify_members members ++ [125].

(** The value of a property in such a list: the last one of that name. *)
Fixpoint property (key : jsstring) (members : list (jsstring * jsstring))
    : option jsstring :=
  match members with
  | [] => None
  | (k, v) :: rest =>
    match property key rest with
    | Some v' => Some v'
    | None => if jsstring_eqb k key then Some v else None
    end
  end.

End Codec.

(** * server.ts: the callback listener *)

Module Server.

(** [OAuthCallbackParams] *)
Record OAuthCallbackParams := mkParams { code : jsstring; state : jsstring }.

(** The state of the promise a flow's caller awaits.  An [Error] is
    represented by its message. *)
Inductive Settlement :=
| Unsettled
| Resolved (params : OAuthCallbackParams)
| Rejected (message : jsstring).

(** [PendingOAuth].  The [resolve] and [reject] closures of the source
    capture the promise of the flow and the timer started for it; the
    promise and the timer are created together and carry the same
    identifier [flow]. *)
Record PendingOAuth := mkPending { flow : nat; expected : jsstring }.

(** The module-level variables [server] and [pendingOAuth], the promises
    handed out by [waitForOAuthCallback] (in order of creation) and the
    timers that are armed (with their delay). *)
Record ServerState := mkServer {
  server : bool;
  pendingOAuth : option PendingOAuth;
  promises : list Settlement;
  timers : gmap nat Z
}.

Definition initial : ServerState :=
  {| server := false; pendingOAuth := None; promises := []; timers := ∅ |}.

Definition settlement (s : ServerState) (id : nat) : option Settlement :=
  promises s !! id.

(** Settling a promise: only the first [resolve] or [reject] has an effect. *)
Definition settle (id : nat) (o : Settlement) (ps : list Settlement) : list Settlement :=
  match ps !! id with
  | Some Unsettled => <[id := o]> ps
  | _ => ps
  end.

(** [pendingOAuth.resolve(params)]: [clearTimeout(timeout); resolve(params)]. *)
Definition pending_resolve (p : PendingOAuth) (params : OAuthCallbackParams)
    (s : ServerState) : ServerState :=
  {| server := server s; pendingOAuth := pendingOAuth s;
     promises := settle (flow p) (Resolved params) (promises s);
     timers := delete (flow p) (timers s) |}.

(** [pendingOAuth.reject(error)]: [clearTimeout(timeout); reject(error)]. *)
Definition pending_reject (p : PendingOAuth) (message : jsstring)
    (s : ServerState) : ServerState :=
  {| server := server s; pendingOAuth := pendingOAuth s;
     promises := settle (flow p) (Rejected message) (promises s);
     timers := delete (flow p) (timers s) |}.

(** [pendingOAuth = v] *)
Definition set_pending (v : option PendingOAuth) (s : ServerState) : ServerState :=
  {| server := server s; pendingOAuth := v;
     promises := promises s; timers := timers s |}.

(** The query parameters the handler reads; [searchParams.get] yields
    [null] (here [None]) for a parameter that is absent. *)
Record ParsedUrl := mkUrl {
  pathname : jsstring;
  param_code : option jsstring;
  param_state : option jsstring;
  param_error : option jsstring
}.

(** [req.url]: absent, or a string that [new URL] parses, or one it
    refuses (the constructor throws). *)
Inductive RequestUrl :=
| NoUrl
| InvalidUrl
| Url (u : ParsedUrl).

Inductive Page :=
| NotFound
| SUCCESS_HTML
| ERROR_HTML (error : jsstring).

Record Response := mkResponse { status : Z; html : bool; body : Page }.

Definition not_found : Response :=
  {| status := 404; html := false; body := NotFound |}.

Definition failure_page (error : jsstring) : Response :=
  {| status := 400; html := true; body := ERROR_HTML error |}.

Definition success_page : Response :=
  {| status := 200; html := true; body := SUCCESS_HTML |}.

(** [handleRequest].  The result is the response written (none when
    [new URL] throws) and the state the handler leaves. *)
Definition handleRequest (req : RequestUrl) (s : ServerState)
    : option Response * ServerState :=
  match req with
  | NoUrl => (Some not_found, s)
  | InvalidUrl => (None, s)
  | Url parsedUrl =>
    if negb (jsstring_eqb (pathname parsedUrl) (str "/oauth-callback")) then
      (Some not_found, s)
    else
      let code := param_code parsedUrl in
      let state := param_state parsedUrl in
      let error := param_error parsedUrl in
      match error with
      | Some ((_ :: _) as error) =>
        (Some (failure_page error),
         match pendingOAuth s with
         | Some p =>
           set_pending None (pending_reject p (str "OAuth error: " ++ error) s)
         | None => s
         end)
      | _ =>
        match code, state with
        | Some ((_ :: _) as code), Some ((_ :: _) as state) =>
          match pendingOAuth s with
          | Some p =>
            if negb (jsstring_eqb (expected p) state) then
              (Some (failure_page (str "State mismatch - possible CSRF attack")),
               set_pending None (pending_reject p (str "State mismatch") s))
            else
              (Some success_page,
               set_pending None (pending_resolve p (mkParams code state) s))
          | None => (Some success_page, s)
          end
        | _, _ =>
          (Some (failure_page (str "Missing code or state parameter")),
           match pendingOAuth s with
           | Some p =>
             set_pending None
               (pending_reject p (str "Missing code or state parameter") s)
           | None => s
           end)
        end
      end
  end.

(** [startOAuthServer]; [bound] tells whether [listen] succeeds. *)
Definition startOAuthServer (bound : bool) (s : ServerState) : bool * ServerState :=
  if server s then (true, s)
  else
    (bound,
     {| server := bound; pendingOAuth := pendingOAuth s;
        promises := promises s; timers := timers s |}).

(** [stopOAuthServer] *)
Definition stopOAuthServer (s : ServerState) : ServerState :=
  let s1 :=
    {| server := false; pendingOAuth := pendingOAuth s;
       promises := promises s; timers := timers s |} in
  match pendingOAuth s1 with
  | Some p => set_pending None (pending_reject p (str "OAuth server stopped") s1)
  | None => s1
  end.

(** [waitForOAuthCallback]: the executor of the new promise runs at once.
    The result is the identifier of the promise returned. *)
Definition waitForOAuthCallback (state : jsstring) (timeoutMs : Z)
    (s : ServerState) : nat * ServerState :=
  let id := length (promises s) in
  let s1 :=
    {| server := server s; pendingOAuth := pendingOAuth s;
       promises := promises s ++ [Unsettled]; timers := timers s |} in
  let s2 :=
    match pendingOAuth s1 with
    | Some p => pending_reject p (str "New OAuth flow started") s1
    | None => s1
    end in
  let s3 :=
    {| server := server s2; pendingOAuth := pendingOAuth s2;
       promises := promises s2; timers := <[id := timeoutMs]> (timers s2) |} in
  (id, set_pending (Some {| flow := id; expected := state |}) s3).

Definition DEFAULT_TIMEOUT_MS : Z := 5 * 60 * 1000.

(** The callback of the timer [id]; it runs only while the timer is armed,
    and a timer that has run is armed no more. *)
Definition timeout_fires (id : nat) (s : ServerState) : ServerState :=
  match timers s !! id with
  | None => s
  | Some _ =>
    let s1 :=
      {| server := server s; pendingOAuth := pendingOAuth s;
         promises := promises s; timers := delete id (timers s) |} in
    match pendingOAuth s1 with
    | Some p => set_pending None (pending_reject p (str "OAuth callback timeout") s1)
    | None => s1
    end
  end.

(** What can happen to the listener, one turn of the event loop each. *)
Inductive Event :=
| Start (bound : bool)
| Stop
| Wait (state : jsstring) (timeoutMs : Z)
| Request (req : RequestUrl)
| Timeout (id : nat).

Definition step (s : ServerState) (e : Event) : ServerState :=
  match e with
  | Start bound => (startOAuthServer bound s).2
  | Stop => stopOAuthServer s
  | Wait state timeoutMs => (waitForOAuthCallback state timeoutMs s).2
  | Request req => (handleRequest req s).2
  | Timeout id => timeout_fires id s
  end.

Definition run (es : list Event) (s : ServerState) : ServerState :=
  fold_left step es s.

(** A request to the callback path. *)
Definition callback (code state error : option jsstring) : RequestUrl :=
  Url {| pathname := str "/oauth-callback"; param_code := code;
         param_state := state; param_error := error |}.

(** The listener after [startOAuthServer] and one [waitForOAuthCallback]
    that expects the state [good]. *)
Definition awaiting_good : ServerState :=
  run [Start true; Wait (str "good") DEFAULT_TIMEOUT_MS] initial.

(** A forged callback that also names an error. *)
Definition forged_with_error : RequestUrl :=
  callback (Some (str "abc123")) (Some (str "evil")) (Some (str "access_denied")).

(** ** What the listener keeps *)

(** The promise that is unsettled, if any, is the one [pendingOAuth] holds,
    and only its timer is armed. *)
Record single_flight (s : ServerState) : Prop := {
  pending_unsettled :
    forall p, pendingOAuth s = Some p -> promises s !! flow p = Some Unsettled;
  unsettled_pending :
    forall id, promises s !! id = Some Unsettled ->
      exists p, pendingOAuth s = Some p /\ flow p = id;
  armed_pending :
    forall id, is_Some (timers s !! id) ->
      exists p, pendingOAuth s = Some p /\ flow p = id
}.

(** The promise [id] exists; while it is the pending one it expects [st],
    and if it has been resolved, then with the state [st]. *)
Record expects (id : nat) (st : jsstring) (s : ServerState) : Prop := {
  expects_exists : (id < length (promises s))%nat;
  expects_pending :
    forall p, pendingOAuth s = Some p -> flow p = id -> expected p = st;
  expects_resolved :
    forall params, promises s !! id = Some (Resolved params) -> state params = st
}.

(** [isOAuthServerRunning] *)
Definition isOAuthServerRunning (s : ServerState) : bool := server s.

(** The timer of the flow that is pending is armed. *)
Definition armed (s : ServerState) : Prop :=
  forall p, pendingOAuth s = Some p -> is_Some (timers s !! flow p).

(** A promise is resolved only with parameters that carry a code and a
    state. *)
Definition complete (o : Settlement) : Prop :=
  match o with
  | Resolved params => code params <> [] /\ state params <> []
  | _ => True
  end.

(** The listener after [startOAuthServer], a flow that expects [good],
    and a flow that expects [second] and supersedes it. *)
Definition awaiting_second : ServerState :=
  run [Wait (str "second") DEFAULT_TIMEOUT_MS] awaiting_good.

(** The callback the provider sends when the user refuses consent. *)
Definition consent_denied : RequestUrl :=
  callback None (Some (str "good")) (Some (str "access_denied")).

End Server.

(** * store/secureStorage.ts: the account credential store *)

Module SecureStorage.

(** Modelled from the spec: the declaration of [AntigravityStoredTokens]
    is not among the sources; the fields are those of the spec's
    TokenRecord, under the names token-manager.ts reads and writes.  An
    ISO-8601 timestamp ([createdAt], [lastUsedAt]) is represented by the
    instant it denotes, in epoch milliseconds. *)
Record AntigravityStoredTokens := mkTokens {
  accessToken : jsstring;
  refreshToken : jsstring;
  expiresAt : Z;
  projectId : jsstring;
  email : option jsstring;
  createdAt : Z;
  lastUsedAt : option Z
}.

(** Modelled from the spec: [put(accountId, record)] is an upsert that
    replaces any record under that id. *)
Definition storeAntigravityTokens (accountId : jsstring)
    (tokens : AntigravityStoredTokens)
    (store : gmap jsstring AntigravityStoredTokens)
    : gmap jsstring AntigravityStoredTokens :=
  <[accountId := tokens]> store.

(** Modelled from the spec: [get(accountId)] is the record or absent. *)
Definition getAntigravityTokens (accountId : jsstring)
    (store : gmap jsstring AntigravityStoredTokens)
    : option AntigravityStoredTokens :=
  store !! accountId.

(** Modelled from the spec: [delete(accountId)] is true if a record
    existed and was removed. *)
Definition deleteAntigravityTokens (accountId : jsstring)
    (store : gmap jsstring AntigravityStoredTokens)
    : bool * gmap jsstring AntigravityStoredTokens :=
  (bool_decide (is_Some (store !! accountId)), delete accountId store).

(** Modelled from the spec: [list()] is the set of account ids, in the
    store's enumeration order. *)
Definition listAntigravityAccounts
    (store : gmap jsstring AntigravityStoredTokens) : list jsstring :=
  (map_to_list store).*1.

End SecureStorage.

(** * The world the module runs in *)

Module Runtime.
Export Codec.

(** An HTTP response: [response.ok], [response.status], and what
    [await response.text()] and [await response.json()] give. *)
Record Response (A : Type) := mkResponse {
  ok : bool;
  status : Z;
  text : outcome jsstring;
  json : outcome A
}.
Arguments mkResponse {A}.
Arguments ok {A}.
Arguments status {A}.
Arguments text {A}.
Arguments json {A}.

(** [GoogleTokenResponse] *)
Record GoogleTokenResponse := mkTokenResponse {
  access_token : jsstring;
  expires_in : Z;
  refresh_token : option jsstring;
  token_type : jsstring
}.

(** [GoogleUserInfo] *)
Record GoogleUserInfo := mkUserInfo {
  info_email : option jsstring;
  info_name : option jsstring;
  info_picture : option jsstring
}.

(** [data.cloudaicompanionProject] of a [loadCodeAssist] answer: a
    string, an object (with an [id] that is a string, or without), or
    anything else. *)
Inductive CompanionProject :=
| ProjectName (name : jsstring)
| ProjectObject (id : option jsstring)
| ProjectOther.

(** The requests the module sends: the two grants of the token endpoint,
    the user-info lookup and the project discovery at one endpoint. *)
Inductive Request :=
| TokenExchange (code verifier : jsstring)
| TokenRefresh (refreshToken : jsstring)
| UserInfo (accessToken : jsstring)
| LoadCodeAssist (baseEndpoint accessToken : jsstring).

(** What the module cannot decide: the clock, the answers of the network
    (by the number of requests sent before and the request; a request
    that fails or is aborted by the timeout throws) and the text of the
    engine's own error messages. *)
Record Env := mkEnv {
  clock : nat -> Z;
  token_endpoint : nat -> Request -> outcome (Response GoogleTokenResponse);
  userinfo_endpoint : nat -> Request -> outcome (Response GoogleUserInfo);
  load_endpoint : nat -> Request -> outcome (Response CompanionProject);
  file_system : nat -> bool;
  syntax_error_message : jsstring -> jsstring;
  type_error_message : jsstring
}.

(** An entry of the external snapshot. *)
Record SnapshotAccount := mkSnapshotAccount {
  snap_email : option jsstring;
  snap_refreshToken : jsstring;
  snap_projectId : jsstring;
  addedAt : Z;
  lastUsed : Z
}.

(** The external snapshot: what [JSON.stringify(storage, null, 2)]
    serialises. *)
Record Storage := mkStorage {
  version : Z;
  accounts : list SnapshotAccount;
  activeIndex : Z
}.

(** The state: the credential store, the snapshot file (absent or with
    its content), the listener, the requests sent so far, and how often
    the clock and the file system were used. *)
Record World := mkWorld {
  store : gmap jsstring SecureStorage.AntigravityStoredTokens;
  snapshot_file : option Storage;
  listener : Server.ServerState;
  requests : list Request;
  ticks : nat;
  file_operations : nat
}.

(** Computations that read and change the world. *)
Definition M (A : Type) : Type := World -> A * World.

Definition ret {A} (a : A) : M A := fun w => (a, w).

Definition bind {A B} (m : M A) (k : A -> M B) : M B :=
  fun w => k (m w).1 (m w).2.

Notation "x <- m ;; k" := (bind m (fun x => k))
  (at level 200, m at level 99, right associativity).

(** [error instanceof Error ? error.message : 'Unknown error'] for what
    the platform throws, always an [Error]. *)
Definition message_of (env : Env) (e : exn) : jsstring :=
  match e with
  | Error message => message
  | SyntaxError text => syntax_error_message env text
  | TypeError => type_error_message env
  end.

Section WithEnv.
Variable env : Env.

(** [Date.now()], and the instant of [new Date()]. *)
Definition Date_now : M Z :=
  fun w =>
    (clock env (ticks w),
     {| store := store w; snapshot_file := snapshot_file w;
        listener := listener w; requests := requests w;
        ticks := S (ticks w); file_operations := file_operations w |}).

(** [fetchWithTimeout(url, options)] *)
Definition fetchWithTimeout {A}
    (endpoint : nat -> Request -> outcome (Response A)) (request : Request)
    : M (outcome (Response A)) :=
  fun w =>
    (endpoint (length (requests w)) request,
     {| store := store w; snapshot_file := snapshot_file w;
        listener := listener w; requests := requests w ++ [request];
        ticks := ticks w; file_operations := file_operations w |}).

(** A file-system operation; the result tells whether it succeeded. *)
Definition file_operation : M bool :=
  fun w =>
    (file_system env (file_operations w),
     {| store := store w; snapshot_file := snapshot_file w;
        listener := listener w; requests := requests w;
        ticks := ticks w; file_operations := S (file_operations w) |}).

Definition get_store : M (gmap jsstring SecureStorage.AntigravityStoredTokens) :=
  fun w => (store w, w).

Definition set_store (s : gmap jsstring SecureStorage.AntigravityStoredTokens)
    : M unit :=
  fun w =>
    (tt,
     {| store := s; snapshot_file := snapshot_file w;
        listener := listener w; requests := requests w;
        ticks := ticks w; file_operations := file_operations w |}).

Definition set_snapshot_file (f : option Storage) : M unit :=
  fun w =>
    (tt,
     {| store := store w; snapshot_file := f;
        listener := listener w; requests := requests w;
        ticks := ticks w; file_operations := file_operations w |}).

Definition set_listener (l : Server.ServerState) : M unit :=
  fun w =>
    (tt,
     {| store := store w; snapshot_file := snapshot_file w;
        listener := l; requests := requests w;
        ticks := ticks w; file_operations := file_operations w |}).

End WithEnv.

End Runtime.

(** * oauth.ts: the identity provider client *)

Module OAuth.
Export Runtime.

(** constants.ts *)
Definition ANTIGRAVITY_ENDPOINT_DAILY : jsstring :=
  str "https://daily-cloudcode-pa.sandbox.googleapis.com".
Definition ANTIGRAVITY_ENDPOINT_AUTOPUSH : jsstring :=
  str "https://autopush-cloudcode-pa.sandbox.googleapis.com".
Definition ANTIGRAVITY_ENDPOINT_PROD : jsstring :=
  str "https://cloudcode-pa.googleapis.com".

Definition ANTIGRAVITY_ENDPOINT_FALLBACKS : list jsstring :=
  [ANTIGRAVITY_ENDPOINT_DAILY; ANTIGRAVITY_ENDPOINT_AUTOPUSH;
   ANTIGRAVITY_ENDPOINT_PROD].

Definition ANTIGRAVITY_LOAD_ENDPOINTS : list jsstring :=
  [ANTIGRAVITY_ENDPOINT_PROD; ANTIGRAVITY_ENDPOINT_DAILY;
   ANTIGRAVITY_ENDPOINT_AUTOPUSH].

Definition ANTIGRAVITY_DEFAULT_PROJECT_ID : jsstring := str "rising-fact-p41fc".

Definition TOKEN_REFRESH_BUFFER_MS : Z := 5 * 60 * 1000.

(** [TokenExchangeSuccess] *)
Record TokenExchangeSuccess := mkSuccess {
  accessToken : jsstring;
  refreshToken : jsstring;
  expiresAt : Z;
  email : option jsstring;
  projectId : jsstring
}.

(** [TokenExchangeResult] *)
Inductive TokenExchangeResult :=
| success (result : TokenExchangeSuccess)
| failed (error : jsstring).

(** The result of [refreshAccessToken]:
    [{ accessToken, expiresAt } | { error }]. *)
Inductive RefreshResult :=
| refreshed (accessToken : jsstring) (expiresAt : Z)
| refresh_error (error : jsstring).

(** [AuthorizationResult]; the URL is kept as its query parameters. *)
Record AuthorizationResult := mkAuthorization {
  url : list (jsstring * jsstring);
  auth_verifier : jsstring;
  auth_state : jsstring
}.

(** [buildAuthorizationUrl(projectId)]; [random] is what
    [crypto.randomBytes] returns to [generatePKCE]. *)
Definition buildAuthorizationUrl (random : list Z) (projectId : jsstring)
    : AuthorizationResult :=
  let pkce := generatePKCE random in
  let state :=
    encodeState {| state_verifier := verifier pkce; Codec.projectId := projectId |} in
  {| url :=
       [(str "code_challenge", challenge pkce);
        (str "code_challenge_method", str "S256");
        (str "state", state);
        (str "access_type", str "offline");
        (str "prompt", str "consent")];
     auth_verifier := verifier pkce;
     auth_state := state |}.

(** [calculateTokenExpiry] *)
Definition calculateTokenExpiry (startTime expiresIn : Z) : Z :=
  startTime + expiresIn * 1000.

(** [Array.from(new Set(l))]: the first occurrence of each element. *)
Fixpoint Array_from_Set (seen l : list jsstring) : list jsstring :=
  match l with
  | [] => []
  | x :: rest =>
    if bool_decide (x ∈ seen) then Array_from_Set seen rest
    else x :: Array_from_Set (x :: seen) rest
  end.

Section WithEnv.
Variable env : Env.

(** The loop of [fetchProjectId] over the endpoints left; the errors it
    collects are only logged. *)
Fixpoint fetchProjectId_loop (accessToken : jsstring) (endpoints : list jsstring)
    : M jsstring :=
  match endpoints with
  | [] => ret []
  | baseEndpoint :: rest =>
    response <- fetchWithTimeout (load_endpoint env)
                  (LoadCodeAssist baseEndpoint accessToken) ;;
    match response with
    | Throws _ => fetchProjectId_loop accessToken rest
    | Returns response =>
      if negb (ok response) then fetchProjectId_loop accessToken rest
      else
        match json response with
        | Throws _ => fetchProjectId_loop accessToken rest
        | Returns (ProjectName ((_ :: _) as name)) => ret name
        | Returns (ProjectObject (Some ((_ :: _) as id))) => ret id
        | Returns _ => fetchProjectId_loop accessToken rest
        end
    end
  end.

(** [fetchProjectId] *)
Definition fetchProjectId (accessToken : jsstring) : M jsstring :=
  fetchProjectId_loop accessToken
    (Array_from_Set []
       (ANTIGRAVITY_LOAD_ENDPOINTS ++ ANTIGRAVITY_ENDPOINT_FALLBACKS)).

(** [exchangeCodeForTokens]: whatever is thrown inside is caught and
    reported by its message. *)
Definition exchangeCodeForTokens (code state : jsstring) : M TokenExchangeResult :=
  match decodeState state with
  | Throws e => ret (failed (message_of env e))
  | Returns decoded =>
    startTime <- Date_now env ;;
    tokenResponse <- fetchWithTimeout (token_endpoint env)
                       (TokenExchange code (state_verifier decoded)) ;;
    match tokenResponse with
    | Throws e => ret (failed (message_of env e))
    | Returns tokenResponse =>
      if negb (ok tokenResponse) then
        match text tokenResponse with
        | Returns errorText => ret (failed errorText)
        | Throws e => ret (failed (message_of env e))
        end
      else
        match json tokenResponse with
        | Throws e => ret (failed (message_of env e))
        | Returns tokenPayload =>
          userInfoResponse <- fetchWithTimeout (userinfo_endpoint env)
                                (UserInfo (access_token tokenPayload)) ;;
          match userInfoResponse with
          | Throws e => ret (failed (message_of env e))
          | Returns userInfoResponse =>
            match
              (if ok userInfoResponse then json userInfoResponse
               else Returns (mkUserInfo None None None))
            with
            | Throws e => ret (failed (message_of env e))
            | Returns userInfo =>
              match refresh_token tokenPayload with
              | Some ((_ :: _) as refreshToken) =>
                effectiveProjectId <-
                  (if truthy (Codec.projectId decoded)
                   then ret (Codec.projectId decoded)
                   else fetchProjectId (access_token tokenPayload)) ;;
                ret (success
                       {| accessToken := access_token tokenPayload;
                          refreshToken := refreshToken;
                          expiresAt :=
                            calculateTokenExpiry startTime (expires_in tokenPayload);
                          email := info_email userInfo;
                          projectId := effectiveProjectId |})
              | _ => ret (failed (str "Missing refresh token in response"))
              end
            end
          end
        end
    end
  end.

(** [refreshAccessToken] *)
Definition refreshAccessToken (refreshToken : jsstring) : M RefreshResult :=
  startTime <- Date_now env ;;
  response <- fetchWithTimeout (token_endpoint env) (TokenRefresh refreshToken) ;;
  match response with
  | Throws e => ret (refresh_error (message_of env e))
  | Returns response =>
    if negb (ok response) then
      match text response with
      | Returns errorText => ret (refresh_error errorText)
      | Throws e => ret (refresh_error (message_of env e))
      end
    else
      match json response with
      | Throws e => ret (refresh_error (message_of env e))
      | Returns tokenPayload =>
        ret (refreshed (access_token tokenPayload)
               (calculateTokenExpiry startTime (expires_in tokenPayload)))
      end
  end.

End WithEnv.

End OAuth.

(** * token-manager.ts: the session orchestrator *)

Module TokenManager.
Export OAuth.

(** [AntigravityAccount] *)
Record AntigravityAccount := mkAccount {
  id : jsstring;
  account_email : jsstring;
  account_projectId : jsstring;
  account_createdAt : Z;
  account_lastUsedAt : option Z
}.

(** [LoginResult] *)
Record LoginResult := mkLoginResult {
  login_success : bool;
  account : option AntigravityAccount;
  login_error : option jsstring
}.

Definition login_failure (error : jsstring) : LoginResult :=
  {| login_success := false; account := None; login_error := Some error |}.

(** What one call of [login] takes from outside: whether the listener can
    bind its port, the bytes [crypto.randomBytes] returns, the six
    characters [Math.random().toString(36).slice(2, 8)] gives, what
    [shell.openExternal] does, and what happens to the listener while the
    callback is awaited. *)
Record LoginInputs := mkLoginInputs {
  bound : bool;
  random : list Z;
  math_random : jsstring;
  opened : outcome unit;
  events : list Server.Event
}.

(** The decimal digits of a number, as a template literal writes it. *)
Definition decimal (n : Z) : jsstring :=
  str (DecimalString.NilZero.string_of_int (Z.to_int n)).

(** The entry of the snapshot for a record, if the record has a refresh
    token. *)
Definition snapshot_entry (tokens : SecureStorage.AntigravityStoredTokens)
    : option SnapshotAccount :=
  if truthy (SecureStorage.refreshToken tokens) then
    Some {| snap_email := SecureStorage.email tokens;
            snap_refreshToken := SecureStorage.refreshToken tokens;
            snap_projectId := SecureStorage.projectId tokens;
            addedAt := SecureStorage.createdAt tokens;
            lastUsed :=
              match SecureStorage.lastUsedAt tokens with
              | Some t => t
              | None => SecureStorage.createdAt tokens
              end |}
  else None.

(** The [accounts] array [syncToOpenCodePlugin] builds. *)
Definition snapshot_accounts
    (store : gmap jsstring SecureStorage.AntigravityStoredTokens)
    : list SnapshotAccount :=
  omap
    (fun accountId =>
       match SecureStorage.getAntigravityTokens accountId store with
       | Some tokens => snapshot_entry tokens
       | None => None
       end)
    (SecureStorage.listAntigravityAccounts store).

(** The promise [id] as [await] sees it while the [events] happen; when
    nothing else settles it, the timer of the flow runs.  [None]: the
    promise is never settled. *)
Fixpoint await_callback (id : nat) (events : list Server.Event)
    (s : Server.ServerState)
    : option (outcome Server.OAuthCallbackParams) * Server.ServerState :=
  match Server.settlement s id with
  | Some (Server.Resolved params) => (Some (Returns params), s)
  | Some (Server.Rejected message) => (Some (Throws (Error message)), s)
  | _ =>
    match events with
    | e :: rest => await_callback id rest (Server.step s e)
    | [] =>
      let s' := Server.timeout_fires id s in
      match Server.settlement s' id with
      | Some (Server.Resolved params) => (Some (Returns params), s')
      | Some (Server.Rejected message) => (Some (Throws (Error message)), s')
      | _ => (None, s')
      end
    end
  end.

(** The payload of an answer that arrived, was a success and carried a
    body [response.json()] could read; every other answer makes the call
    that awaits it fail. *)
Definition accepted {A} (answer : outcome (Response A)) : option A :=
  match answer with
  | Returns response =>
    if ok response then
      match json response with
      | Returns a => Some a
      | Throws _ => None
      end
    else None
  | Throws _ => None
  end.

(** The user-info request got an answer the exchange can go on with: a
    failure status, or a success with a body [response.json()] reads. *)
Definition user_info_obtained (answer : outcome (Response GoogleUserInfo)) : bool :=
  match answer with
  | Returns response =>
    if ok response then
      match json response with
      | Returns _ => true
      | Throws _ => false
      end
    else true
  | Throws _ => false
  end.

(** A computation that leaves the credential store and the snapshot file
    alone. *)
Definition preserves_storage {A} (m : M A) : Prop :=
  forall w,
    store (m w).2 = store w /\ snapshot_file (m w).2 = snapshot_file w /\
    file_operations (m w).2 = file_operations w /\ listener (m w).2 = listener w.

(** The record with a new [lastUsedAt]. *)
Definition used_at (t : Z) (tokens : SecureStorage.AntigravityStoredTokens)
    : SecureStorage.AntigravityStoredTokens :=
  {| SecureStorage.accessToken := SecureStorage.accessToken tokens;
     SecureStorage.refreshToken := SecureStorage.refreshToken tokens;
     SecureStorage.expiresAt := SecureStorage.expiresAt tokens;
     SecureStorage.projectId := SecureStorage.projectId tokens;
     SecureStorage.email := SecureStorage.email tokens;
     SecureStorage.createdAt := SecureStorage.createdAt tokens;
     SecureStorage.lastUsedAt := Some t |}.

(** The record with a new access token, expiry and [lastUsedAt]. *)
Definition refreshed_at (t : Z) (accessToken : jsstring) (expiresAt : Z)
    (tokens : SecureStorage.AntigravityStoredTokens)
    : SecureStorage.AntigravityStoredTokens :=
  {| SecureStorage.accessToken := accessToken;
     SecureStorage.refreshToken := SecureStorage.refreshToken tokens;
     SecureStorage.expiresAt := expiresAt;
     SecureStorage.projectId := SecureStorage.projectId tokens;
     SecureStorage.email := SecureStorage.email tokens;
     SecureStorage.createdAt := SecureStorage.createdAt tokens;
     SecureStorage.lastUsedAt := Some t |}.

Section WithEnv.
Variable env : Env.

(** [syncToOpenCodePlugin]: a failure of the file system is caught and
    logged, and leaves the file as it was. *)
Definition syncToOpenCodePlugin : M unit :=
  store <- get_store ;;
  match snapshot_accounts store with
  | [] =>
    unlinked <- file_operation env ;;
    if unlinked then set_snapshot_file None else ret tt
  | accounts =>
    made <- file_operation env ;;
    if made then
      written <- file_operation env ;;
      if written then
        set_snapshot_file
          (Some {| version := 3; accounts := accounts; activeIndex := 0 |})
      else ret tt
    else ret tt
  end.

(** [generateAccountId] *)
Definition generateAccountId (math_random : jsstring) : M jsstring :=
  now <- Date_now env ;;
  ret (str "account_" ++ decimal now ++ str "_" ++ math_random).

(** [login].  [None]: the call never returns. *)
Definition login (i : LoginInputs) : M (option LoginResult) :=
  fun w =>
    let started := Server.startOAuthServer (bound i) (listener w) in
    let w1 := (set_listener started.2 w).2 in
    if negb started.1 then
      (Some (login_failure
               (str "Failed to start OAuth callback server. Port may be in use.")),
       w1)
    else
      let auth := buildAuthorizationUrl (random i) [] in
      match opened i with
      | Throws e => (Some (login_failure (message_of env e)), w1)
      | Returns _ =>
        let waiting :=
          Server.waitForOAuthCallback (auth_state auth)
            Server.DEFAULT_TIMEOUT_MS (listener w1) in
        let awaited := await_callback waiting.1 (events i) waiting.2 in
        let w2 := (set_listener awaited.2 w1).2 in
        match awaited.1 with
        | None => (None, w2)
        | Some (Throws e) => (Some (login_failure (message_of env e)), w2)
        | Some (Returns callback) =>
          (result <- exchangeCodeForTokens env
                       (Server.code callback) (Server.state callback) ;;
           match result with
           | failed error => ret (Some (login_failure error))
           | success result =>
             accountId <- generateAccountId (math_random i) ;;
             now <- Date_now env ;;
             let tokens :=
               {| SecureStorage.accessToken := accessToken result;
                  SecureStorage.refreshToken := refreshToken result;
                  SecureStorage.expiresAt := expiresAt result;
                  SecureStorage.projectId :=
                    if truthy (projectId result) then projectId result
                    else ANTIGRAVITY_DEFAULT_PROJECT_ID;
                  SecureStorage.email := email result;
                  SecureStorage.createdAt := now;
                  SecureStorage.lastUsedAt := Some now |} in
             store <- get_store ;;
             _ <- set_store
                    (SecureStorage.storeAntigravityTokens accountId tokens store) ;;
             _ <- syncToOpenCodePlugin ;;
             ret (Some
                    {| login_success := true;
                       account :=
                         Some {| id := accountId;
                                 account_email :=
                                   match email result with
                                   | Some ((_ :: _) as email) => email
                                   | _ => str "Unknown"
                                   end;
                                 account_projectId := SecureStorage.projectId tokens;
                                 account_createdAt := now;
                                 account_lastUsedAt := Some now |};
                       login_error := None |})
           end) w2
        end
      end.

(** [logout] *)
Definition logout (accountId : jsstring) : M bool :=
  store <- get_store ;;
  let deleted := SecureStorage.deleteAntigravityTokens accountId store in
  _ <- set_store deleted.2 ;;
  if deleted.1 then
    _ <- syncToOpenCodePlugin ;;
    ret true
  else ret false.

(** The loop of [logoutAll] over the accounts listed. *)
Fixpoint logoutAll_loop (accounts : list jsstring) (count : Z) : M Z :=
  match accounts with
  | [] => ret count
  | accountId :: rest =>
    store <- get_store ;;
    let deleted := SecureStorage.deleteAntigravityTokens accountId store in
    _ <- set_store deleted.2 ;;
    logoutAll_loop rest (if deleted.1 then count + 1 else count)
  end.

(** [logoutAll] *)
Definition logoutAll : M Z :=
  store <- get_store ;;
  count <- logoutAll_loop (SecureStorage.listAntigravityAccounts store) 0 ;;
  if 0 <? count then
    _ <- syncToOpenCodePlugin ;;
    ret count
  else ret count.

(** [getValidAccessToken]: the token and the project id, or [null]. *)
Definition getValidAccessToken (accountId : jsstring)
    : M (option (jsstring * jsstring)) :=
  store <- get_store ;;
  match SecureStorage.getAntigravityTokens accountId store with
  | None => ret None
  | Some tokens =>
    now <- Date_now env ;;
    if SecureStorage.expiresAt tokens - now <=? TOKEN_REFRESH_BUFFER_MS then
      refreshResult <- refreshAccessToken env (SecureStorage.refreshToken tokens) ;;
      match refreshResult with
      | refresh_error _ => ret None
      | refreshed accessToken expiresAt =>
        used <- Date_now env ;;
        let updatedTokens :=
          {| SecureStorage.accessToken := accessToken;
             SecureStorage.refreshToken := SecureStorage.refreshToken tokens;
             SecureStorage.expiresAt := expiresAt;
             SecureStorage.projectId := SecureStorage.projectId tokens;
             SecureStorage.email := SecureStorage.email tokens;
             SecureStorage.createdAt := SecureStorage.createdAt tokens;
             SecureStorage.lastUsedAt := Some used |} in
        store <- get_store ;;
        _ <- set_store
               (SecureStorage.storeAntigravityTokens accountId updatedTokens store) ;;
        ret (Some (accessToken, SecureStorage.projectId tokens))
      end
    else
      used <- Date_now env ;;
      store <- get_store ;;
      _ <- set_store
             (SecureStorage.storeAntigravityTokens accountId
                {| SecureStorage.accessToken := SecureStorage.accessToken tokens;
                   SecureStorage.refreshToken := SecureStorage.refreshToken tokens;
                   SecureStorage.expiresAt := SecureStorage.expiresAt tokens;
                   SecureStorage.projectId := SecureStorage.projectId tokens;
                   SecureStorage.email := SecureStorage.email tokens;
                   SecureStorage.createdAt := SecureStorage.createdAt tokens;
                   SecureStorage.lastUsedAt := Some used |}
                store) ;;
      ret (Some (SecureStorage.accessToken tokens, SecureStorage.projectId tokens))
  end.

(** The loop of [getAnyValidAccessToken] over the accounts listed. *)
Fixpoint getAnyValidAccessToken_loop (accountIds : list jsstring)
    : M (option (jsstring * jsstring * jsstring)) :=
  match accountIds with
  | [] => ret None
  | accountId :: rest =>
    result <- getValidAccessToken accountId ;;
    match result with
    | Some (token, projectId) => ret (Some (accountId, token, projectId))
    | None => getAnyValidAccessToken_loop rest
    end
  end.

(** [getAnyValidAccessToken]: the account id, the token and the project
    id, or [null]. *)
Definition getAnyValidAccessToken : M (option (jsstring * jsstring * jsstring)) :=
  store <- get_store ;;
  getAnyValidAccessToken_loop (SecureStorage.listAntigravityAccounts store).

(** Every account of the list is tried in turn and none yields a token;
    the second world is the one the last of them leaves. *)
Inductive all_fail : list jsstring -> World -> World -> Prop :=
| all_fail_nil w : all_fail [] w w
| all_fail_cons accountId rest w w' :
    (getValidAccessToken accountId w).1 = None ->
    all_fail rest (getValidAccessToken accountId w).2 w' ->
    all_fail (accountId :: rest) w w'.

(** [cleanup] *)
Definition cleanup : M unit :=
  fun w => set_listener (Server.stopOAuthServer (listener w)) w.

End WithEnv.

(** The account reported for a record: [email || 'Unknown'] and the
    record's project id and timestamps. *)
Definition account_of (accountId : jsstring)
    (tokens : SecureStorage.AntigravityStoredTokens) : AntigravityAccount :=
  {| id := accountId;
     account_email :=
       match SecureStorage.email tokens with
       | Some ((_ :: _) as email) => email
       | _ => str "Unknown"
       end;
     account_projectId := SecureStorage.projectId tokens;
     account_createdAt := SecureStorage.createdAt tokens;
     account_lastUsedAt := SecureStorage.lastUsedAt tokens |}.

(** [getAccounts] *)
Definition getAccounts : M (list AntigravityAccount) :=
  store <- get_store ;;
  ret (omap
         (fun accountId =>
            match SecureStorage.getAntigravityTokens accountId store with
            | Some tokens => Some (account_of accountId tokens)
            | None => None
            end)
         (SecureStorage.listAntigravityAccounts store)).

(** [isAuthenticated] *)
Definition isAuthenticated : M bool :=
  store <- get_store ;;
  ret (0 <? Z.of_nat (length (SecureStorage.listAntigravityAccounts store))).

(** ** Notions for the statements *)

(** The project id that [fetchProjectId] takes from an answer: a name
    that is not empty, or the [id] of an object when that is a string
    and not empty. *)
Definition project_of (answer : outcome (Response CompanionProject))
    : option jsstring :=
  match accepted answer with
  | Some (ProjectName ((_ :: _) as name)) => Some name
  | Some (ProjectObject (Some ((_ :: _) as id))) => Some id
  | _ => None
  end.

(** The three endpoints of [loadCodeAssist], each once. *)
Definition load_endpoints : list jsstring :=
  [ANTIGRAVITY_ENDPOINT_PROD; ANTIGRAVITY_ENDPOINT_DAILY;
   ANTIGRAVITY_ENDPOINT_AUTOPUSH].

(** The file that is the snapshot of a store: none when no record has a
    refresh token. *)
Definition snapshot_of
    (store : gmap jsstring SecureStorage.AntigravityStoredTokens)
    : option Storage :=
  match snapshot_accounts store with
  | [] => None
  | accounts => Some {| version := 3; accounts := accounts; activeIndex := 0 |}
  end.

(** The world with more requests sent and the clock read more often. *)
Definition advance (sent : list Request) (read : nat) (w : World) : World :=
  {| store := store w; snapshot_file := snapshot_file w;
     listener := listener w; requests := requests w ++ sent;
     ticks := read + ticks w; file_operations := file_operations w |}.

End TokenManager.

(** * A provider and a run, for the examples *)

Module Scenario.
Export TokenManager.

Definition answer {A} (payload : A) : outcome (Response A) :=
  Returns {| ok := true; status := 200; text := Returns []; json := Returns payload |}.

(** A provider that grants every request, issues [refresh-1] with the
    first tokens and names another refresh token, [rotated], in every
    answer to a refresh grant.  The clock stands at epoch 1700000000000
    and moves a second with every reading; from the sixth reading on it
    is close to an hour later. *)
Definition provider : Env :=
  {| clock := fun n =>
       if (n <? 5)%nat then 1700000000000 + 1000 * Z.of_nat n
       else 1700003400000 + 1000 * Z.of_nat n;
     token_endpoint := fun n request =>
       answer
         {| access_token := str "access-" ++ decimal (Z.of_nat n);
            expires_in := 3600;
            refresh_token :=
              match request with
              | TokenExchange _ _ => Some (str "refresh-1")
              | _ => Some (str "rotated")
              end;
            token_type := str "Bearer" |};
     userinfo_endpoint := fun _ _ =>
       answer (mkUserInfo (Some (str "user@example.com")) None None);
     load_endpoint := fun _ _ => answer (ProjectName (str "project-1"));
     file_system := fun _ => true;
     syntax_error_message := fun _ => str "Unexpected token";
     type_error_message := str "Cannot read properties of null" |}.


(** The provider when the network is down. *)
Definition provider_unreachable : Env :=
  {| clock := clock provider;
     token_endpoint := fun _ _ => Throws (Error (str "fetch failed"));
     userinfo_endpoint := fun _ _ => Throws (Error (str "fetch failed"));
     load_endpoint := fun _ _ => Throws (Error (str "fetch failed"));
     file_system := file_system provider;
     syntax_error_message := syntax_error_message provider;
     type_error_message := type_error_message provider |}.

Definition empty_world : World :=
  {| store := ∅; snapshot_file := None; listener := Server.initial;
     requests := []; ticks := 0; file_operations := 0 |}.


(** A login during which the browser comes back with the code [abc123]
    and the state of the authorization URL. *)
Definition sample_login : LoginInputs :=
  {| bound := true;
     random := sample_random;
     math_random := str "k3x9qz";
     opened := Returns tt;
     events :=
       [Server.Request
          (Server.callback (Some (str "abc123"))
             (Some (auth_state (buildAuthorizationUrl sample_random []))) None)] |}.

Definition sample_account : jsstring := str "account_1700000001000_k3x9qz".

(** The record the login stores. *)
Definition sample_tokens : SecureStorage.AntigravityStoredTokens :=
  {| SecureStorage.accessToken := str "access-0";
     SecureStorage.refreshToken := str "refresh-1";
     SecureStorage.expiresAt := 1700003600000;
     SecureStorage.projectId := str "project-1";
     SecureStorage.email := Some (str "user@example.com");
     SecureStorage.createdAt := 1700000002000;
     SecureStorage.lastUsedAt := Some 1700000002000 |}.

(** The world after the login, after a first use of the token a few
    seconds later, and after a second use close to the token's expiry. *)
Definition logged_in : World := (login provider sample_login empty_world).2.

Definition used_once : World :=
  (getValidAccessToken provider sample_account logged_in).2.

Definition used_twice : World :=
  (getValidAccessToken provider sample_account used_once).2.

(** A provider whose token endpoint refuses every grant. *)
Definition provider_refusing : Env :=
  {| clock := clock provider;
     token_endpoint := fun _ _ =>
       Returns {| ok := false; status := 400;
                  text := Returns (str "invalid_grant");
                  json := Throws (SyntaxError (str "invalid_grant")) |};
     userinfo_endpoint := userinfo_endpoint provider;
     load_endpoint := load_endpoint provider;
     file_system := file_system provider;
     syntax_error_message := syntax_error_message provider;
     type_error_message := type_error_message provider |}.

(** The state of the authorization URL of the scenario. *)
Definition sample_state : jsstring :=
  auth_state (buildAuthorizationUrl sample_random []).

End Scenario.

(** * PKCE pairs and the flow state: properties *)

Module CodecFacts.
Import Codec.

(** The model of the hash agrees with the digest of the standard's first
    example. *)
Example sha256_abc :
  sha256 (str "abc") =
  [0xba; 0x78; 0x16; 0xbf; 0x8f; 0x01; 0xcf; 0xea; 0x41; 0x41; 0x40; 0xde;
   0x5d; 0xae; 0x22; 0x23; 0xb0; 0x03; 0x61; 0xa3; 0x96; 0x17; 0x7a; 0x9c;
   0xb4; 0x10; 0xff; 0x61; 0xf2; 0x00; 0x15; 0xad].
Proof. vm_compute. reflexivity. Qed.

(** ** Base64 *)

(** Lists three elements at a time. *)
Lemma list_ind3 {A} (P : list A -> Prop) :
  P [] -> (forall a, P [a]) -> (forall a b, P [a; b]) ->
  (forall a b c l, P l -> P (a :: b :: c :: l)) ->
  forall l, P l.
Proof.
  intros H0 H1 H2 H3.
  assert (H : forall l, P l /\ (forall a, P (a :: l)) /\ (forall a b, P (a :: b :: l))).
  { induction l as [|x l (IH0 & IH1 & IH2)]; [by auto|].
    split_and!; [by apply IH1 | by intros; apply IH2 | by intros; apply H3]. }
  intros l. apply H.
Qed.


(** Comparisons of the tables are decided by arithmetic. *)
Ltac zlia := first [ lia | Z.div_mod_to_equations; lia ].

Ltac decide_test :=
  match goal with
  | |- context [?a <? ?b] =>
    first [ rewrite (proj2 (Z.ltb_lt a b)) by zlia
          | rewrite (proj2 (Z.ltb_ge a b)) by zlia ]
  | |- context [?a <=? ?b] =>
    first [ rewrite (proj2 (Z.leb_le a b)) by zlia
          | rewrite (proj2 (Z.leb_gt a b)) by zlia ]
  | |- context [?a =? ?b] =>
    first [ rewrite (proj2 (Z.eqb_eq a b)) by zlia
          | rewrite (proj2 (Z.eqb_neq a b)) by zlia ]
  end.

Ltac decide_tests := repeat (decide_test; cbn [andb orb negb]).

Lemma base64_char_cases i :
  is_sextet i ->
  (i < 26 /\ base64_char i = 65 + i /\ base64url_char i = 65 + i) \/
  (26 <= i < 52 /\ base64_char i = 71 + i /\ base64url_char i = 71 + i) \/
  (52 <= i < 62 /\ base64_char i = i - 4 /\ base64url_char i = i - 4) \/
  (i = 62 /\ base64_char i = 43 /\ base64url_char i = 45) \/
  (i = 63 /\ base64_char i = 47 /\ base64url_char i = 95).
Proof.
  intros Hi. unfold is_sextet in Hi. unfold base64_char, base64url_char.
  destruct (Z_lt_dec i 26); [left; decide_tests; repeat split; lia|].
  destruct (Z_lt_dec i 52); [right; left; decide_tests; repeat split; lia|].
  destruct (Z_lt_dec i 62); [right; right; left; decide_tests; repeat split; lia|].
  destruct (Z.eq_dec i 62); [right; right; right; left; decide_tests; repeat split; lia|].
  right; right; right; right. decide_tests; repeat split; lia.
Qed.

Lemma unbase64_base64_char i :
  is_sextet i -> unbase64 (base64_char i) = Some i /\ base64_char i <> 61.
Proof.
  intros Hi. unfold unbase64.
  destruct (base64_char_cases i Hi)
    as [(? & -> & _)|[(? & -> & _)|[(? & -> & _)|[(? & -> & _)|(? & -> & _)]]]];
    unfold is_sextet in Hi; decide_tests; split; (f_equal; lia) || lia.
Qed.

(** The two alphabets differ in the two characters the source replaces. *)
Lemma base64url_char_std i :
  is_sextet i ->
  (if (if base64url_char i =? 45 then 43 else base64url_char i) =? 95 then 47
   else (if base64url_char i =? 45 then 43 else base64url_char i))
  = base64_char i.
Proof.
  intros Hi.
  destruct (base64_char_cases i Hi)
    as [(? & -> & ->)|[(? & -> & ->)|[(? & -> & ->)|[(? & -> & ->)|(? & -> & ->)]]]];
    unfold is_sextet in Hi; decide_tests; repeat split; lia.
Qed.

Lemma base64_char_url i :
  is_sextet i ->
  (if (if base64_char i =? 43 then 45 else base64_char i) =? 47 then 95
   else (if base64_char i =? 43 then 45 else base64_char i))
  = base64url_char i /\ base64url_char i <> 61.
Proof.
  intros Hi.
  destruct (base64_char_cases i Hi)
    as [(? & -> & ->)|[(? & -> & ->)|[(? & -> & ->)|[(? & -> & ->)|(? & -> & ->)]]]];
    unfold is_sextet in Hi; decide_tests; split; lia.
Qed.

(** The four sextets of three bytes. *)
Lemma sextets_of_bytes a b c :
  is_byte a -> is_byte b -> is_byte c ->
  is_sextet (a / 4) /\ is_sextet (a mod 4 * 16 + b / 16) /\
  is_sextet (b mod 16 * 4 + c / 64) /\ is_sextet (c mod 64) /\
  is_sextet (a mod 4 * 16) /\ is_sextet (b mod 16 * 4).
Proof. unfold is_byte, is_sextet. intros. zlia. Qed.

(** The characters the decoder's caller restores: [-] to [+], [_] to [/]. *)
Lemma normalize_base64url bs :
  Forall is_byte bs ->
  replace_all 95 47 (replace_all 45 43 (base64_encode base64url_char false bs))
  = base64_encode base64_char false bs.
Proof.
  induction bs as [|a|a b|a b c bs IH] using list_ind3; intros Hbs.
  - reflexivity.
  - apply Forall_cons in Hbs as [Ha _].
    destruct (sextets_of_bytes a a a) as (H1 & _ & _ & _ & H2 & _); try done.
    unfold replace_all. cbn [base64_encode app map].
    by rewrite !base64url_char_std.
  - apply Forall_cons in Hbs as [Ha Hbs]. apply Forall_cons in Hbs as [Hb _].
    destruct (sextets_of_bytes a b b) as (H1 & H2 & _ & _ & _ & H3); try done.
    unfold replace_all. cbn [base64_encode app map].
    by rewrite !base64url_char_std.
  - apply Forall_cons in Hbs as [Ha Hbs]. apply Forall_cons in Hbs as [Hb Hbs].
    apply Forall_cons in Hbs as [Hc Hbs].
    destruct (sextets_of_bytes a b c) as (H1 & H2 & H3 & H4 & _ & _); try done.
    specialize (IH Hbs). unfold replace_all in *. cbn [base64_encode map].
    rewrite !base64url_char_std by done. by rewrite IH.
Qed.

(** The standard encoding with its [+], [/] and padding rewritten, as
    [generateRandomString] and [generatePKCE] do, is the URL-safe one. *)
Lemma base64_to_base64url bs :
  Forall is_byte bs ->
  remove_all 61 (replace_all 47 95 (replace_all 43 45 (toString_base64 bs)))
  = toString_base64url bs.
Proof.
  unfold toString_base64, toString_base64url.
  assert (Hkeep : forall i s, is_sextet i ->
    remove_all 61 (replace_all 47 95 (replace_all 43 45 (base64_char i :: s)))
    = base64url_char i
        :: remove_all 61 (replace_all 47 95 (replace_all 43 45 s))).
  { intros i s Hi. destruct (base64_char_url i Hi) as [Heq Hne].
    unfold remove_all, replace_all. cbn [map List.filter]. rewrite Heq.
    by rewrite (proj2 (Z.eqb_neq _ _) Hne). }
  induction bs as [|a|a b|a b c bs IH] using list_ind3; intros Hbs.
  - reflexivity.
  - apply Forall_cons in Hbs as [Ha _].
    destruct (sextets_of_bytes a a a) as (H1 & _ & _ & _ & H2 & _); try done.
    cbn [base64_encode app]. by rewrite !Hkeep.
  - apply Forall_cons in Hbs as [Ha Hbs]. apply Forall_cons in Hbs as [Hb _].
    destruct (sextets_of_bytes a b b) as (H1 & H2 & _ & _ & _ & H3); try done.
    cbn [base64_encode app]. by rewrite !Hkeep.
  - apply Forall_cons in Hbs as [Ha Hbs]. apply Forall_cons in Hbs as [Hb Hbs].
    apply Forall_cons in Hbs as [Hc Hbs].
    destruct (sextets_of_bytes a b c) as (H1 & H2 & H3 & H4 & _ & _); try done.
    cbn [base64_encode]. rewrite !Hkeep by done. by rewrite IH.
Qed.

(** Padding adds nothing to what the decoder reads. *)
Lemma sextets_padding s k : sextets (s ++ replicate k 61) = sextets s.
Proof.
  induction s as [|c s IH]; cbn [app sextets].
  - by destruct k.
  - by rewrite IH.
Qed.

Lemma sextets_base64_char i s :
  is_sextet i -> sextets (base64_char i :: s) = i :: sextets s.
Proof.
  intros Hi. destruct (unbase64_base64_char i Hi) as [Hv Hne].
  cbn [sextets]. by rewrite (proj2 (Z.eqb_neq _ _) Hne), Hv.
Qed.

Lemma decode_base64_encode bs :
  Forall is_byte bs ->
  bytes_of_sextets (sextets (base64_encode base64_char false bs)) = bs.
Proof.
  induction bs as [|a|a b|a b c bs IH] using list_ind3; intros Hbs.
  - reflexivity.
  - apply Forall_cons in Hbs as [Ha _].
    destruct (sextets_of_bytes a a a) as (H1 & _ & _ & _ & H2 & _); try done.
    cbn [base64_encode app]. rewrite !sextets_base64_char by done.
    cbn [sextets bytes_of_sextets]. unfold is_byte in Ha. f_equal. zlia.
  - apply Forall_cons in Hbs as [Ha Hbs]. apply Forall_cons in Hbs as [Hb _].
    destruct (sextets_of_bytes a b b) as (H1 & H2 & _ & _ & _ & H3); try done.
    cbn [base64_encode app]. rewrite !sextets_base64_char by done.
    cbn [sextets bytes_of_sextets]. unfold is_byte in Ha, Hb.
    f_equal; [zlia|]. f_equal. zlia.
  - apply Forall_cons in Hbs as [Ha Hbs]. apply Forall_cons in Hbs as [Hb Hbs].
    apply Forall_cons in Hbs as [Hc Hbs].
    destruct (sextets_of_bytes a b c) as (H1 & H2 & H3 & H4 & _ & _); try done.
    cbn [base64_encode]. rewrite !sextets_base64_char by done.
    cbn [bytes_of_sextets]. rewrite (IH Hbs). unfold is_byte in Ha, Hb, Hc.
    f_equal; [zlia|]. f_equal; [zlia|]. f_equal. zlia.
Qed.

(** What [decodeState] computes from an encoded buffer, however much
    padding it appends. *)
Lemma Buffer_from_base64url bs target :
  Forall is_byte bs ->
  Buffer_from_base64
    (padEnd (replace_all 95 47 (replace_all 45 43 (toString_base64url bs))) target 61)
  = bs.
Proof.
  intros Hbs. unfold Buffer_from_base64, padEnd, toString_base64url.
  rewrite sextets_padding, normalize_base64url by done.
  by apply decode_base64_encode.
Qed.

(** ** UTF-8 *)


Lemma well_formed_app s t : well_formed s -> well_formed t -> well_formed (s ++ t).
Proof.
  induction 1; intros Ht; cbn [app]; [done| |].
  - apply well_formed_unit; auto.
  - apply well_formed_pair; auto.
Qed.

Lemma surrogate_tests u :
  (is_high_surrogate u = true <-> 0xD800 <= u < 0xDC00) /\
  (is_low_surrogate u = true <-> 0xDC00 <= u < 0xE000).
Proof.
  unfold is_high_surrogate, is_low_surrogate.
  rewrite !andb_true_iff, !Z.leb_le, !Z.ltb_lt. tauto.
Qed.

Lemma not_surrogate u :
  is_high_surrogate u = false -> is_low_surrogate u = false ->
  ~ (0xD800 <= u < 0xE000).
Proof.
  intros Hh Hl [H1 H2]. destruct (surrogate_tests u) as [Hhi Hlo].
  destruct (Z_lt_dec u 0xDC00).
  - assert (is_high_surrogate u = true) by (apply Hhi; lia). congruence.
  - assert (is_low_surrogate u = true) by (apply Hlo; lia). congruence.
Qed.

Lemma utf8_code_points_scalar cp rest :
  scalar cp ->
  utf8_code_points Start (utf8_of_code_point cp ++ rest)
  = cp :: utf8_code_points Start rest.
Proof.
  intros [Hr Hs]. unfold utf8_of_code_point.
  destruct (Z_lt_dec cp 0x80); [|destruct (Z_lt_dec cp 0x800);
    [|destruct (Z_lt_dec cp 0x10000)]]; decide_tests; cbn [app utf8_code_points].
  - unfold utf8_lead. decide_tests. reflexivity.
  - unfold utf8_lead. decide_tests. cbn [fst snd app].
    decide_tests. f_equal. zlia.
  - unfold utf8_lead.
    destruct (Z_lt_dec cp 0x1000); [|destruct (Z_lt_dec cp 0xD000);
      [|destruct (Z_lt_dec cp 0xE000)]];
      decide_tests; cbn [fst snd app]; decide_tests; f_equal; zlia.
  - unfold utf8_lead.
    destruct (Z_lt_dec cp 0x40000); [|destruct (Z_lt_dec cp 0x100000)];
      decide_tests; cbn [fst snd app]; decide_tests; f_equal; zlia.
Qed.

Lemma utf8_of_code_point_bytes cp :
  0 <= cp < 0x110000 -> Forall is_byte (utf8_of_code_point cp).
Proof.
  intros Hr. unfold utf8_of_code_point.
  destruct (Z_lt_dec cp 0x80); [|destruct (Z_lt_dec cp 0x800);
    [|destruct (Z_lt_dec cp 0x10000)]]; decide_tests;
    repeat constructor; unfold is_byte; zlia.
Qed.

Lemma code_point_of_pair_scalar hi lo :
  is_high_surrogate hi = true -> is_low_surrogate lo = true ->
  scalar (code_point_of_pair hi lo) /\ 0x10000 <= code_point_of_pair hi lo /\
  utf16_of_code_point (code_point_of_pair hi lo) = [hi; lo].
Proof.
  intros Hh Hl. apply surrogate_tests in Hh. apply surrogate_tests in Hl.
  unfold scalar, utf16_of_code_point, code_point_of_pair.
  split_and!; try lia. decide_tests. f_equal; [zlia|]. f_equal. zlia.
Qed.

Lemma Buffer_from_utf8_unit u s :
  is_high_surrogate u = false -> is_low_surrogate u = false ->
  Buffer_from_utf8 (u :: s) = utf8_of_code_point u ++ Buffer_from_utf8 s.
Proof. intros Hh Hl. cbn [Buffer_from_utf8]. by rewrite Hh, Hl. Qed.

Lemma Buffer_from_utf8_pair hi lo s :
  is_high_surrogate hi = true -> is_low_surrogate lo = true ->
  Buffer_from_utf8 (hi :: lo :: s)
  = utf8_of_code_point (code_point_of_pair hi lo) ++ Buffer_from_utf8 s.
Proof. intros Hh Hl. cbn [Buffer_from_utf8]. by rewrite Hh, Hl. Qed.

(** Encoding a well-formed string and decoding the bytes gives it back. *)
Lemma toString_utf8_Buffer_from s :
  well_formed s -> toString_utf8 (Buffer_from_utf8 s) = s.
Proof.
  unfold toString_utf8.
  induction 1 as [|u s Hu Hh Hl Hs IH|hi lo s Hh Hl Hs IH].
  - reflexivity.
  - rewrite Buffer_from_utf8_unit by done.
    rewrite utf8_code_points_scalar.
    + cbn [flat_map]. rewrite IH. unfold utf16_of_code_point, code_unit in *.
      by decide_tests.
    + split; [unfold code_unit in Hu; lia | by apply not_surrogate].
  - rewrite Buffer_from_utf8_pair by done.
    destruct (code_point_of_pair_scalar hi lo Hh Hl) as (Hsc & _ & H16).
    rewrite utf8_code_points_scalar by done.
    cbn [flat_map]. by rewrite IH, H16.
Qed.

Lemma Buffer_from_utf8_bytes s :
  well_formed s -> Forall is_byte (Buffer_from_utf8 s).
Proof.
  induction 1 as [|u s Hu Hh Hl Hs IH|hi lo s Hh Hl Hs IH].
  - constructor.
  - rewrite Buffer_from_utf8_unit by done. apply Forall_app. split; [|done].
    apply utf8_of_code_point_bytes. unfold code_unit in Hu. lia.
  - rewrite Buffer_from_utf8_pair by done. apply Forall_app. split; [|done].
    apply utf8_of_code_point_bytes.
    by destruct (code_point_of_pair_scalar hi lo Hh Hl) as ([? _] & _ & _).
Qed.

(** ** JSON *)


Lemma parse_string_raw c rest :
  c <> 34 -> c <> 92 -> 32 <= c ->
  parse_string (c :: rest) = prepend c (parse_string rest).
Proof. intros H1 H2 H3. cbn [parse_string]. by decide_tests. Qed.

Lemma parse_string_simple_escapes rest :
  parse_string (92 :: 98 :: rest) = prepend 8 (parse_string rest) /\
  parse_string (92 :: 116 :: rest) = prepend 9 (parse_string rest) /\
  parse_string (92 :: 110 :: rest) = prepend 10 (parse_string rest) /\
  parse_string (92 :: 102 :: rest) = prepend 12 (parse_string rest) /\
  parse_string (92 :: 114 :: rest) = prepend 13 (parse_string rest) /\
  parse_string (92 :: 34 :: rest) = prepend 34 (parse_string rest) /\
  parse_string (92 :: 92 :: rest) = prepend 92 (parse_string rest).
Proof. by split_and!. Qed.

Lemma hex_value_digit d :
  0 <= d < 16 -> hex_value (hex_digit d) = Some d /\ 48 <= hex_digit d < 103.
Proof.
  intros Hd. unfold hex_value, hex_digit.
  destruct (Z_lt_dec d 10); decide_tests; split; try lia; f_equal; lia.
Qed.

Lemma parse_string_unicode_escape u rest :
  code_unit u ->
  parse_string (unicode_escape u ++ rest) = prepend u (parse_string rest).
Proof.
  intros Hu. unfold code_unit in Hu. unfold unicode_escape.
  destruct (hex_value_digit (u / 4096)) as [H1 _]; [zlia|].
  destruct (hex_value_digit (u / 256 mod 16)) as [H2 _]; [zlia|].
  destruct (hex_value_digit (u / 16 mod 16)) as [H3 _]; [zlia|].
  destruct (hex_value_digit (u mod 16)) as [H4 _]; [zlia|].
  cbn [app parse_string]. cbn. rewrite H1, H2, H3, H4.
  replace (u / 4096 * 4096 + u / 256 mod 16 * 256 + u / 16 mod 16 * 16 + u mod 16)
    with u by zlia.
  reflexivity.
Qed.

Lemma parse_string_quote_unit u rest :
  code_unit u ->
  parse_string (quote_unit u ++ rest) = prepend u (parse_string rest).
Proof.
  intros Hu. pose proof (parse_string_simple_escapes rest)
    as (E8 & E9 & E10 & E12 & E13 & E34 & E92).
  unfold quote_unit.
  destruct (Z.eq_dec u 8) as [->|]; [exact E8|].
  destruct (Z.eq_dec u 9) as [->|]; [exact E9|].
  destruct (Z.eq_dec u 10) as [->|]; [exact E10|].
  destruct (Z.eq_dec u 12) as [->|]; [exact E12|].
  destruct (Z.eq_dec u 13) as [->|]; [exact E13|].
  destruct (Z.eq_dec u 34) as [->|]; [exact E34|].
  destruct (Z.eq_dec u 92) as [->|]; [exact E92|].
  decide_tests.
  destruct ((u <? 32) || is_high_surrogate u || is_low_surrogate u) eqn:E.
  - by apply parse_string_unicode_escape.
  - apply orb_false_iff in E as [E _]. apply orb_false_iff in E as [E _].
    apply Z.ltb_ge in E. by apply parse_string_raw.
Qed.

(** Reading back what [JSON.stringify] writes for a string. *)
Lemma parse_string_quote_body s rest :
  wf_string s -> parse_string (quote_body s ++ 34 :: rest) = Some (s, rest).
Proof.
  remember (length s) as n eqn:Hn.
  revert s Hn. induction n as [n IH] using lt_wf_ind. intros s Hn Hs.
  destruct s as [|u s]; [reflexivity|].
  apply Forall_cons in Hs as [Hu Hs]. cbn [quote_body].
  assert (Hone :
    parse_string ((quote_unit u ++ quote_body s) ++ 34 :: rest) = Some (u :: s, rest)).
  { rewrite <- app_assoc, parse_string_quote_unit by done.
    rewrite (IH (length s)); [done|simpl in Hn; lia|done|done]. }
  destruct (is_high_surrogate u) eqn:Hh; [|exact Hone].
  destruct s as [|v s].
  { rewrite parse_string_quote_unit by done. reflexivity. }
  destruct (is_low_surrogate v) eqn:Hl; [|exact Hone].
  apply Forall_cons in Hs as [Hv Hs].
  apply surrogate_tests in Hh. apply surrogate_tests in Hl.
  cbn [app]. rewrite !parse_string_raw by lia.
  rewrite (IH (length s)); [done|simpl in Hn; lia|done|done].
Qed.

Lemma well_formed_ascii s :
  Forall (fun c => 0 <= c < 128) s -> well_formed s.
Proof.
  induction 1 as [|c s Hc Hs IH]; constructor; try done.
  - unfold code_unit. lia.
  - unfold is_high_surrogate. by decide_tests.
  - unfold is_low_surrogate. by decide_tests.
Qed.

Lemma well_formed_quote_unit u : code_unit u -> well_formed (quote_unit u).
Proof.
  intros Hu. unfold quote_unit.
  repeat match goal with
  | |- context [if ?x =? ?y then _ else _] =>
    destruct (x =? y); [apply well_formed_ascii; repeat constructor; lia|]
  end.
  destruct (u <? 32) eqn:E; cbn [orb].
  - apply well_formed_ascii. unfold unicode_escape, code_unit in *.
    apply Z.ltb_lt in E.
    destruct (hex_value_digit (u / 4096)) as [_ H1]; [zlia|].
    destruct (hex_value_digit (u / 256 mod 16)) as [_ H2]; [zlia|].
    destruct (hex_value_digit (u / 16 mod 16)) as [_ H3]; [zlia|].
    destruct (hex_value_digit (u mod 16)) as [_ H4]; [zlia|].
    repeat constructor; lia.
  - destruct (is_high_surrogate u) eqn:Hh, (is_low_surrogate u) eqn:Hl; cbn [orb].
    4: { apply well_formed_unit; [done..|constructor]. }
    all: apply well_formed_ascii; unfold unicode_escape, code_unit in *.
    all: destruct (hex_value_digit (u / 4096)) as [_ H1]; [zlia|].
    all: destruct (hex_value_digit (u / 256 mod 16)) as [_ H2]; [zlia|].
    all: destruct (hex_value_digit (u / 16 mod 16)) as [_ H3]; [zlia|].
    all: destruct (hex_value_digit (u mod 16)) as [_ H4]; [zlia|].
    all: repeat constructor; lia.
Qed.

(** [JSON.stringify] leaves no surrogate on its own. *)
Lemma well_formed_quote_body s : wf_string s -> well_formed (quote_body s).
Proof.
  remember (length s) as n eqn:Hn.
  revert s Hn. induction n as [n IH] using lt_wf_ind. intros s Hn Hs.
  destruct s as [|u s]; [constructor|].
  apply Forall_cons in Hs as [Hu Hs]. cbn [quote_body].
  assert (Hone : well_formed (quote_unit u ++ quote_body s)).
  { apply well_formed_app; [by apply well_formed_quote_unit|].
    apply (IH (length s)); [simpl in Hn; lia|done|done]. }
  destruct (is_high_surrogate u) eqn:Hh; [|exact Hone].
  destruct s as [|v s]; [by apply well_formed_quote_unit|].
  destruct (is_low_surrogate v) eqn:Hl; [|exact Hone].
  apply Forall_cons in Hs as [Hv Hs].
  apply well_formed_pair; [done..|].
  apply (IH (length s)); [simpl in Hn; lia|done|done].
Qed.

Lemma well_formed_quote s : wf_string s -> well_formed (quote s).
Proof.
  intros Hs. unfold quote.
  apply well_formed_app; [apply well_formed_ascii; repeat constructor; lia|].
  apply well_formed_app; [by apply well_formed_quote_body|].
  apply well_formed_ascii; repeat constructor; lia.
Qed.

Lemma wf_string_str_verifier : wf_string (str "verifier").
Proof. repeat constructor; by vm_compute. Qed.

Lemma wf_string_str_projectId : wf_string (str "projectId").
Proof. repeat constructor; by vm_compute. Qed.

Lemma well_formed_JSON_stringify st :
  wf_string (state_verifier st) -> wf_string (projectId st) ->
  well_formed (JSON_stringify st).
Proof.
  intros Hv Hp. unfold JSON_stringify.
  repeat first
    [ apply well_formed_quote; first
        [ done | apply wf_string_str_verifier | apply wf_string_str_projectId ]
    | apply well_formed_ascii; solve [ repeat constructor; lia ]
    | apply well_formed_app ].
Qed.

Lemma skip_ws_not_ws c rest : is_ws c = false -> skip_ws (c :: rest) = c :: rest.
Proof. intros H. cbn [skip_ws]. by rewrite H. Qed.

Lemma parse_value_string fuel rest :
  parse_value (S fuel) (34 :: rest)
  = match parse_string rest with
    | Some (t, r) => Some (JString t, r)
    | None => None
    end.
Proof. reflexivity. Qed.

Lemma parse_value_object fuel rest :
  parse_value (S fuel) (123 :: 34 :: rest) = parse_members fuel [] (34 :: rest).
Proof. reflexivity. Qed.

Lemma parse_members_next fuel acc k v rest r1 r2 :
  parse_string rest = Some (k, 58 :: r1) ->
  parse_value fuel r1 = Some (v, 44 :: r2) ->
  parse_members (S fuel) acc (34 :: rest) = parse_members fuel (acc ++ [(k, v)]) r2.
Proof.
  intros Hk Hv. cbn [parse_members].
  rewrite skip_ws_not_ws by done. rewrite Hk.
  rewrite skip_ws_not_ws by done. rewrite Hv.
  by rewrite skip_ws_not_ws by done.
Qed.

Lemma parse_members_last fuel acc k v rest r1 r2 :
  parse_string rest = Some (k, 58 :: r1) ->
  parse_value fuel r1 = Some (v, 125 :: r2) ->
  parse_members (S fuel) acc (34 :: rest) = Some (JObject (acc ++ [(k, v)]), r2).
Proof.
  intros Hk Hv. cbn [parse_members].
  rewrite skip_ws_not_ws by done. rewrite Hk.
  rewrite skip_ws_not_ws by done. rewrite Hv.
  by rewrite skip_ws_not_ws by done.
Qed.

(** Reading back what [JSON.stringify] writes for an [AuthState]. *)
Lemma JSON_parse_stringify st :
  wf_string (state_verifier st) -> wf_string (projectId st) ->
  JSON_parse (JSON_stringify st)
  = Some (JObject [(str "verifier", JString (state_verifier st));
                   (str "projectId", JString (projectId st))]).
Proof.
  intros Hv Hp. unfold JSON_parse.
  assert (Hlen : (1 <= length (JSON_stringify st))%nat)
    by (unfold JSON_stringify; rewrite length_app; cbn [length]; lia).
  assert (Hfuel : exists f, (2 * length (JSON_stringify st) + 2 = S (S (S (S f))))%nat)
    by (exists (2 * length (JSON_stringify st) - 2)%nat; lia).
  destruct Hfuel as [f ->].
  unfold JSON_stringify, quote. rewrite <- !app_assoc. cbn [app].
  rewrite parse_value_object.
  erewrite parse_members_next;
    [|apply parse_string_quote_body, wf_string_str_verifier
     |rewrite parse_value_string, parse_string_quote_body by done; reflexivity].
  erewrite parse_members_last;
    [|apply parse_string_quote_body, wf_string_str_projectId
     |rewrite parse_value_string, parse_string_quote_body by done; reflexivity].
  reflexivity.
Qed.

Lemma get_member_AuthState v p :
  get_member (str "verifier") [(str "verifier", v); (str "projectId", p)] = Some v /\
  get_member (str "projectId") [(str "verifier", v); (str "projectId", p)] = Some p.
Proof. by split. Qed.

(** The flow state that is encoded is the one decoded. *)
Lemma decodeState_encodeState st :
  wf_string (state_verifier st) -> wf_string (projectId st) ->
  decodeState (encodeState st) = Returns st.
Proof.
  intros Hv Hp. unfold decodeState, encodeState.
  pose proof (well_formed_JSON_stringify st Hv Hp) as Hwf.
  rewrite Buffer_from_base64url by (by apply Buffer_from_utf8_bytes).
  rewrite toString_utf8_Buffer_from by done.
  rewrite JSON_parse_stringify by done.
  destruct (get_member_AuthState (JString (state_verifier st)) (JString (projectId st)))
    as [-> ->].
  by destruct st.
Qed.

(** C7.  For every verifier and every hint, the empty one included,
    decoding the encoded flow state gives back the verifier and the
    hint. *)
Theorem decodeState_encodeState_identity v h :
  wf_string v -> wf_string h ->
  decodeState (encodeState {| state_verifier := v; projectId := h |})
  = Returns {| state_verifier := v; projectId := h |}.
Proof. intros Hv Hh. by apply decodeState_encodeState. Qed.

Lemma decodeState_encodeState_identity_witness :
  decodeState (encodeState {| state_verifier := str "dBjftJeZ4CVP-mB92K27uhbUJU1p1r_wW1gFWFOEjXk";
                              projectId := [] |})
  = Returns {| state_verifier := str "dBjftJeZ4CVP-mB92K27uhbUJU1p1r_wW1gFWFOEjXk";
               projectId := [] |}.
Proof.
  apply decodeState_encodeState_identity.
  - repeat constructor; by vm_compute.
  - constructor.
Defined.

(** ** PKCE pairs *)


Lemma base64url_char_url_safe i : is_sextet i -> url_safe (base64url_char i).
Proof.
  intros Hi. unfold url_safe.
  destruct (base64_char_cases i Hi)
    as [(? & _ & ->)|[(? & _ & ->)|[(? & _ & ->)|[(? & _ & ->)|(? & _ & ->)]]]];
    unfold is_sextet in Hi; lia.
Qed.

Lemma toString_base64url_url_safe bs :
  Forall is_byte bs -> Forall url_safe (toString_base64url bs).
Proof.
  unfold toString_base64url.
  induction bs as [|a|a b|a b c bs IH] using list_ind3; intros Hbs.
  - constructor.
  - apply Forall_cons in Hbs as [Ha _].
    destruct (sextets_of_bytes a a a) as (H1 & _ & _ & _ & H2 & _); try done.
    cbn [base64_encode app].
    repeat (apply Forall_cons; split; [by apply base64url_char_url_safe|]).
    constructor.
  - apply Forall_cons in Hbs as [Ha Hbs]. apply Forall_cons in Hbs as [Hb _].
    destruct (sextets_of_bytes a b b) as (H1 & H2 & _ & _ & _ & H3); try done.
    cbn [base64_encode app].
    repeat (apply Forall_cons; split; [by apply base64url_char_url_safe|]).
    constructor.
  - apply Forall_cons in Hbs as [Ha Hbs]. apply Forall_cons in Hbs as [Hb Hbs].
    apply Forall_cons in Hbs as [Hc Hbs].
    destruct (sextets_of_bytes a b c) as (H1 & H2 & H3 & H4 & _ & _); try done.
    cbn [base64_encode].
    repeat (apply Forall_cons; split; [by apply base64url_char_url_safe|]).
    by apply IH.
Qed.

(** The encoding is no shorter than the buffer. *)
Lemma toString_base64url_length bs :
  (length bs <= length (toString_base64url bs))%nat.
Proof.
  unfold toString_base64url.
  induction bs as [|a|a b|a b c bs IH] using list_ind3; cbn [base64_encode app length];
    lia.
Qed.

Lemma sha256_bytes msg : Forall is_byte (sha256 msg).
Proof.
  unfold sha256. generalize (sha256_blocks
    (length (sha256_pad msg) / 64) sha256_H0 (sha256_pad msg)) as ws.
  induction ws as [|w ws IH]; cbn [flat_map]; [constructor|].
  apply Forall_app. split; [|done].
  unfold bytes_of_word, is_byte. repeat constructor; zlia.
Qed.

Lemma verifier_url_safe random :
  Forall is_byte random -> Forall url_safe (verifier (generatePKCE random)).
Proof.
  intros Hbytes. unfold generatePKCE. cbn [verifier].
  unfold generateRandomString, slice0. rewrite base64_to_base64url by done.
  apply Forall_take. by apply toString_base64url_url_safe.
Qed.

(** C8.  For every 64 bytes the random source delivers, the verifier of
    the pair [generatePKCE] makes has exactly 64 characters, all of the
    URL-safe base64 alphabet, and the challenge is the unpadded base64url
    encoding of the SHA-256 digest of the verifier. *)
Theorem generatePKCE_pair random :
  length random = 64%nat -> Forall is_byte random ->
  length (verifier (generatePKCE random)) = 64%nat /\
  Forall url_safe (verifier (generatePKCE random)) /\
  challenge (generatePKCE random)
  = toString_base64url (sha256 (Buffer_from_utf8 (verifier (generatePKCE random)))).
Proof.
  intros Hlen Hbytes. unfold generatePKCE. cbn [verifier challenge].
  unfold generateRandomString, slice0. rewrite base64_to_base64url by done.
  split_and!.
  - rewrite length_take. pose proof (toString_base64url_length random). lia.
  - fold (slice0 64 (toString_base64url random)).
    rewrite <- (base64_to_base64url random) by done.
    by apply verifier_url_safe.
  - apply base64_to_base64url, sha256_bytes.
Qed.


Lemma generatePKCE_pair_witness :
  length (verifier (generatePKCE sample_random)) = 64%nat /\
  Forall url_safe (verifier (generatePKCE sample_random)) /\
  challenge (generatePKCE sample_random)
  = toString_base64url
      (sha256 (Buffer_from_utf8 (verifier (generatePKCE sample_random)))).
Proof.
  apply generatePKCE_pair.
  - reflexivity.
  - unfold sample_random. cbn. repeat constructor; by vm_compute.
Defined.

(** The challenge of the verifier that RFC 7636 gives as its example. *)
Example challenge_rfc7636 :
  remove_all 61 (replace_all 47 95 (replace_all 43 45
    (toString_base64
       (sha256 (Buffer_from_utf8 (str "dBjftJeZ4CVP-mB92K27uhbUJU1p1r_wW1gFWFOEjXk"))))))
  = str "E9Melhoa2OwvFrEMTJguCHaoeK1t8URWbuGJSstw-cM".
Proof. vm_compute. reflexivity. Qed.

(** ** Flow states that [encodeState] did not write *)

Lemma replace_all_app x y s t :
  replace_all x y (s ++ t) = replace_all x y s ++ replace_all x y t.
Proof. apply map_app. Qed.

Lemma replace_all_padding x y k :
  x <> 61 -> replace_all x y (replicate k 61) = replicate k 61.
Proof.
  intros Hx. unfold replace_all. induction k as [|k IH]; [done|].
  cbn [replicate map]. rewrite IH.
  by rewrite (proj2 (Z.eqb_neq 61 x)) by done.
Qed.

Lemma normalize_twice s :
  replace_all 95 47 (replace_all 45 43 (replace_all 95 47 (replace_all 45 43 s)))
  = replace_all 95 47 (replace_all 45 43 s).
Proof.
  unfold replace_all. rewrite !map_map. apply map_ext. intros c.
  destruct (c =? 45) eqn:E1; [done|].
  destruct (c =? 95) eqn:E2; [done|].
  by rewrite E1, E2.
Qed.

Lemma replace_all_length x y s : length (replace_all x y s) = length s.
Proof. apply length_map. Qed.

(** X11.  [decodeState] reads a state in the standard alphabet as it reads the
    URL-safe one, and with any padding as it reads it without: what
    follows the first [=] is not looked at. *)
Theorem decodeState_alphabet_padding s k :
  decodeState (replace_all 95 47 (replace_all 45 43 s)) = decodeState s /\
  decodeState (s ++ replicate k 61) = decodeState s.
Proof.
  split.
  - unfold decodeState. by rewrite normalize_twice, !replace_all_length.
  - unfold decodeState, Buffer_from_base64, padEnd.
    rewrite !replace_all_app, !replace_all_padding by done.
    by rewrite !sextets_padding.
Qed.

Lemma wf_string_quote_body_members members :
  Forall (fun kv => wf_string kv.1 /\ wf_string kv.2) members ->
  well_formed (stringify_members members).
Proof.
  induction 1 as [|[k v] rest [Hk Hv] Hrest IH]; [constructor|].
  cbn [stringify_members fst snd] in *.
  apply well_formed_app; [by apply well_formed_quote|].
  apply well_formed_app; [apply well_formed_ascii; repeat constructor; lia|].
  apply well_formed_app; [by apply well_formed_quote|].
  destruct rest; [constructor|].
  apply well_formed_app; [apply well_formed_ascii; repeat constructor; lia|done].
Qed.

Lemma stringify_members_length members :
  (length members <= length (stringify_members members))%nat.
Proof.
  induction members as [|[k v] rest IH]; [done|].
  cbn [stringify_members]. destruct rest as [|kv rest].
  - unfold quote. rewrite !length_app. cbn [length]. lia.
  - cbn [length] in *. unfold quote. rewrite !length_app. cbn [length]. lia.
Qed.

(** Reading back the members [JSON.stringify] writes. *)
Lemma parse_members_stringify members :
  Forall (fun kv => wf_string kv.1 /\ wf_string kv.2) members ->
  members <> [] ->
  forall fuel acc rest,
    (length members < fuel)%nat ->
    parse_members fuel acc (stringify_members members ++ 125 :: rest)
    = Some (JObject (acc ++ map (fun kv => (kv.1, JString kv.2)) members), rest).
Proof.
  induction 1 as [|[k v] members [Hk Hv] Hrest IH]; [done|].
  intros _ fuel acc rest Hfuel. cbn [fst snd] in *.
  destruct fuel as [|[|fuel]]; [cbn [length] in Hfuel; lia..|].
  cbn [stringify_members]. unfold quote. rewrite <- !app_assoc. cbn [app].
  destruct members as [|kv members].
  - cbn [app map].
    erewrite parse_members_last;
      [reflexivity
      |by apply parse_string_quote_body
      |rewrite parse_value_string, parse_string_quote_body by done; reflexivity].
  - erewrite parse_members_next;
      [|by apply parse_string_quote_body
       |rewrite parse_value_string, parse_string_quote_body by done; reflexivity].
    rewrite IH; [|done|cbn [length] in *; lia].
    cbn [map]. by rewrite <- app_assoc.
Qed.

Lemma JSON_parse_stringify_object members :
  Forall (fun kv => wf_string kv.1 /\ wf_string kv.2) members ->
  JSON_parse (stringify_object members)
  = Some (JObject (map (fun kv => (kv.1, JString kv.2)) members)).
Proof.
  intros Hwf. unfold JSON_parse.
  destruct members as [|[k v] members]; [reflexivity|].
  pose proof (stringify_members_length ((k, v) :: members)) as Hlen.
  assert (Hfuel : exists f,
    (2 * length (stringify_object ((k, v) :: members)) + 2 = S f)%nat /\
    (length ((k, v) :: members) < f)%nat).
  { exists (2 * length (stringify_object ((k, v) :: members)) + 1)%nat.
    split; [lia|]. unfold stringify_object. rewrite !length_app. cbn [length] in *. lia. }
  destruct Hfuel as (f & -> & Hf).
  unfold stringify_object. cbn [app].
  assert (Hhead : exists body,
    stringify_members ((k, v) :: members) = 34 :: body).
  { cbn [stringify_members]. unfold quote. cbn [app]. by eexists. }
  destruct Hhead as [body Hbody].
  pose proof (parse_members_stringify ((k, v) :: members) Hwf ltac:(done) f [] [] Hf)
    as Hparse.
  rewrite Hbody in *. cbn [app] in *.
  rewrite parse_value_object.
  replace (body ++ [125]) with (body ++ 125 :: []) by done.
  by rewrite Hparse.
Qed.

Lemma get_member_property key members :
  get_member key (map (fun kv => (kv.1, JString kv.2)) members)
  = JString <$> property key members.
Proof.
  induction members as [|[k v] members IH]; [done|].
  cbn [map get_member property fst snd]. rewrite IH.
  destruct (property key members); cbn [fmap option_fmap option_map]; [done|].
  by destruct (jsstring_eqb k key).
Qed.

(** What [decodeState] makes of the state that encodes an object of
    string properties: the members [JSON.parse] reads are those written. *)
Lemma decodeState_stringify_object members :
  Forall (fun kv => wf_string kv.1 /\ wf_string kv.2) members ->
  decodeState (toString_base64url (Buffer_from_utf8 (stringify_object members)))
  = match
      get_member (str "verifier") (map (fun kv => (kv.1, JString kv.2)) members)
    with
    | Some (JString verifier) =>
      Returns
        {| state_verifier := verifier;
           projectId :=
             match
               get_member (str "projectId")
                 (map (fun kv => (kv.1, JString kv.2)) members)
             with
             | Some (JString projectId) => projectId
             | _ => []
             end |}
    | _ => Throws (Error (str "Missing PKCE verifier in state"))
    end.
Proof.
  intros Hwf. unfold decodeState.
  assert (Hwf' : well_formed (stringify_object members)).
  { unfold stringify_object.
    apply well_formed_app; [apply well_formed_ascii; repeat constructor; lia|].
    apply well_formed_app; [by apply wf_string_quote_body_members|].
    apply well_formed_ascii; repeat constructor; lia. }
  rewrite Buffer_from_base64url by (by apply Buffer_from_utf8_bytes).
  rewrite toString_utf8_Buffer_from by done.
  by rewrite JSON_parse_stringify_object.
Qed.

(** X10.  The state that encodes an object of string properties, whoever wrote
    it: [decodeState] returns the verifier and the project id the object
    names, the empty project id when it names none, and throws when it
    names no verifier.  Of a name that stands twice the last counts. *)
Theorem decodeState_string_object members :
  Forall (fun kv => wf_string kv.1 /\ wf_string kv.2) members ->
  decodeState (toString_base64url (Buffer_from_utf8 (stringify_object members)))
  = match property (str "verifier") members with
    | Some v =>
      Returns {| state_verifier := v;
                 projectId := default [] (property (str "projectId") members) |}
    | None => Throws (Error (str "Missing PKCE verifier in state"))
    end.
Proof.
  intros Hwf. rewrite decodeState_stringify_object by done.
  rewrite !get_member_property.
  destruct (property (str "verifier") members) as [v|];
    cbn [fmap option_fmap option_map]; [|done].
  by destruct (property (str "projectId") members).
Qed.

Lemma decodeState_string_object_witness :
  decodeState
    (toString_base64url
       (Buffer_from_utf8 (stringify_object [(str "verifier", str "abc")])))
  = Returns {| state_verifier := str "abc"; projectId := [] |} /\
  decodeState
    (toString_base64url
       (Buffer_from_utf8 (stringify_object [(str "projectId", str "project-1")])))
  = Throws (Error (str "Missing PKCE verifier in state")).
Proof.
  split.
  - apply (decodeState_string_object [(str "verifier", str "abc")]).
    repeat constructor; by vm_compute.
  - apply (decodeState_string_object [(str "projectId", str "project-1")]).
    repeat constructor; by vm_compute.
Defined.

(** ** The random bytes a verifier uses *)

Lemma base64_encode_app alphabet padding (k : nat) bs rest :
  length bs = (3 * k)%nat ->
  base64_encode alphabet padding (bs ++ rest)
  = base64_encode alphabet false bs ++ base64_encode alphabet padding rest /\
  length (base64_encode alphabet false bs) = (4 * k)%nat.
Proof.
  revert bs. induction k as [|k IH]; intros bs Hlen.
  - destruct bs; [done|]. cbn [length] in Hlen. lia.
  - destruct bs as [|a [|b [|c bs]]]; cbn [length] in Hlen; try lia.
    destruct (IH bs) as [Happ Hl]; [lia|].
    cbn [app base64_encode]. rewrite Happ. split; [done|].
    cbn [length]. lia.
Qed.

(** X12.  The verifier is the base64url encoding of the first 48 of the 64
    random bytes: the characters the last 16 bytes give are cut off by
    [slice], and bytes that differ only there give the same verifier. *)
Theorem generatePKCE_uses_48_bytes random :
  length random = 64%nat -> Forall is_byte random ->
  verifier (generatePKCE random) = toString_base64url (take 48 random) /\
  forall random',
    length random' = 64%nat -> Forall is_byte random' ->
    take 48 random' = take 48 random ->
    generatePKCE random' = generatePKCE random.
Proof.
  assert (Hv : forall r, length r = 64%nat -> Forall is_byte r ->
    generateRandomString r 64 = toString_base64url (take 48 r)).
  { intros r Hlen Hbytes. unfold generateRandomString, slice0.
    rewrite base64_to_base64url by done.
    rewrite <- (take_drop 48 r) at 1. unfold toString_base64url.
    destruct (base64_encode_app base64url_char false 16 (take 48 r) (drop 48 r))
      as [-> Hl]; [rewrite length_take; lia|].
    rewrite take_app_length'; [done|]. rewrite Hl. reflexivity. }
  intros Hlen Hbytes. split.
  - unfold generatePKCE. cbn [verifier]. by apply Hv.
  - intros random' Hlen' Hbytes' Htake. unfold generatePKCE.
    by rewrite (Hv random' Hlen' Hbytes'), (Hv random Hlen Hbytes), Htake.
Qed.

Lemma generatePKCE_uses_48_bytes_witness :
  verifier (generatePKCE sample_random) = toString_base64url (take 48 sample_random).
Proof.
  destruct (generatePKCE_uses_48_bytes sample_random) as [H _].
  - reflexivity.
  - unfold sample_random. cbn. repeat constructor; by vm_compute.
  - exact H.
Defined.

End CodecFacts.

(** * The callback listener: properties *)

Module ServerFacts.
Import Server.

(** ** The listener's invariant: a single flow in flight *)


Lemma settle_same id o ps :
  ps !! id = Some Unsettled -> settle id o ps !! id = Some o.
Proof.
  intros H. unfold settle. rewrite H.
  apply list_lookup_insert_eq. by eapply lookup_lt_Some.
Qed.

Lemma settle_other id j o ps : id <> j -> settle id o ps !! j = ps !! j.
Proof.
  intros H. unfold settle.
  destruct (ps !! id) as [[]|]; try done.
  by apply list_lookup_insert_ne.
Qed.

Lemma settle_unsettled id j o ps :
  o <> Unsettled -> settle id o ps !! j = Some Unsettled ->
  id <> j /\ ps !! j = Some Unsettled.
Proof.
  intros Ho H. destruct (decide (id = j)) as [->|Hne].
  - unfold settle in H. destruct (ps !! j) as [[]|] eqn:E; try congruence.
    rewrite list_lookup_insert_eq in H by (by eapply lookup_lt_Some).
    congruence.
  - by rewrite settle_other in H.
Qed.

Lemma settle_length id o ps : length (settle id o ps) = length ps.
Proof.
  unfold settle. destruct (ps !! id) as [[]|]; try done.
  apply length_insert.
Qed.

(** Settling the pending flow and clearing [pendingOAuth], as every branch
    of the handler, the timer and [stopOAuthServer] do. *)
Lemma single_flight_cleared s s' p o :
  single_flight s -> pendingOAuth s = Some p -> o <> Unsettled ->
  pendingOAuth s' = None ->
  promises s' = settle (flow p) o (promises s) ->
  (forall id, is_Some (timers s' !! id) -> is_Some (timers s !! id) /\ id <> flow p) ->
  single_flight s'.
Proof.
  intros [Ha Hb Hc] Hp Ho Hn Hps Ht. split.
  - intros q Hq. congruence.
  - intros id Hid. rewrite Hps in Hid.
    apply settle_unsettled in Hid as [Hne Hid]; [|done].
    destruct (Hb _ Hid) as (q & Hq & Hf). congruence.
  - intros id Hid. destruct (Ht _ Hid) as [Hid' Hne].
    destruct (Hc _ Hid') as (q & Hq & Hf). congruence.
Qed.

Lemma single_flight_server s s' :
  single_flight s -> pendingOAuth s' = pendingOAuth s ->
  promises s' = promises s -> timers s' = timers s -> single_flight s'.
Proof.
  intros [Ha Hb Hc] Hp Hps Ht. split.
  - intros p. rewrite Hp, Hps. apply Ha.
  - intros id. rewrite Hp, Hps. apply Hb.
  - intros id. rewrite Hp, Ht. apply Hc.
Qed.

Lemma single_flight_initial : single_flight initial.
Proof.
  split; simpl.
  - intros p H. discriminate.
  - intros id H. rewrite lookup_nil in H. discriminate.
  - intros id [x H]. rewrite lookup_empty in H. discriminate.
Qed.

Lemma timers_delete_armed (m : gmap nat Z) id j :
  is_Some (delete id m !! j) -> is_Some (m !! j) /\ j <> id.
Proof.
  intros [x H]. apply lookup_delete_Some in H as [Hne H]. eauto.
Qed.

Lemma single_flight_handleRequest req s :
  single_flight s -> single_flight (handleRequest req s).2.
Proof.
  intros Hs. unfold handleRequest.
  destruct req as [| |u]; simpl; try done.
  destruct (negb _); simpl; try done.
  assert (Hclear : forall p o, pendingOAuth s = Some p -> o <> Unsettled ->
    single_flight (set_pending None
      {| server := server s; pendingOAuth := pendingOAuth s;
         promises := settle (flow p) o (promises s);
         timers := delete (flow p) (timers s) |})).
  { intros p o Hp Ho. eapply single_flight_cleared; eauto.
    simpl. intros id. apply timers_delete_armed. }
  destruct (param_error u) as [[|e er]|]; simpl.
  2: { destruct (pendingOAuth s) eqn:Hp; [|done]. by apply Hclear. }
  all: destruct (param_code u) as [[|c cr]|]; simpl;
    try (destruct (pendingOAuth s) eqn:Hp; [by apply Hclear | done]).
  all: destruct (param_state u) as [[|t tr]|]; simpl;
    try (destruct (pendingOAuth s) eqn:Hp; [by apply Hclear | done]).
  all: destruct (pendingOAuth s) eqn:Hp; simpl; [|done].
  all: destruct (negb _); simpl; by apply Hclear.
Qed.

Lemma single_flight_stop s : single_flight s -> single_flight (stopOAuthServer s).
Proof.
  intros Hs. unfold stopOAuthServer. simpl.
  destruct (pendingOAuth s) eqn:Hp.
  - eapply single_flight_cleared; eauto; try done.
    simpl. intros id. apply timers_delete_armed.
  - by eapply single_flight_server.
Qed.

Lemma single_flight_start bound s :
  single_flight s -> single_flight (startOAuthServer bound s).2.
Proof.
  intros Hs. unfold startOAuthServer. destruct (server s); simpl; [done|].
  by eapply single_flight_server.
Qed.

Lemma single_flight_timeout id s :
  single_flight s -> single_flight (timeout_fires id s).
Proof.
  intros Hs. unfold timeout_fires.
  destruct (timers s !! id) eqn:Ht; [|done]. simpl.
  destruct (armed_pending s Hs id) as (p & Hp & Hf); [by eexists|].
  rewrite Hp. eapply single_flight_cleared; eauto; try done.
  simpl. intros j Hj.
  apply timers_delete_armed in Hj as [Hj _].
  apply timers_delete_armed in Hj as [Hj Hne]. split; [done|congruence].
Qed.

(** After [waitForOAuthCallback] the new flow is the pending one, its
    promise is unsettled, and the promise of a flow that was pending is
    rejected. *)
Lemma waitForOAuthCallback_spec state timeoutMs s :
  single_flight s ->
  let r := waitForOAuthCallback state timeoutMs s in
  r.1 = length (promises s) /\
  pendingOAuth r.2 = Some {| flow := r.1; expected := state |} /\
  promises r.2 !! r.1 = Some Unsettled /\
  (forall p, pendingOAuth s = Some p ->
     promises r.2 !! flow p = Some (Rejected (str "New OAuth flow started"))) /\
  (forall id, id <> r.1 -> promises r.2 !! id = Some Unsettled -> False) /\
  (forall id, is_Some (timers r.2 !! id) -> id = r.1).
Proof.
  intros Hs. simpl. unfold waitForOAuthCallback. simpl.
  destruct (pendingOAuth s) as [p|] eqn:Hp; simpl.
  - pose proof (pending_unsettled s Hs p Hp) as Hu.
    assert (Hlt : (flow p < length (promises s))%nat) by (by eapply lookup_lt_Some).
    assert (Hu' : (promises s ++ [Unsettled]) !! flow p = Some Unsettled)
      by (by rewrite lookup_app_l).
    repeat split.
    + rewrite settle_other by lia. rewrite lookup_app_r by lia.
      by rewrite Nat.sub_diag.
    + intros q [= <-]. by apply settle_same.
    + intros id Hne Hid. apply settle_unsettled in Hid as [Hne' Hid]; [|done].
      destruct (decide (id < length (promises s))%nat).
      * rewrite lookup_app_l in Hid by done.
        destruct (unsettled_pending s Hs _ Hid) as (q & Hq & Hf). congruence.
      * apply lookup_lt_Some in Hid. rewrite length_app in Hid. simpl in Hid. lia.
    + intros id [x Hid]. apply lookup_insert_Some in Hid as [[? _]|[_ Hid']]; [done|].
      apply lookup_delete_Some in Hid' as [Hne Hid''].
      destruct (armed_pending s Hs id) as (q & Hq & Hf); [by eexists|]. congruence.
  - repeat split.
    + rewrite lookup_app_r by lia. by rewrite Nat.sub_diag.
    + intros q [=].
    + intros id Hne Hid.
      destruct (decide (id < length (promises s))%nat).
      * rewrite lookup_app_l in Hid by done.
        destruct (unsettled_pending s Hs _ Hid) as (q & Hq & Hf). congruence.
      * apply lookup_lt_Some in Hid. rewrite length_app in Hid. simpl in Hid. lia.
    + intros id [x Hid]. apply lookup_insert_Some in Hid as [[? _]|[_ Hid']]; [done|].
      destruct (armed_pending s Hs id) as (q & Hq & Hf); [by eexists|]. congruence.
Qed.

Lemma single_flight_wait state timeoutMs s :
  single_flight s -> single_flight (waitForOAuthCallback state timeoutMs s).2.
Proof.
  intros Hs.
  destruct (waitForOAuthCallback_spec state timeoutMs s Hs)
    as (Hid & Hp & Hu & _ & Hothers & Ht).
  split.
  - intros p Hq. rewrite Hp in Hq. injection Hq as <-. exact Hu.
  - intros id Hu'. eexists. split; [exact Hp|]. simpl.
    destruct (decide (id = (waitForOAuthCallback state timeoutMs s).1)); [done|].
    by destruct (Hothers id).
  - intros id Harmed. eexists. split; [exact Hp|]. simpl. symmetry. by apply Ht.
Qed.

Lemma single_flight_step s e : single_flight s -> single_flight (step s e).
Proof.
  intros Hs. destruct e; simpl.
  - by apply single_flight_start.
  - by apply single_flight_stop.
  - by apply single_flight_wait.
  - by apply single_flight_handleRequest.
  - by apply single_flight_timeout.
Qed.

Lemma single_flight_run es s : single_flight s -> single_flight (run es s).
Proof.
  revert s. induction es as [|e es IH]; intros s Hs; simpl; [done|].
  apply IH. by apply single_flight_step.
Qed.

(** A promise that is settled stays as it is. *)
Lemma settle_settled id j o x ps :
  ps !! j = Some x -> x <> Unsettled -> settle id o ps !! j = Some x.
Proof.
  intros H Hx. destruct (decide (id = j)) as [->|Hne].
  - unfold settle. rewrite H. by destruct x.
  - by rewrite settle_other.
Qed.

Lemma settled_step s e j x :
  settlement s j = Some x -> x <> Unsettled -> settlement (step s e) j = Some x.
Proof.
  unfold settlement. intros H Hx.
  assert (Hs : forall p o,
    settle (flow p) o (promises s) !! j = Some x) by (intros; by apply settle_settled).
  destruct e as [bound| |st t|req|id]; simpl.
  - unfold startOAuthServer. by destruct (server s).
  - unfold stopOAuthServer. simpl. destruct (pendingOAuth s); simpl; by auto.
  - assert (Hj : (promises s ++ [Unsettled]) !! j = Some x).
    { rewrite lookup_app_l; [done|]. by eapply lookup_lt_Some. }
    destruct (pendingOAuth s); simpl; [|done]. by apply settle_settled.
  - unfold handleRequest. destruct req as [| |u]; simpl; try done.
    destruct (negb _); simpl; try done.
    destruct (param_error u) as [[|e er]|]; simpl.
    2: destruct (pendingOAuth s); simpl; by auto.
    all: destruct (param_code u) as [[|c cr]|]; simpl;
      try (destruct (pendingOAuth s); simpl; by auto).
    all: destruct (param_state u) as [[|t tr]|]; simpl;
      try (destruct (pendingOAuth s); simpl; by auto).
    all: destruct (pendingOAuth s); simpl; [|done].
    all: destruct (negb _); simpl; by auto.
  - unfold timeout_fires. destruct (timers s !! id); [|done]. simpl.
    destruct (pendingOAuth s); simpl; by auto.
Qed.

Lemma settled_run es s j x :
  settlement s j = Some x -> x <> Unsettled -> settlement (run es s) j = Some x.
Proof.
  revert s. induction es as [|e es IH]; intros s H Hx; simpl; [done|].
  apply IH; [|done]. by apply settled_step.
Qed.

(** A request carrying both a code and a state that differs from the
    expected one is not always answered with the state-mismatch error: when
    it names an error as well, the flow is rejected with that error, the
    branch the handler takes first. *)
Lemma state_mismatch_behind_error :
  pendingOAuth awaiting_good = Some {| flow := 0; expected := str "good" |} /\
  settlement awaiting_good 0 = Some Unsettled /\
  str "evil" <> str "good" /\
  settlement (handleRequest forged_with_error awaiting_good).2 0
    = Some (Rejected (str "OAuth error: access_denied")) /\
  settlement (handleRequest forged_with_error awaiting_good).2 0
    <> Some (Rejected (str "State mismatch")).
Proof. by_evaluation. Qed.

(** C1 (amended).  On every state the listener can reach with a flow [p]
    pending, a request to [/oauth-callback] whose state parameter is not
    the expected state never resolves the flow: the handler rejects it,
    clears [pendingOAuth], and the promise stays rejected whatever happens
    afterwards.  When the request carries a non-empty code, a non-empty
    state and no error parameter, the rejection is the state-mismatch
    error and the response is the failure page; the comparison stands
    before the only call of [resolve]. *)
Theorem handleRequest_state_mismatch es p u :
  let s := run es initial in
  pendingOAuth s = Some p ->
  pathname u = str "/oauth-callback" ->
  param_state u <> Some (expected p) ->
  let r := handleRequest (Url u) s in
  exists message,
    settlement r.2 (flow p) = Some (Rejected message) /\
    pendingOAuth r.2 = None /\
    (forall es', settlement (run es' r.2) (flow p) = Some (Rejected message)) /\
    (truthy_opt (param_error u) = false ->
     truthy_opt (param_code u) = true ->
     truthy_opt (param_state u) = true ->
     message = str "State mismatch" /\
     r.1 = Some (failure_page (str "State mismatch - possible CSRF attack"))).
Proof.
  intros s Hp Hpath Hst r.
  assert (Hinv : single_flight s) by apply single_flight_run, single_flight_initial.
  pose proof (pending_unsettled s Hinv p Hp) as Hu.
  assert (Hrej : forall message,
    settle (flow p) (Rejected message) (promises s) !! flow p
      = Some (Rejected message)) by (intros; by apply settle_same).
  assert (Hlater : forall message s',
    settlement s' (flow p) = Some (Rejected message) ->
    forall es', settlement (run es' s') (flow p) = Some (Rejected message))
    by (intros; by apply settled_run).
  assert (Hpath' : jsstring_eqb (pathname u) (str "/oauth-callback") = true)
    by (by apply bool_decide_eq_true_2).
  subst r. unfold handleRequest. rewrite Hpath'. simpl.
  destruct (param_error u) as [[|e er]|], (param_code u) as [[|c cr]|],
    (param_state u) as [[|t tr]|]; simpl; rewrite Hp; simpl.
  all: try (unfold jsstring_eqb; rewrite bool_decide_eq_false_2 by congruence; simpl).
  all: eexists; split; [apply Hrej|]; split; [done|].
  all: split; [apply Hlater; exact (Hrej _)|].
  all: intros; try discriminate; done.
Qed.

Lemma handleRequest_state_mismatch_witness :
  settlement (handleRequest
      (callback (Some (str "abc123")) (Some (str "evil")) None) awaiting_good).2 0
    = Some (Rejected (str "State mismatch")).
Proof.
  destruct (handleRequest_state_mismatch
    [Start true; Wait (str "good") DEFAULT_TIMEOUT_MS]
    {| flow := 0; expected := str "good" |}
    {| pathname := str "/oauth-callback"; param_code := Some (str "abc123");
       param_state := Some (str "evil"); param_error := None |})
    as (message & Hrej & _ & _ & Hmsg); [reflexivity | reflexivity | by_evaluation |].
  destruct Hmsg as [-> _]; [reflexivity..|]. exact Hrej.
Defined.

(** C2.  On every state the listener can reach, at most one promise is
    unsettled.  When [waitForOAuthCallback] is called while a flow [p] is
    pending, the promise of [p] is rejected at once with the supersession
    error, the new flow is the only one pending, and a callback that
    carries a code and the state the new flow expects resolves it with
    that code and state. *)
Theorem waitForOAuthCallback_supersedes es p st timeoutMs :
  let s := run es initial in
  pendingOAuth s = Some p ->
  let r := waitForOAuthCallback st timeoutMs s in
  (forall es' i j,
     settlement (run es' initial) i = Some Unsettled ->
     settlement (run es' initial) j = Some Unsettled -> i = j) /\
  settlement s (flow p) = Some Unsettled /\
  settlement r.2 (flow p) = Some (Rejected (str "New OAuth flow started")) /\
  pendingOAuth r.2 = Some {| flow := r.1; expected := st |} /\
  settlement r.2 r.1 = Some Unsettled /\
  (forall c error,
     c <> [] -> st <> [] -> truthy_opt error = false ->
     let r' := handleRequest (callback (Some c) (Some st) error) r.2 in
     r'.1 = Some success_page /\
     settlement r'.2 r.1 = Some (Resolved {| code := c; state := st |}) /\
     pendingOAuth r'.2 = None).
Proof.
  intros s Hp r.
  assert (Hinv : single_flight s) by apply single_flight_run, single_flight_initial.
  destruct (waitForOAuthCallback_spec st timeoutMs s Hinv)
    as (Hid & Hpend & Hu & Hold & _ & _).
  fold r in Hid, Hpend, Hu, Hold.
  split_and!.
  - intros es' i j Hi Hj.
    assert (Hinv' : single_flight (run es' initial))
      by apply single_flight_run, single_flight_initial.
    destruct (unsettled_pending _ Hinv' i Hi) as (q & Hq & <-).
    destruct (unsettled_pending _ Hinv' j Hj) as (q' & Hq' & <-).
    congruence.
  - by apply (pending_unsettled s Hinv).
  - by apply Hold.
  - exact Hpend.
  - exact Hu.
  - intros c error Hc Hst Herr.
    assert (Hpath : jsstring_eqb (str "/oauth-callback") (str "/oauth-callback") = true)
      by (by apply bool_decide_eq_true_2).
    unfold handleRequest, callback, settlement. cbn [pathname param_error param_code param_state].
    rewrite Hpath. cbn [negb].
    destruct error as [[|e er]|], c, st; try done; cbn zeta iota beta.
    all: rewrite Hpend; cbn [expected flow].
    all: unfold jsstring_eqb; rewrite bool_decide_eq_true_2 by done; cbn.
    all: split_and!; try done; by apply settle_same.
Qed.

Lemma waitForOAuthCallback_supersedes_witness :
  let r := waitForOAuthCallback (str "second") DEFAULT_TIMEOUT_MS awaiting_good in
  settlement r.2 0 = Some (Rejected (str "New OAuth flow started")) /\
  settlement
    (handleRequest (callback (Some (str "abc123")) (Some (str "second")) None) r.2).2 1
    = Some (Resolved {| code := str "abc123"; state := str "second" |}).
Proof.
  destruct (waitForOAuthCallback_supersedes
    [Start true; Wait (str "good") DEFAULT_TIMEOUT_MS]
    {| flow := 0; expected := str "good" |} (str "second") DEFAULT_TIMEOUT_MS)
    as (_ & _ & Hrej & _ & _ & Hres); [reflexivity|].
  split; [exact Hrej|].
  by destruct (Hres (str "abc123") None) as (_ & H & _).
Defined.

(** ** A flow is resolved only with the state it expects *)


Lemma settle_resolved j id o params ps :
  settle j o ps !! id = Some (Resolved params) ->
  ps !! id = Some (Resolved params) \/ (j = id /\ o = Resolved params).
Proof.
  intros H. destruct (decide (j = id)) as [->|Hne].
  - unfold settle in H. destruct (ps !! id) as [[]|] eqn:E;
      try (left; congruence).
    rewrite list_lookup_insert_eq in H by (by eapply lookup_lt_Some).
    right. split; congruence.
  - rewrite settle_other in H by done. by left.
Qed.

(** Rejecting the pending flow, whatever becomes of [pendingOAuth]. *)
Lemma expects_rejected id st s s' p message :
  expects id st s ->
  promises s' = settle (flow p) (Rejected message) (promises s) ->
  pendingOAuth s' = None ->
  expects id st s'.
Proof.
  intros [He Hp Hr] Hps Hn. split.
  - rewrite Hps, settle_length. done.
  - intros q Hq. congruence.
  - intros params H. rewrite Hps in H.
    apply settle_resolved in H as [H|[_ H]]; [by apply Hr|discriminate].
Qed.

Lemma expects_same id st s s' :
  expects id st s -> promises s' = promises s -> pendingOAuth s' = pendingOAuth s ->
  expects id st s'.
Proof.
  intros [He Hp Hr] Hps Hq. split.
  - by rewrite Hps.
  - intros p. rewrite Hq. apply Hp.
  - intros params. rewrite Hps. apply Hr.
Qed.

Lemma expects_step id st s e : expects id st s -> expects id st (step s e).
Proof.
  intros Hs. destruct e as [bound| |st' t|req|j]; simpl.
  - unfold startOAuthServer. destruct (server s); simpl; [done|].
    by eapply expects_same.
  - unfold stopOAuthServer. simpl. destruct (pendingOAuth s) eqn:Hp.
    + by eapply expects_rejected.
    + by eapply expects_same.
  - destruct Hs as [He Hp Hr]. split; simpl.
    + destruct (pendingOAuth s); simpl;
        rewrite ?settle_length, length_app; simpl; lia.
    + intros q [= <-]. simpl. lia.
    + intros params H. apply Hr.
      destruct (pendingOAuth s); simpl in H.
      * apply settle_resolved in H as [H|[_ H]]; [|discriminate].
        by rewrite lookup_app_l in H.
      * by rewrite lookup_app_l in H.
  - unfold handleRequest. destruct req as [| |u]; simpl; try done.
    destruct (negb _); simpl; try done.
    assert (Hrej : forall p message, pendingOAuth s = Some p ->
      expects id st (set_pending None (pending_reject p message s)))
      by (intros; by eapply expects_rejected).
    destruct (param_error u) as [[|e er]|]; simpl.
    2: { destruct (pendingOAuth s) eqn:Hp; [by apply Hrej|done]. }
    all: destruct (param_code u) as [[|c cr]|]; simpl;
      try (destruct (pendingOAuth s) eqn:Hp; [by apply Hrej|done]).
    all: destruct (param_state u) as [[|t tr]|]; simpl;
      try (destruct (pendingOAuth s) eqn:Hp; [by apply Hrej|done]).
    all: destruct (pendingOAuth s) as [p|] eqn:Hp; simpl; [|done].
    all: destruct (jsstring_eqb (expected p) (t :: tr)) eqn:Heq; simpl;
      [|by apply Hrej].
    all: apply bool_decide_eq_true_1 in Heq.
    all: destruct Hs as [He Hq Hr]; split; simpl;
      [by rewrite settle_length|done|].
    all: intros params H; apply settle_resolved in H as [H|[Hf H]];
      [by apply Hr|].
    all: injection H as <-; simpl; rewrite <- Heq; by apply Hq.
  - unfold timeout_fires. destruct (timers s !! j); [|done]. simpl.
    destruct (pendingOAuth s) eqn:Hp.
    + by eapply expects_rejected.
    + by eapply expects_same.
Qed.

(** The flow that [waitForOAuthCallback] registers expects the state it
    was given. *)
Lemma expects_waitForOAuthCallback st timeoutMs s :
  single_flight s ->
  expects (waitForOAuthCallback st timeoutMs s).1 st
    (waitForOAuthCallback st timeoutMs s).2.
Proof.
  intros Hs.
  destruct (waitForOAuthCallback_spec st timeoutMs s Hs)
    as (Hid & Hp & Hu & _ & _ & _).
  split.
  - by eapply lookup_lt_Some.
  - intros p Hq _. rewrite Hp in Hq. by injection Hq as <-.
  - intros params H. congruence.
Qed.

(** ** What a request does to the listener *)

(** The handler leaves the listener as it is, or settles the pending flow
    and clears [pendingOAuth]. *)
Lemma handleRequest_cases req s :
  (handleRequest req s).2 = s \/
  exists p o, pendingOAuth s = Some p /\ o <> Unsettled /\ complete o /\
    (handleRequest req s).2
    = {| server := server s; pendingOAuth := None;
         promises := settle (flow p) o (promises s);
         timers := delete (flow p) (timers s) |}.
Proof.
  unfold handleRequest. destruct req as [| |u]; simpl; try by left.
  destruct (negb _); simpl; [by left|].
  destruct (param_error u) as [[|e er]|]; simpl.
  2: { destruct (pendingOAuth s) as [p|] eqn:Hp; [|by left].
       right. by exists p, (Rejected (str "OAuth error: " ++ e :: er)). }
  all: destruct (param_code u) as [[|c cr]|]; simpl;
    try (destruct (pendingOAuth s) as [p|] eqn:Hp; [|by left];
         right; by exists p, (Rejected (str "Missing code or state parameter"))).
  all: destruct (param_state u) as [[|t tr]|]; simpl;
    try (destruct (pendingOAuth s) as [p|] eqn:Hp; [|by left];
         right; by exists p, (Rejected (str "Missing code or state parameter"))).
  all: destruct (pendingOAuth s) as [p|] eqn:Hp; simpl; [|by left].
  all: right; destruct (negb _); simpl.
  all: try by exists p, (Rejected (str "State mismatch")).
  all: by exists p, (Resolved {| code := c :: cr; state := t :: tr |}).
Qed.

(** ** Timers *)

Lemma armed_initial : armed initial.
Proof. intros p H. discriminate. Qed.

Lemma armed_cleared s : pendingOAuth s = None -> armed s.
Proof. intros H p Hp. congruence. Qed.

Lemma armed_step s e : armed s -> armed (step s e).
Proof.
  intros Hs. destruct e as [bound| |st t|req|id]; simpl.
  - unfold startOAuthServer. destruct (server s); simpl; [done|]. exact Hs.
  - unfold stopOAuthServer. simpl.
    destruct (pendingOAuth s) eqn:Hp; simpl; [by apply armed_cleared|].
    by apply armed_cleared.
  - intros p [= <-]. simpl. rewrite lookup_insert_eq. by eexists.
  - destruct (handleRequest_cases req s) as [->|(p & o & _ & _ & _ & ->)]; [done|].
    by apply armed_cleared.
  - unfold timeout_fires. destruct (timers s !! id) eqn:Ht; [|done]. simpl.
    destruct (pendingOAuth s) eqn:Hp; simpl; by apply armed_cleared.
Qed.

Lemma armed_run es s : armed s -> armed (run es s).
Proof.
  revert s. induction es as [|e es IH]; intros s Hs; simpl; [done|].
  apply IH. by apply armed_step.
Qed.

(** Only the timer of the pending flow is armed. *)
Lemma timers_pending_only s p :
  single_flight s -> pendingOAuth s = Some p -> delete (flow p) (timers s) = ∅.
Proof.
  intros Hs Hp. apply map_empty. intros id.
  destruct (decide (id = flow p)) as [->|Hne].
  - apply lookup_delete_eq.
  - rewrite lookup_delete_ne by done.
    destruct (timers s !! id) eqn:E; [|done].
    destruct (armed_pending s Hs id) as (q & Hq & Hf); [by eexists|]. congruence.
Qed.

Lemma timers_none_pending s :
  single_flight s -> pendingOAuth s = None -> timers s = ∅.
Proof.
  intros Hs Hp. apply map_empty. intros id.
  destruct (timers s !! id) eqn:E; [|done].
  destruct (armed_pending s Hs id) as (q & Hq & Hf); [by eexists|]. congruence.
Qed.

Lemma reachable_single_flight es : single_flight (run es initial).
Proof. apply single_flight_run, single_flight_initial. Qed.

Lemma reachable_armed es : armed (run es initial).
Proof. apply armed_run, armed_initial. Qed.

(** X6.  The timers that are armed on a state the listener can reach: the one
    of the pending flow and no other; none when no flow is pending.
    [waitForOAuthCallback] leaves one timer, that of the flow it
    registers, with the delay it was given: the timer of a flow it
    supersedes is cleared. *)
Theorem timers_of_pending es :
  let s := run es initial in
  match pendingOAuth s with
  | Some p => exists delay, timers s = {[ flow p := delay ]}
  | None => timers s = ∅
  end /\
  forall st timeoutMs,
    timers (waitForOAuthCallback st timeoutMs s).2
    = {[ (waitForOAuthCallback st timeoutMs s).1 := timeoutMs ]}.
Proof.
  intros s.
  pose proof (reachable_single_flight es) as Hs.
  pose proof (reachable_armed es) as Ha. fold s in Hs, Ha.
  split.
  - destruct (pendingOAuth s) as [p|] eqn:Hp; [|by apply timers_none_pending].
    destruct (Ha p Hp) as [delay Hd]. exists delay.
    rewrite <- (insert_delete_id (timers s) (flow p) delay Hd).
    by rewrite (timers_pending_only s p Hs Hp).
  - intros st timeoutMs. unfold waitForOAuthCallback. simpl.
    destruct (pendingOAuth s) as [p|] eqn:Hp; simpl.
    + by rewrite (timers_pending_only s p Hs Hp).
    + by rewrite (timers_none_pending s Hs Hp).
Qed.

Lemma timeout_fires_pending s p :
  single_flight s -> armed s -> pendingOAuth s = Some p ->
  settlement (timeout_fires (flow p) s) (flow p)
  = Some (Rejected (str "OAuth callback timeout")) /\
  pendingOAuth (timeout_fires (flow p) s) = None.
Proof.
  intros Hs Ha Hp. destruct (Ha p Hp) as [delay Hd].
  unfold timeout_fires, settlement. rewrite Hd. simpl. rewrite Hp. simpl.
  split; [|done]. apply settle_same. by apply (pending_unsettled s Hs).
Qed.

(** X7.  When the timer of the pending flow runs, the flow is rejected with
    the timeout error and [pendingOAuth] is cleared. *)
Theorem timeout_fires_rejects_pending es p :
  let s := run es initial in
  pendingOAuth s = Some p ->
  let s' := timeout_fires (flow p) s in
  settlement s' (flow p) = Some (Rejected (str "OAuth callback timeout")) /\
  pendingOAuth s' = None /\
  timers s' = ∅ /\
  server s' = server s.
Proof.
  intros s Hp s'.
  pose proof (reachable_single_flight es) as Hs.
  pose proof (reachable_armed es) as Ha. fold s in Hs, Ha.
  destruct (Ha p Hp) as [delay Hd].
  subst s'. unfold timeout_fires, settlement. rewrite Hd. simpl. rewrite Hp. simpl.
  split_and!; try done.
  - apply settle_same. by apply (pending_unsettled s Hs).
  - by rewrite delete_delete_eq, (timers_pending_only s p Hs Hp).
Qed.

Lemma timeout_fires_rejects_pending_witness :
  settlement (timeout_fires 0 awaiting_good) 0
  = Some (Rejected (str "OAuth callback timeout")).
Proof.
  by destruct (timeout_fires_rejects_pending
    [Start true; Wait (str "good") DEFAULT_TIMEOUT_MS]
    {| flow := 0; expected := str "good" |} eq_refl) as (H & _).
Defined.

(** X8.  The timer of a flow that is no longer the pending one does nothing:
    settling a flow clears its timer, so the timeout of an earlier flow
    never rejects the flow that superseded it. *)
Theorem stale_timer_never_fires es id :
  let s := run es initial in
  (forall p, pendingOAuth s = Some p -> flow p <> id) ->
  timeout_fires id s = s.
Proof.
  intros s Hid.
  pose proof (reachable_single_flight es) as Hs. fold s in Hs.
  unfold timeout_fires. destruct (timers s !! id) eqn:E; [|done].
  destruct (armed_pending s Hs id) as (q & Hq & Hf); [by eexists|].
  by destruct (Hid q Hq).
Qed.

Lemma stale_timer_never_fires_witness :
  timeout_fires 0 awaiting_second = awaiting_second.
Proof.
  apply (stale_timer_never_fires
    [Start true; Wait (str "good") DEFAULT_TIMEOUT_MS;
     Wait (str "second") DEFAULT_TIMEOUT_MS] 0).
  intros p Hp. vm_compute in Hp. injection Hp as <-. simpl. lia.
Defined.

(** ** The branches of the handler *)

Lemma callback_path u :
  pathname u = str "/oauth-callback" ->
  negb (jsstring_eqb (pathname u) (str "/oauth-callback")) = false.
Proof.
  intros H. unfold jsstring_eqb. by rewrite bool_decide_eq_true_2.
Qed.

Lemma error_rejects s p u error :
  single_flight s -> pendingOAuth s = Some p ->
  pathname u = str "/oauth-callback" ->
  param_error u = Some error -> error <> [] ->
  settlement (handleRequest (Url u) s).2 (flow p)
  = Some (Rejected (str "OAuth error: " ++ error)).
Proof.
  intros Hs Hp Hpath Herror Hne. unfold handleRequest, settlement.
  rewrite (callback_path u Hpath), Herror, Hp.
  destruct error as [|e er]; [done|]. simpl.
  apply settle_same. by apply (pending_unsettled s Hs).
Qed.

(** X1.  A callback that names an error rejects the pending flow with that
    error, whatever code and state it carries beside it, and is answered
    with the failure page that shows the error. *)
Theorem handleRequest_provider_error es p u error :
  let s := run es initial in
  pendingOAuth s = Some p ->
  pathname u = str "/oauth-callback" ->
  param_error u = Some error -> error <> [] ->
  let r := handleRequest (Url u) s in
  r.1 = Some (failure_page error) /\
  settlement r.2 (flow p) = Some (Rejected (str "OAuth error: " ++ error)) /\
  pendingOAuth r.2 = None /\
  timers r.2 = ∅ /\
  server r.2 = server s.
Proof.
  intros s Hp Hpath Herror Hne r.
  pose proof (reachable_single_flight es) as Hs. fold s in Hs.
  subst r. unfold handleRequest, settlement.
  rewrite (callback_path u Hpath), Herror, Hp.
  destruct error as [|e er]; [done|]. simpl.
  split_and!; try done.
  - apply settle_same. by apply (pending_unsettled s Hs).
  - by apply timers_pending_only.
Qed.

Lemma handleRequest_provider_error_witness :
  (handleRequest consent_denied awaiting_good).1
  = Some (failure_page (str "access_denied")) /\
  settlement (handleRequest consent_denied awaiting_good).2 0
  = Some (Rejected (str "OAuth error: access_denied")).
Proof.
  destruct (handleRequest_provider_error
    [Start true; Wait (str "good") DEFAULT_TIMEOUT_MS]
    {| flow := 0; expected := str "good" |}
    {| pathname := str "/oauth-callback"; param_code := None;
       param_state := Some (str "good"); param_error := Some (str "access_denied") |}
    (str "access_denied"))
    as (Hpage & Hrej & _); [reflexivity | reflexivity | reflexivity | by_evaluation |].
  split; [exact Hpage | exact Hrej].
Defined.

(** X2.  A callback without an error that lacks the code or the state, or
    carries an empty one, rejects the pending flow with the
    missing-parameter error; the state it may carry is not compared. *)
Theorem handleRequest_missing_parameter es p u :
  let s := run es initial in
  pendingOAuth s = Some p ->
  pathname u = str "/oauth-callback" ->
  truthy_opt (param_error u) = false ->
  truthy_opt (param_code u) && truthy_opt (param_state u) = false ->
  let r := handleRequest (Url u) s in
  r.1 = Some (failure_page (str "Missing code or state parameter")) /\
  settlement r.2 (flow p)
  = Some (Rejected (str "Missing code or state parameter")) /\
  pendingOAuth r.2 = None.
Proof.
  intros s Hp Hpath Herror Hmissing r.
  pose proof (reachable_single_flight es) as Hs. fold s in Hs.
  pose proof (pending_unsettled s Hs p Hp) as Hu.
  subst r. unfold handleRequest, settlement. rewrite (callback_path u Hpath), Hp.
  destruct (param_error u) as [[|e er]|], (param_code u) as [[|c cr]|],
    (param_state u) as [[|t tr]|]; try discriminate; simpl.
  all: split_and!; try done; by apply settle_same.
Qed.

Lemma handleRequest_missing_parameter_witness :
  settlement
    (handleRequest (callback None (Some (str "good")) None) awaiting_good).2 0
  = Some (Rejected (str "Missing code or state parameter")).
Proof.
  by destruct (handleRequest_missing_parameter
    [Start true; Wait (str "good") DEFAULT_TIMEOUT_MS]
    {| flow := 0; expected := str "good" |}
    {| pathname := str "/oauth-callback"; param_code := None;
       param_state := Some (str "good"); param_error := None |}
    eq_refl eq_refl eq_refl eq_refl) as (_ & H & _).
Defined.

(** X3.  The handler changes nothing when the request has no URL or goes to
    another path than [/oauth-callback], whatever its query says, and
    when no flow is pending.  It still answers: the former with 404, and
    a callback with a code and a state that finds no flow pending with
    the success page, there being no state to compare with. *)
Theorem handleRequest_no_effect req s :
  pendingOAuth s = None \/
  (forall u, req = Url u -> pathname u <> str "/oauth-callback") ->
  (handleRequest req s).2 = s /\
  ((forall u, req = Url u -> pathname u <> str "/oauth-callback") ->
   req <> InvalidUrl -> (handleRequest req s).1 = Some not_found) /\
  (forall c st error,
     pendingOAuth s = None ->
     c <> [] -> st <> [] -> truthy_opt error = false ->
     req = callback (Some c) (Some st) error ->
     (handleRequest req s).1 = Some success_page).
Proof.
  intros Hcase.
  assert (Hother : (forall u, req = Url u -> pathname u <> str "/oauth-callback") ->
    req <> InvalidUrl -> handleRequest req s = (Some not_found, s)).
  { intros Hpath Hvalid. destruct req as [| |u]; try done.
    unfold handleRequest, jsstring_eqb.
    rewrite bool_decide_eq_false_2; [done|]. by apply Hpath. }
  split_and!.
  - destruct (handleRequest_cases req s) as [->|(p & o & Hq & _)]; [done|].
    destruct Hcase as [Hp|Hpath]; [congruence|].
    destruct req as [| |u]; try done. by rewrite Hother.
  - intros Hpath Hvalid. by rewrite Hother.
  - intros c st error Hp Hc Hst Herror ->.
    assert (Hpath : jsstring_eqb (str "/oauth-callback") (str "/oauth-callback") = true)
      by (by apply bool_decide_eq_true_2).
    unfold handleRequest, callback. cbn [pathname param_error param_code param_state].
    rewrite Hpath, Hp.
    by destruct error as [[|e er]|], c, st.
Qed.

Lemma handleRequest_no_effect_witness :
  handleRequest
    (Url {| pathname := str "/favicon.ico"; param_code := Some (str "abc123");
            param_state := Some (str "good"); param_error := None |})
    awaiting_good
  = (Some not_found, awaiting_good) /\
  handleRequest (callback (Some (str "abc123")) (Some (str "late")) None) initial
  = (Some success_page, initial).
Proof.
  split.
  - destruct (handleRequest_no_effect
      (Url {| pathname := str "/favicon.ico"; param_code := Some (str "abc123");
              param_state := Some (str "good"); param_error := None |})
      awaiting_good) as (Hs & Hpage & _).
    + right. intros u [= <-]. by_evaluation.
    + apply injective_projections; [|exact Hs].
      apply Hpage; [|done]. intros u [= <-]. by_evaluation.
  - destruct (handleRequest_no_effect
      (callback (Some (str "abc123")) (Some (str "late")) None) initial)
      as (Hs & _ & Hpage); [by left|].
    apply injective_projections; [|exact Hs].
    apply (Hpage (str "abc123") (str "late") None); by_evaluation.
Defined.

(** ** Starting and stopping *)

(** [startOAuthServer] reports whether the listener is running when it
    returns.  A listener that is running is not bound again, one that
    could not bind stays off, and a pending flow is not touched. *)
Lemma startOAuthServer_running bound s :
  let r := startOAuthServer bound s in
  r.1 = isOAuthServerRunning r.2 /\
  r.1 = isOAuthServerRunning s || bound /\
  (startOAuthServer bound r.2).2 = r.2 /\
  pendingOAuth r.2 = pendingOAuth s /\
  promises r.2 = promises s /\
  timers r.2 = timers s.
Proof.
  unfold startOAuthServer, isOAuthServerRunning.
  destruct s as [[] pending ps ts], bound; simpl; by split_and!.
Qed.

Lemma stop_rejects s p :
  single_flight s -> pendingOAuth s = Some p ->
  settlement (stopOAuthServer s) (flow p) = Some (Rejected (str "OAuth server stopped")) /\
  pendingOAuth (stopOAuthServer s) = None.
Proof.
  intros Hs Hp. unfold stopOAuthServer, settlement. simpl. rewrite Hp. simpl.
  split; [|done]. apply settle_same. by apply (pending_unsettled s Hs).
Qed.

(** X9.  After [stopOAuthServer] the listener is off, no flow is pending, no
    timer is armed and no promise is left unsettled: the flow that was
    pending is rejected with the shutdown error.  Stopping again changes
    nothing. *)
Theorem stopOAuthServer_releases es :
  let s := run es initial in
  let s' := stopOAuthServer s in
  isOAuthServerRunning s' = false /\
  pendingOAuth s' = None /\
  timers s' = ∅ /\
  (forall id, settlement s' id <> Some Unsettled) /\
  (forall p, pendingOAuth s = Some p ->
     settlement s' (flow p) = Some (Rejected (str "OAuth server stopped"))) /\
  stopOAuthServer s' = s'.
Proof.
  intros s s'.
  pose proof (reachable_single_flight es) as Hs. fold s in Hs.
  assert (Hs' : single_flight s') by (by apply single_flight_stop).
  assert (Hp' : pendingOAuth s' = None).
  { subst s'. unfold stopOAuthServer. simpl. by destruct (pendingOAuth s). }
  split_and!.
  - subst s'. unfold stopOAuthServer, isOAuthServerRunning. simpl.
    by destruct (pendingOAuth s).
  - done.
  - by apply timers_none_pending.
  - intros id Hid. destruct (unsettled_pending s' Hs' id Hid) as (q & Hq & _).
    congruence.
  - intros p Hp. subst s'. unfold stopOAuthServer, settlement. simpl.
    rewrite Hp. simpl. apply settle_same. by apply (pending_unsettled s Hs).
  - assert (Hoff : server s' = false).
    { subst s'. unfold stopOAuthServer. simpl. by destruct (pendingOAuth s). }
    unfold stopOAuthServer at 1. simpl. rewrite Hp'.
    destruct s' as [sv pd ps ts]. simpl in *. by subst.
Qed.

(** ** Promises *)

Lemma exists_step s e j :
  is_Some (settlement s j) -> is_Some (settlement (step s e) j).
Proof.
  unfold settlement. intros H. apply lookup_lt_is_Some in H.
  apply lookup_lt_is_Some.
  destruct e as [bound| |st t|req|id]; simpl.
  - unfold startOAuthServer. by destruct (server s).
  - unfold stopOAuthServer. simpl.
    destruct (pendingOAuth s); simpl; by rewrite ?settle_length.
  - destruct (pendingOAuth s); simpl; rewrite ?settle_length, length_app; simpl; lia.
  - destruct (handleRequest_cases req s) as [->|(p & o & _ & _ & _ & ->)]; [done|].
    simpl. by rewrite settle_length.
  - unfold timeout_fires. destruct (timers s !! id); [|done]. simpl.
    destruct (pendingOAuth s); simpl; by rewrite ?settle_length.
Qed.




Lemma complete_settle id o ps :
  complete o -> Forall complete ps -> Forall complete (settle id o ps).
Proof.
  intros Ho Hps. unfold settle. destruct (ps !! id) as [[]|]; try done.
  by apply Forall_insert.
Qed.

Lemma complete_step s e :
  Forall complete (promises s) -> Forall complete (promises (step s e)).
Proof.
  intros H. destruct e as [bound| |st t|req|id]; simpl.
  - unfold startOAuthServer. by destruct (server s).
  - unfold stopOAuthServer. simpl.
    destruct (pendingOAuth s); simpl; [|done]. by apply complete_settle.
  - assert (H' : Forall complete (promises s ++ [Unsettled]))
      by (apply Forall_app; split; [done|by repeat constructor]).
    destruct (pendingOAuth s); simpl; [|done]. by apply complete_settle.
  - destruct (handleRequest_cases req s) as [->|(p & o & _ & _ & Ho & ->)]; [done|].
    simpl. by apply complete_settle.
  - unfold timeout_fires. destruct (timers s !! id); [|done]. simpl.
    destruct (pendingOAuth s); simpl; [|done]. by apply complete_settle.
Qed.

Lemma complete_run es s :
  Forall complete (promises s) -> Forall complete (promises (run es s)).
Proof.
  revert s. induction es as [|e es IH]; intros s H; simpl; [done|].
  apply IH. by apply complete_step.
Qed.

Lemma expects_run id st es s : expects id st s -> expects id st (run es s).
Proof.
  revert s. induction es as [|e es IH]; intros s H; simpl; [done|].
  apply IH. by apply expects_step.
Qed.

(** X4.  Whatever happens to the listener before and after a flow is
    registered, the flow is resolved only with parameters that carry a
    code and the state the flow was registered with; a flow registered
    with an empty state is never resolved. *)
Theorem resolved_with_expected_state es st timeoutMs es' params :
  let r := waitForOAuthCallback st timeoutMs (run es initial) in
  settlement (run es' r.2) r.1 = Some (Resolved params) ->
  state params = st /\ code params <> [] /\ st <> [].
Proof.
  intros r Hres.
  assert (He : expects r.1 st (run es' r.2)).
  { apply expects_run, expects_waitForOAuthCallback, reachable_single_flight. }
  assert (Hc : Forall complete (promises (run es' r.2))).
  { apply complete_run. change r.2 with (step (run es initial) (Wait st timeoutMs)).
    apply complete_step. change (Forall complete (promises (run es initial))).
    apply complete_run. constructor. }
  pose proof (expects_resolved _ _ _ He params Hres) as Hst.
  rewrite Forall_lookup in Hc. specialize (Hc _ _ Hres). destruct Hc as [Hcode Hstate].
  split_and!; try done. by rewrite <- Hst.
Qed.

Lemma resolved_with_expected_state_witness :
  state {| code := str "abc123"; state := str "good" |} = str "good" /\
  code {| code := str "abc123"; state := str "good" |} <> [] /\
  str "good" <> [].
Proof.
  apply (resolved_with_expected_state [Start true] (str "good") DEFAULT_TIMEOUT_MS
    [Request NoUrl;
     Request (callback (Some (str "abc123")) (Some (str "good")) None)]).
  by_evaluation.
Defined.

End ServerFacts.

(** * The identity provider client: properties *)

Module OAuthFacts.
Import Scenario.

Lemma advance_nil w : advance [] 0 w = w.
Proof. destruct w. unfold advance. simpl. by rewrite app_nil_r. Qed.

Lemma advance_advance a n b m w :
  advance b m (advance a n w) = advance (a ++ b) (m + n) w.
Proof. unfold advance. simpl. by rewrite app_assoc, Nat.add_assoc. Qed.

Lemma project_of_truthy answer name : project_of answer = Some name -> name <> [].
Proof.
  unfold project_of. destruct (accepted answer) as [[[|c n]|[[|c n]|]|]|]; try done.
  all: by intros [= <-].
Qed.

Lemma load_endpoints_once :
  Array_from_Set [] (ANTIGRAVITY_LOAD_ENDPOINTS ++ ANTIGRAVITY_ENDPOINT_FALLBACKS)
  = load_endpoints.
Proof. by vm_compute. Qed.

Section WithEnv.
Variable env : Env.

(** ** The project lookup *)

Lemma fetchProjectId_loop_cons token e rest w :
  fetchProjectId_loop env token (e :: rest) w
  = match
      project_of (load_endpoint env (length (requests w)) (LoadCodeAssist e token))
    with
    | Some name => (name, advance [LoadCodeAssist e token] 0 w)
    | None =>
      fetchProjectId_loop env token rest (advance [LoadCodeAssist e token] 0 w)
    end.
Proof.
  cbn [fetchProjectId_loop]. unfold bind, fetchWithTimeout, project_of, accepted.
  cbn [fst snd].
  destruct (load_endpoint env _ _) as [response|]; [|done].
  destruct (ok response); cbn [negb]; [|done].
  by destruct (json response) as [[[|c n]|[[|c n]|]|]|].
Qed.

(** The loop asks the endpoints in turn, stops at the first answer that
    names a project, and gives the empty string when none does. *)
Lemma fetchProjectId_loop_spec token endpoints w :
  let r := fetchProjectId_loop env token endpoints w in
  let answer (i : nat) e :=
    project_of (load_endpoint env (length (requests w) + i) (LoadCodeAssist e token)) in
  (exists i e,
     endpoints !! i = Some e /\ answer i e = Some r.1 /\
     (forall j e', (j < i)%nat -> endpoints !! j = Some e' -> answer j e' = None) /\
     r.2 = advance (map (fun e => LoadCodeAssist e token) (take (S i) endpoints)) 0 w)
  \/
  (r.1 = [] /\
   (forall j e', endpoints !! j = Some e' -> answer j e' = None) /\
   r.2 = advance (map (fun e => LoadCodeAssist e token) endpoints) 0 w).
Proof.
  revert w. induction endpoints as [|e rest IH]; intros w; cbv zeta.
  - right. cbn. split_and!; [done| |by rewrite advance_nil].
    intros j e' Hj. by rewrite lookup_nil in Hj.
  - rewrite fetchProjectId_loop_cons.
    destruct (project_of _) as [name|] eqn:Hhere.
    + left. exists 0%nat, e. cbn [fst snd]. split_and!; try done.
      * by rewrite Nat.add_0_r.
      * intros j e' Hj. lia.
    + specialize (IH (advance [LoadCodeAssist e token] 0 w)). cbv zeta in IH.
      assert (Hindex : forall i : nat,
        (length (requests (advance [LoadCodeAssist e token] 0 w)) + i
         = length (requests w) + S i)%nat).
      { intros i. unfold advance. cbn [requests]. rewrite length_app. cbn [length]. lia. }
      destruct IH as [(i & e1 & Hi & Hans & Hbefore & Hw)|(Hnone & Hall & Hw)].
      * left. exists (S i), e1. rewrite Hindex in Hans.
        split_and!; try done.
        -- intros [|j] e' Hj Hlook.
           ++ rewrite Nat.add_0_r. by injection Hlook as <-.
           ++ rewrite <- Hindex. apply Hbefore; [lia|done].
        -- by rewrite Hw, advance_advance.
      * right. split_and!; try done.
        -- intros [|j] e' Hlook.
           ++ rewrite Nat.add_0_r. by injection Hlook as <-.
           ++ rewrite <- Hindex. by apply Hall.
        -- by rewrite Hw, advance_advance.
Qed.

(** X14.  [fetchProjectId] asks the production endpoint, then the daily and the
    autopush sandbox, each once although the two lists it merges name
    each twice.  It returns the project of the first answer that names
    one, after sending nothing further, and the empty string after three
    requests when none does; an endpoint that fails, answers with an
    error status or names no project is passed over. *)
Theorem fetchProjectId_first_project token w :
  let r := fetchProjectId env token w in
  let answer (i : nat) e :=
    project_of (load_endpoint env (length (requests w) + i) (LoadCodeAssist e token)) in
  (exists i e,
     load_endpoints !! i = Some e /\ answer i e = Some r.1 /\ r.1 <> [] /\
     (forall j e', (j < i)%nat -> load_endpoints !! j = Some e' -> answer j e' = None) /\
     r.2 = advance (map (fun e => LoadCodeAssist e token) (take (S i) load_endpoints)) 0 w)
  \/
  (r.1 = [] /\
   (forall j e', load_endpoints !! j = Some e' -> answer j e' = None) /\
   r.2 = advance (map (fun e => LoadCodeAssist e token) load_endpoints) 0 w).
Proof.
  cbv zeta. unfold fetchProjectId. rewrite load_endpoints_once.
  destruct (fetchProjectId_loop_spec token load_endpoints w)
    as [(i & e & Hi & Hans & Hbefore & Hw)|H]; [left|by right].
  exists i, e. split_and!; try done. by eapply project_of_truthy.
Qed.

Lemma fetchProjectId_world token w :
  exists sent,
    (fetchProjectId env token w).2 = advance sent 0 w /\
    ((fetchProjectId env token w).1 = [] \/
     exists n e,
       project_of (load_endpoint env n (LoadCodeAssist e token))
       = Some (fetchProjectId env token w).1).
Proof.
  unfold fetchProjectId.
  destruct (fetchProjectId_loop_spec token
    (Array_from_Set [] (ANTIGRAVITY_LOAD_ENDPOINTS ++ ANTIGRAVITY_ENDPOINT_FALLBACKS)) w)
    as [(i & e & _ & Hans & _ & Hw)|(Hnone & _ & Hw)]; eexists; (split; [done|]).
  - right. by eexists _, _.
  - by left.
Qed.

(** ** The exchange *)

(** The exchange for a state that decodes, a token grant that carries a
    refresh token and a user-info request that is answered. *)
Lemma exchangeCodeForTokens_granted code st decoded payload rt w :
  decodeState st = Returns decoded ->
  accepted (token_endpoint env (length (requests w))
              (TokenExchange code (state_verifier decoded))) = Some payload ->
  refresh_token payload = Some rt -> rt <> [] ->
  let info :=
    userinfo_endpoint env (S (length (requests w))) (UserInfo (access_token payload)) in
  user_info_obtained info = true ->
  let w' :=
    advance [TokenExchange code (state_verifier decoded);
             UserInfo (access_token payload)] 1 w in
  let project :=
    if truthy (Codec.projectId decoded) then ret (Codec.projectId decoded)
    else fetchProjectId env (access_token payload) in
  exchangeCodeForTokens env code st w
  = (success {| accessToken := access_token payload;
                refreshToken := rt;
                expiresAt := clock env (ticks w) + expires_in payload * 1000;
                email := accepted info ≫= info_email;
                projectId := (project w').1 |},
     (project w').2).
Proof.
  intros Hdec Hacc Hrt Hne info Hinfo w' project.
  unfold exchangeCodeForTokens. rewrite Hdec.
  unfold bind, Date_now, fetchWithTimeout, ret.
  cbn [fst snd requests ticks store snapshot_file listener file_operations].
  unfold accepted in Hacc.
  destruct (token_endpoint env _ _) as [response|]; [|discriminate].
  destruct (ok response); [|discriminate].
  destruct (json response) as [payload'|]; [|discriminate].
  injection Hacc as ->.
  cbn [negb fst snd requests ticks store snapshot_file listener file_operations].
  rewrite length_app. cbn [length].
  replace (length (requests w) + 1)%nat with (S (length (requests w))) by lia.
  fold info. unfold user_info_obtained in Hinfo.
  assert (Hw' : w' =
    {| store := store w; snapshot_file := snapshot_file w; listener := listener w;
       requests := (requests w ++ [TokenExchange code (state_verifier decoded)])
                     ++ [UserInfo (access_token payload)];
       ticks := S (ticks w); file_operations := file_operations w |}).
  { subst w'. unfold advance. by rewrite <- app_assoc. }
  rewrite Hrt. destruct rt as [|c rt]; [done|].
  unfold calculateTokenExpiry, accepted.
  destruct info as [response'|]; [|discriminate].
  destruct (ok response').
  - destruct (json response') as [userInfo|]; [|discriminate].
    cbn [fst snd mbind option_bind]. by rewrite <- Hw'.
  - cbn [fst snd mbind option_bind]. by rewrite <- Hw'.
Qed.

(** X15.  When the token endpoint grants tokens with a refresh token, the
    exchange succeeds with the tokens of the grant and an expiry counted
    from the clock reading taken before the request.  A user-info request
    that is answered with an error status does not fail it: the result
    then has no email.  A project id carried in the state is taken as it
    is and no project lookup is sent; without one the project is what
    [fetchProjectId] gives, possibly the empty string. *)
Theorem exchangeCodeForTokens_success code st decoded payload rt w :
  decodeState st = Returns decoded ->
  accepted (token_endpoint env (length (requests w))
              (TokenExchange code (state_verifier decoded))) = Some payload ->
  refresh_token payload = Some rt -> rt <> [] ->
  let info :=
    userinfo_endpoint env (S (length (requests w))) (UserInfo (access_token payload)) in
  user_info_obtained info = true ->
  let sent :=
    [TokenExchange code (state_verifier decoded); UserInfo (access_token payload)] in
  let r := exchangeCodeForTokens env code st w in
  exists result,
    r.1 = success result /\
    accessToken result = access_token payload /\
    refreshToken result = rt /\
    expiresAt result = clock env (ticks w) + expires_in payload * 1000 /\
    email result = accepted info ≫= info_email /\
    (Codec.projectId decoded <> [] ->
     projectId result = Codec.projectId decoded /\ r.2 = advance sent 1 w) /\
    (Codec.projectId decoded = [] ->
     projectId result = (fetchProjectId env (access_token payload) (advance sent 1 w)).1 /\
     r.2 = (fetchProjectId env (access_token payload) (advance sent 1 w)).2).
Proof.
  intros Hdec Hacc Hrt Hne info Hinfo sent r. subst r.
  rewrite (exchangeCodeForTokens_granted code st decoded payload rt w) by done.
  eexists. split; [reflexivity|]. cbn [fst snd accessToken refreshToken expiresAt
    email projectId].
  split_and!; try done.
  - intros Hp. by destruct (Codec.projectId decoded).
  - by intros ->.
Qed.

(** X16.  A token endpoint that answers with an error status fails the
    exchange with the body of its answer as the error; one request has
    been sent, and none for the user info. *)
Theorem exchangeCodeForTokens_token_refused code st decoded response body w :
  decodeState st = Returns decoded ->
  token_endpoint env (length (requests w))
    (TokenExchange code (state_verifier decoded)) = Returns response ->
  ok response = false -> text response = Returns body ->
  exchangeCodeForTokens env code st w
  = (failed body, advance [TokenExchange code (state_verifier decoded)] 1 w).
Proof.
  intros Hdec Hanswer Hok Htext.
  unfold exchangeCodeForTokens. rewrite Hdec.
  unfold bind, Date_now, fetchWithTimeout. cbn [fst snd requests].
  by rewrite Hanswer, Hok, Htext.
Qed.

(** X17.  A state that encodes an object without a verifier fails the exchange
    with the error of [decodeState]; nothing is sent and the clock is not
    read. *)
Theorem exchangeCodeForTokens_without_verifier code members w :
  Forall (fun kv => wf_string kv.1 /\ wf_string kv.2) members ->
  property (str "verifier") members = None ->
  exchangeCodeForTokens env code
    (toString_base64url (Buffer_from_utf8 (stringify_object members))) w
  = (failed (str "Missing PKCE verifier in state"), w).
Proof.
  intros Hwf Hnone. unfold exchangeCodeForTokens.
  rewrite CodecFacts.decodeState_stringify_object by done.
  by rewrite CodecFacts.get_member_property, Hnone.
Qed.

(** ** The refresh *)

(** X18.  A refresh that is not granted gives an error and never throws: the
    body of an answer with an error status, the message of what the
    request or the reading of the answer throws. *)
Theorem refreshAccessToken_failure rt w :
  let answer := token_endpoint env (length (requests w)) (TokenRefresh rt) in
  accepted answer = None ->
  let r := refreshAccessToken env rt w in
  r.2 = advance [TokenRefresh rt] 1 w /\
  exists error,
    r.1 = refresh_error error /\
    (forall e, answer = Throws e -> error = message_of env e) /\
    (forall response body,
       answer = Returns response -> ok response = false ->
       text response = Returns body -> error = body).
Proof.
  intros answer Hacc r. subst r answer.
  unfold refreshAccessToken, bind, Date_now, fetchWithTimeout, ret.
  cbn [fst snd requests]. unfold accepted in Hacc.
  destruct (token_endpoint env _ _) as [response|e].
  - destruct (ok response) eqn:Hok; cbn [negb].
    + destruct (json response) eqn:Hjson; [discriminate|]. cbn [fst snd].
      split; [done|]. eexists. split_and!; [done|done|].
      intros ? ? [= <-] ? ?. congruence.
    + destruct (text response) as [body|e] eqn:Htext; cbn [fst snd];
        (split; [done|]); eexists; (split_and!; [done|done|]);
        intros ? ? [= <-] _ ?; congruence.
  - cbn [fst snd]. split; [done|]. eexists. split_and!; [done| |done].
    by intros ? [= <-].
Qed.

End WithEnv.

Lemma exchangeCodeForTokens_success_witness :
  exists result,
    (exchangeCodeForTokens provider (str "abc123") sample_state empty_world).1
    = success result /\
    refreshToken result = str "refresh-1" /\
    expiresAt result = 1700003600000.
Proof.
  destruct (exchangeCodeForTokens_success provider (str "abc123") sample_state
    {| state_verifier := auth_verifier (buildAuthorizationUrl sample_random []);
       Codec.projectId := [] |}
    {| access_token := str "access-0"; expires_in := 3600;
       refresh_token := Some (str "refresh-1"); token_type := str "Bearer" |}
    (str "refresh-1") empty_world)
    as (result & Hr & _ & Hrt & Hexp & _);
    [by vm_compute | by vm_compute | reflexivity | by_evaluation | by vm_compute |].
  exists result. by split_and!.
Defined.

Lemma exchangeCodeForTokens_token_refused_witness :
  (exchangeCodeForTokens provider_refusing (str "abc123") sample_state empty_world).1
  = failed (str "invalid_grant").
Proof.
  by rewrite (exchangeCodeForTokens_token_refused provider_refusing (str "abc123")
    sample_state
    {| state_verifier := auth_verifier (buildAuthorizationUrl sample_random []);
       Codec.projectId := [] |}
    {| ok := false; status := 400; text := Returns (str "invalid_grant");
       json := Throws (SyntaxError (str "invalid_grant")) |}
    (str "invalid_grant") empty_world) by (by vm_compute).
Defined.

Lemma exchangeCodeForTokens_without_verifier_witness :
  exchangeCodeForTokens provider (str "abc123")
    (toString_base64url
       (Buffer_from_utf8 (stringify_object [(str "projectId", str "project-1")])))
    empty_world
  = (failed (str "Missing PKCE verifier in state"), empty_world).
Proof.
  apply (exchangeCodeForTokens_without_verifier provider (str "abc123")
           [(str "projectId", str "project-1")] empty_world).
  - repeat constructor; by vm_compute.
  - reflexivity.
Defined.

Lemma refreshAccessToken_failure_witness :
  exists error,
    (refreshAccessToken provider_refusing (str "refresh-1") empty_world).1
    = refresh_error error.
Proof.
  destruct (refreshAccessToken_failure provider_refusing (str "refresh-1") empty_world)
    as (_ & error & Herror & _); [reflexivity|].
  by exists error.
Defined.

(** ** The authorization URL *)

(** X13.  The state of the authorization URL decodes to the verifier the call
    returns and the project id it was given, the challenge of the URL is
    the S256 transform of that verifier, and the state consists of
    URL-safe characters only. *)
Theorem buildAuthorizationUrl_state random projectId :
  Forall is_byte random -> wf_string projectId ->
  let auth := buildAuthorizationUrl random projectId in
  decodeState (auth_state auth)
  = Returns {| state_verifier := auth_verifier auth; Codec.projectId := projectId |} /\
  Forall url_safe (auth_state auth) /\
  (str "state", auth_state auth) ∈ url auth /\
  (str "code_challenge",
   toString_base64url (sha256 (Buffer_from_utf8 (auth_verifier auth)))) ∈ url auth /\
  (str "code_challenge_method", str "S256") ∈ url auth.
Proof.
  intros Hrandom Hproject auth.
  assert (Hverifier : wf_string (verifier (generatePKCE random))).
  { eapply Forall_impl; [by apply CodecFacts.verifier_url_safe|].
    intros c Hc. unfold url_safe in Hc. unfold code_unit. lia. }
  subst auth. unfold buildAuthorizationUrl. cbn [auth_state auth_verifier url].
  split_and!.
  - by apply CodecFacts.decodeState_encodeState.
  - apply CodecFacts.toString_base64url_url_safe, CodecFacts.Buffer_from_utf8_bytes.
    by apply CodecFacts.well_formed_JSON_stringify.
  - do 2 (apply elem_of_cons; right). apply elem_of_cons. by left.
  - assert (Hchallenge : challenge (generatePKCE random)
      = toString_base64url (sha256 (Buffer_from_utf8 (verifier (generatePKCE random))))).
    { unfold generatePKCE. cbn [challenge verifier].
      apply CodecFacts.base64_to_base64url, CodecFacts.sha256_bytes. }
    rewrite <- Hchallenge. apply elem_of_cons. by left.
  - apply elem_of_cons; right. apply elem_of_cons. by left.
Qed.

Lemma buildAuthorizationUrl_state_witness :
  decodeState (auth_state (buildAuthorizationUrl sample_random (str "project-1")))
  = Returns {| state_verifier :=
                 auth_verifier (buildAuthorizationUrl sample_random (str "project-1"));
               Codec.projectId := str "project-1" |}.
Proof.
  destruct (buildAuthorizationUrl_state sample_random (str "project-1")) as [H _].
  - unfold sample_random. cbn. repeat constructor; by vm_compute.
  - repeat constructor; by vm_compute.
  - exact H.
Defined.

End OAuthFacts.

(** * The session orchestrator: properties *)

Module TokenManagerFacts.
Import Scenario.

Section WithEnv.
Variable env : Env.

(** [refreshAccessToken] reads the clock once and sends one request, the
    refresh grant for the token it is given; it succeeds exactly when the
    answer is accepted. *)
Lemma refreshAccessToken_spec rt w :
  let r := refreshAccessToken env rt w in
  store r.2 = store w /\ snapshot_file r.2 = snapshot_file w /\
  listener r.2 = listener w /\ file_operations r.2 = file_operations w /\
  ticks r.2 = S (ticks w) /\
  requests r.2 = requests w ++ [TokenRefresh rt] /\
  match accepted (token_endpoint env (length (requests w)) (TokenRefresh rt)) with
  | Some payload =>
    r.1 = refreshed (access_token payload)
            (clock env (ticks w) + expires_in payload * 1000)
  | None => exists error, r.1 = refresh_error error
  end.
Proof.
  unfold refreshAccessToken, bind, Date_now, fetchWithTimeout, accepted, ret. cbn.
  destruct (token_endpoint env (length (requests w)) (TokenRefresh rt))
    as [response|e]; cbn; [|by eauto 10].
  destruct (ok response); cbn.
  - destruct (json response); cbn; by eauto 10.
  - destruct (text response); cbn; by eauto 10.
Qed.

(** What [getValidAccessToken] does with a record, case by case. *)
Lemma getValidAccessToken_spec accountId tokens w :
  store w !! accountId = Some tokens ->
  let now := clock env (ticks w) in
  let r := getValidAccessToken env accountId w in
  snapshot_file r.2 = snapshot_file w /\ listener r.2 = listener w /\
  file_operations r.2 = file_operations w /\
  if SecureStorage.expiresAt tokens - now <=? TOKEN_REFRESH_BUFFER_MS then
    requests r.2 = requests w ++ [TokenRefresh (SecureStorage.refreshToken tokens)] /\
    match
      accepted (token_endpoint env (length (requests w))
                  (TokenRefresh (SecureStorage.refreshToken tokens)))
    with
    | Some payload =>
      r.1 = Some (access_token payload, SecureStorage.projectId tokens) /\
      ticks r.2 = S (S (S (ticks w))) /\
      store r.2 =
        <[accountId :=
            refreshed_at (clock env (S (S (ticks w)))) (access_token payload)
              (clock env (S (ticks w)) + expires_in payload * 1000) tokens]>
          (store w)
    | None => r.1 = None /\ store r.2 = store w /\ ticks r.2 = S (S (ticks w))
    end
  else
    requests r.2 = requests w /\
    r.1 = Some (SecureStorage.accessToken tokens, SecureStorage.projectId tokens) /\
    ticks r.2 = S (S (ticks w)) /\
    store r.2 = <[accountId := used_at (clock env (S (ticks w))) tokens]> (store w).
Proof.
  intros Hget now r. subst now.
  assert (Hr : r = getValidAccessToken env accountId w) by reflexivity. clearbody r.
  unfold getValidAccessToken, bind, get_store, Date_now, set_store, ret,
    SecureStorage.getAntigravityTokens, SecureStorage.storeAntigravityTokens in Hr.
  cbn -[refreshAccessToken Z.leb Z.sub TOKEN_REFRESH_BUFFER_MS] in Hr.
  rewrite Hget in Hr.
  cbn -[refreshAccessToken Z.leb Z.sub TOKEN_REFRESH_BUFFER_MS] in Hr.
  destruct (_ <=? _).
  - set (w1 := {| store := store w; snapshot_file := snapshot_file w;
                  listener := listener w; requests := requests w;
                  ticks := S (ticks w); file_operations := file_operations w |})
      in Hr.
    destruct (refreshAccessToken_spec (SecureStorage.refreshToken tokens) w1)
      as (Hs & Hf & Hl & Ho & Ht & Hq & Hres).
    cbn [requests ticks store snapshot_file listener file_operations w1] in *.
    destruct (accepted _) as [payload|].
    + rewrite Hres in Hr. subst r. cbn [fst snd store snapshot_file listener
        requests ticks file_operations].
      rewrite Hs, Hf, Hl, Ho, Ht, Hq. by split_and!.
    + destruct Hres as [error Hres]. rewrite Hres in Hr. subst r. cbn [fst snd].
      by split_and!.
  - subst r. cbn. by split_and!.
Qed.

(** C3.  For a stored record, [getValidAccessToken] refreshes exactly when
    [expiresAt - now] is at most the buffer of five minutes.  It then sends
    one request, the refresh grant for the stored refresh token, and
    returns the access token of the answer, or nothing when the refresh
    fails, never the stored token.  When more than the buffer remains it
    sends no request, returns the stored token, and the record changes in
    [lastUsedAt] only. *)
Theorem getValidAccessToken_refreshes_within_buffer accountId tokens w :
  SecureStorage.getAntigravityTokens accountId (store w) = Some tokens ->
  let now := clock env (ticks w) in
  let r := getValidAccessToken env accountId w in
  let refresh := TokenRefresh (SecureStorage.refreshToken tokens) in
  TOKEN_REFRESH_BUFFER_MS = 300000 /\
  (SecureStorage.expiresAt tokens - now <= TOKEN_REFRESH_BUFFER_MS ->
   requests r.2 = requests w ++ [refresh] /\
   match accepted (token_endpoint env (length (requests w)) refresh) with
   | Some payload =>
     r.1 = Some (access_token payload, SecureStorage.projectId tokens) /\
     SecureStorage.getAntigravityTokens accountId (store r.2)
     = Some (refreshed_at (clock env (S (S (ticks w)))) (access_token payload)
               (clock env (S (ticks w)) + expires_in payload * 1000) tokens)
   | None => r.1 = None
   end) /\
  (TOKEN_REFRESH_BUFFER_MS < SecureStorage.expiresAt tokens - now ->
   requests r.2 = requests w /\
   r.1 = Some (SecureStorage.accessToken tokens, SecureStorage.projectId tokens) /\
   SecureStorage.getAntigravityTokens accountId (store r.2)
   = Some (used_at (clock env (S (ticks w))) tokens)).
Proof.
  intros Hget now r refresh.
  pose proof (getValidAccessToken_spec accountId tokens w Hget) as (_ & _ & _ & H).
  fold now r in H. split; [reflexivity|]. split; intros Hle.
  - rewrite (proj2 (Z.leb_le _ _) Hle) in H. destruct H as [Hq H].
    split; [exact Hq|]. fold refresh in H.
    destruct (accepted _) as [payload|]; [|by destruct H].
    destruct H as (H1 & _ & H3). split; [exact H1|].
    unfold SecureStorage.getAntigravityTokens. rewrite H3.
    apply lookup_insert_eq.
  - rewrite (proj2 (Z.leb_gt _ _) Hle) in H. destruct H as (Hq & H1 & _ & H3).
    split_and!; [done..|].
    unfold SecureStorage.getAntigravityTokens. rewrite H3.
    apply lookup_insert_eq.
Qed.

(** C6 (amended).  Whatever the answer to the refresh grant carries,
    [getValidAccessToken] leaves the record of the account with the
    refresh token it had. *)
Theorem getValidAccessToken_keeps_refresh_token accountId tokens w :
  SecureStorage.getAntigravityTokens accountId (store w) = Some tokens ->
  exists tokens',
    SecureStorage.getAntigravityTokens accountId
      (store (getValidAccessToken env accountId w).2) = Some tokens' /\
    SecureStorage.refreshToken tokens' = SecureStorage.refreshToken tokens.
Proof.
  intros Hget.
  pose proof (getValidAccessToken_spec accountId tokens w Hget) as (_ & _ & _ & H).
  cbv zeta in H. unfold SecureStorage.getAntigravityTokens in *.
  destruct (_ <=? _).
  - destruct H as [_ H]. destruct (accepted _) as [payload|].
    + destruct H as (_ & _ & ->). rewrite lookup_insert_eq. by eexists.
    + destruct H as (_ & -> & _). by eexists.
  - destruct H as (_ & _ & _ & ->). rewrite lookup_insert_eq. by eexists.
Qed.

(** C10.  When the refresh that [getValidAccessToken] attempts fails, the
    call returns nothing and the store is the one it found: the record is
    there with every field as it was, the account is listed, the snapshot
    file is untouched, and a later call sends the refresh grant for the
    same refresh token again. *)
Theorem getValidAccessToken_failed_refresh_frame accountId tokens w :
  SecureStorage.getAntigravityTokens accountId (store w) = Some tokens ->
  SecureStorage.expiresAt tokens - clock env (ticks w) <= TOKEN_REFRESH_BUFFER_MS ->
  accepted (token_endpoint env (length (requests w))
              (TokenRefresh (SecureStorage.refreshToken tokens))) = None ->
  let r := getValidAccessToken env accountId w in
  r.1 = None /\
  store r.2 = store w /\
  snapshot_file r.2 = snapshot_file w /\
  SecureStorage.getAntigravityTokens accountId (store r.2) = Some tokens /\
  SecureStorage.listAntigravityAccounts (store r.2)
  = SecureStorage.listAntigravityAccounts (store w) /\
  accountId ∈ SecureStorage.listAntigravityAccounts (store r.2) /\
  (SecureStorage.expiresAt tokens - clock env (ticks r.2) <= TOKEN_REFRESH_BUFFER_MS ->
   requests (getValidAccessToken env accountId r.2).2
   = requests r.2 ++ [TokenRefresh (SecureStorage.refreshToken tokens)]).
Proof.
  intros Hget Hle Hfail r.
  pose proof (getValidAccessToken_spec accountId tokens w Hget) as (Hf & _ & _ & H).
  fold r in Hf, H. cbv zeta in H.
  rewrite (proj2 (Z.leb_le _ _) Hle), Hfail in H.
  destruct H as (_ & Hnone & Hstore & _).
  split_and!; try done.
  - by rewrite Hstore.
  - by rewrite Hstore.
  - rewrite Hstore. unfold SecureStorage.listAntigravityAccounts.
    apply list_elem_of_fmap. exists (accountId, tokens). split; [done|].
    by apply elem_of_map_to_list.
  - intros Hlater.
    assert (Hget' : store r.2 !! accountId = Some tokens) by (by rewrite Hstore).
    pose proof (getValidAccessToken_spec accountId tokens r.2 Hget')
      as (_ & _ & _ & H').
    cbv zeta in H'. rewrite (proj2 (Z.leb_le _ _) Hlater) in H'. by destruct H'.
Qed.

Lemma getValidAccessToken_absent accountId w :
  store w !! accountId = None -> getValidAccessToken env accountId w = (None, w).
Proof.
  intros Hget. unfold getValidAccessToken, bind, get_store,
    SecureStorage.getAntigravityTokens. cbn [fst snd]. by rewrite Hget.
Qed.

(** A call that returns nothing leaves the store as it found it. *)
Lemma getValidAccessToken_None_store accountId w :
  (getValidAccessToken env accountId w).1 = None ->
  store (getValidAccessToken env accountId w).2 = store w.
Proof.
  intros Hnone. destruct (store w !! accountId) as [tokens|] eqn:Hget.
  - pose proof (getValidAccessToken_spec accountId tokens w Hget) as (_ & _ & _ & H).
    cbv zeta in H. destruct (_ <=? _).
    + destruct H as [_ H]. destruct (accepted _).
      * destruct H as [H _]. congruence.
      * by destruct H as (_ & H & _).
    + destruct H as (_ & H & _). congruence.
  - by rewrite getValidAccessToken_absent.
Qed.

Lemma all_fail_store ids w w' : all_fail env ids w w' -> store w' = store w.
Proof.
  induction 1 as [|accountId rest w w' Hnone _ IH]; [done|].
  rewrite IH. by apply getValidAccessToken_None_store.
Qed.

Lemma getAnyValidAccessToken_loop_cons accountId rest w :
  getAnyValidAccessToken_loop env (accountId :: rest) w
  = match (getValidAccessToken env accountId w).1 with
    | Some (token, projectId) =>
      (Some (accountId, token, projectId), (getValidAccessToken env accountId w).2)
    | None =>
      getAnyValidAccessToken_loop env rest (getValidAccessToken env accountId w).2
    end.
Proof.
  cbn [getAnyValidAccessToken_loop]. unfold bind.
  by destruct (getValidAccessToken env accountId w) as [[[token projectId]|] w1].
Qed.

Lemma getAnyValidAccessToken_loop_spec ids w :
  let r := getAnyValidAccessToken_loop env ids w in
  match r.1 with
  | Some (accountId, token, projectId) =>
    exists before after w1,
      ids = before ++ accountId :: after /\
      all_fail env before w w1 /\
      getValidAccessToken env accountId w1 = (Some (token, projectId), r.2)
  | None => all_fail env ids w r.2
  end.
Proof.
  revert w. induction ids as [|accountId rest IH]; intros w.
  - cbn. apply all_fail_nil.
  - rewrite getAnyValidAccessToken_loop_cons.
    destruct (getValidAccessToken env accountId w) as [[[token projectId]|] w1] eqn:E;
      cbn [fst snd].
    + exists [], rest, w. split_and!; [done|apply all_fail_nil|done].
    + specialize (IH w1). cbv zeta in IH.
      destruct (getAnyValidAccessToken_loop env rest w1) as [[[[a t] p]|] w2];
        cbn [fst snd] in *.
      * destruct IH as (before & after & w' & -> & Hfail & Hok).
        exists (accountId :: before), after, w'. split_and!; [done| |done].
        apply all_fail_cons; rewrite E; done.
      * apply all_fail_cons; rewrite E; done.
Qed.

(** C9.  [getAnyValidAccessToken] tries the accounts in the order the
    store lists them and returns the first for which
    [getValidAccessToken] succeeds, with that account's id; the accounts
    before it have each been tried and failed, which the call does not
    report and which left the store as it was.  It returns nothing only
    when [getValidAccessToken] fails for every account of the store. *)
Theorem getAnyValidAccessToken_first_success w :
  let r := getAnyValidAccessToken env w in
  (forall accountId, is_Some (store w !! accountId) ->
     accountId ∈ SecureStorage.listAntigravityAccounts (store w)) /\
  match r.1 with
  | Some (accountId, token, projectId) =>
    exists before after w1,
      SecureStorage.listAntigravityAccounts (store w) = before ++ accountId :: after /\
      all_fail env before w w1 /\ store w1 = store w /\
      getValidAccessToken env accountId w1 = (Some (token, projectId), r.2)
  | None =>
    all_fail env (SecureStorage.listAntigravityAccounts (store w)) w r.2 /\
    store r.2 = store w
  end.
Proof.
  intros r. split.
  - intros accountId [tokens Hget]. unfold SecureStorage.listAntigravityAccounts.
    apply list_elem_of_fmap. exists (accountId, tokens). split; [done|].
    by apply elem_of_map_to_list.
  - subst r. unfold getAnyValidAccessToken, bind, get_store. cbn [fst snd].
    pose proof (getAnyValidAccessToken_loop_spec
                  (SecureStorage.listAntigravityAccounts (store w)) w) as H.
    cbv zeta in H.
    destruct (getAnyValidAccessToken_loop env _ w) as [[[[a t] p]|] w2];
      cbn [fst snd] in *.
    + destruct H as (before & after & w1 & Hl & Hfail & Hok).
      exists before, after, w1. split_and!; try done.
      by eapply all_fail_store.
    + split; [done|]. by eapply all_fail_store.
Qed.

(** ** The exchange and the login *)

Lemma preserves_ret {A} (a : A) : preserves_storage (ret a).
Proof. by intros w. Qed.

Lemma preserves_bind {A B} (m : M A) (k : A -> M B) :
  preserves_storage m -> (forall a, preserves_storage (k a)) ->
  preserves_storage (bind m k).
Proof.
  intros Hm Hk w. unfold bind.
  destruct (Hm w) as (H1 & H2 & H3 & H4).
  destruct (Hk (m w).1 (m w).2) as (K1 & K2 & K3 & K4).
  split_and!; congruence.
Qed.

Lemma preserves_Date_now : preserves_storage (Date_now env).
Proof. by intros w. Qed.

Lemma preserves_fetchWithTimeout {A} endpoint request :
  preserves_storage (@fetchWithTimeout A endpoint request).
Proof. by intros w. Qed.

Ltac preserves :=
  repeat first
    [ apply preserves_ret
    | apply preserves_Date_now
    | apply preserves_fetchWithTimeout
    | apply preserves_bind; [|intros ?]
    | match goal with
      | |- preserves_storage (match ?x with _ => _ end) => destruct x
      end ].

Lemma preserves_fetchProjectId_loop accessToken endpoints :
  preserves_storage (fetchProjectId_loop env accessToken endpoints).
Proof.
  induction endpoints as [|baseEndpoint rest IH]; cbn [fetchProjectId_loop];
    preserves; exact IH.
Qed.

(** [exchangeCodeForTokens] touches neither the store nor the file. *)
Lemma preserves_exchangeCodeForTokens code st :
  preserves_storage (exchangeCodeForTokens env code st).
Proof.
  unfold exchangeCodeForTokens, fetchProjectId. preserves;
    apply preserves_fetchProjectId_loop.
Qed.


(** What [await] gets from a flow that expects [st] carries [st]. *)
Lemma await_callback_state id st events s callback :
  Server.expects id st s ->
  (await_callback id events s).1 = Some (Returns callback) ->
  Server.state callback = st.
Proof.
  revert s. induction events as [|e rest IH]; intros s He H;
    cbn [await_callback] in H; unfold Server.settlement in H.
  - destruct (Server.promises s !! id) as [[|params|message]|] eqn:E;
      cbn [fst] in H.
    2: { injection H as <-. by apply (Server.expects_resolved id st s). }
    2: discriminate.
    all: pose proof (ServerFacts.expects_step id st s (Server.Timeout id) He) as He'.
    all: cbn [Server.step] in He'.
    all: destruct (Server.promises (Server.timeout_fires id s) !! id)
      as [[|params|message]|] eqn:E'; cbn [fst] in H; try discriminate.
    all: injection H as <-.
    all: by apply (Server.expects_resolved id st _ He').
  - destruct (Server.promises s !! id) as [[|params|message]|] eqn:E;
      cbn [fst] in H.
    2: { injection H as <-. by apply (Server.expects_resolved id st s). }
    2: discriminate.
    all: apply (IH (Server.step s e)); [by apply ServerFacts.expects_step|done].
Qed.

Lemma url_safe_wf_string s : Forall url_safe s -> wf_string s.
Proof.
  intros H. eapply Forall_impl; [exact H|].
  intros c Hc. unfold url_safe in Hc. unfold code_unit. lia.
Qed.

(** The state of the authorization URL decodes to the verifier of the
    URL and an empty project id. *)
Lemma decodeState_auth_state random :
  Forall is_byte random ->
  decodeState (auth_state (buildAuthorizationUrl random []))
  = Returns {| state_verifier := auth_verifier (buildAuthorizationUrl random []);
               Codec.projectId := [] |}.
Proof.
  intros Hrandom. unfold buildAuthorizationUrl. cbn [auth_state auth_verifier].
  apply CodecFacts.decodeState_encodeState; cbn [state_verifier Codec.projectId].
  - apply url_safe_wf_string. by apply CodecFacts.verifier_url_safe.
  - constructor.
Qed.


End WithEnv.

(** The login of the scenario stores one record and writes the snapshot
    of the store. *)
Lemma logged_in_store :
  store logged_in = {[ sample_account := sample_tokens ]} /\
  snapshot_file logged_in
  = Some {| version := 3; accounts := snapshot_accounts (store logged_in);
            activeIndex := 0 |}.
Proof. by_evaluation. Qed.

Lemma getValidAccessToken_refreshes_within_buffer_witness :
  requests used_once = requests logged_in /\
  (getValidAccessToken provider sample_account logged_in).1
  = Some (str "access-0", str "project-1").
Proof.
  destruct (getValidAccessToken_refreshes_within_buffer provider
              sample_account sample_tokens logged_in) as (_ & _ & Hfresh);
    [by vm_compute|].
  destruct Hfresh as (Hq & Hr & _); [by vm_compute|].
  split; [exact Hq | exact Hr].
Defined.

(** The answer to the refresh grant names a refresh token, [rotated]; the
    refresh succeeds, and the record keeps [refresh-1]. *)
Lemma refresh_token_of_answer_not_stored :
  SecureStorage.getAntigravityTokens sample_account (store used_once)
  = Some (used_at 1700000004000 sample_tokens) /\
  refresh_token <$>
    accepted (token_endpoint provider (length (requests used_once))
                (TokenRefresh (str "refresh-1")))
  = Some (Some (str "rotated")) /\
  (getValidAccessToken provider sample_account used_once).1
  = Some (str "access-3", str "project-1") /\
  SecureStorage.refreshToken <$>
    SecureStorage.getAntigravityTokens sample_account (store used_twice)
  = Some (str "refresh-1") /\
  str "refresh-1" <> str "rotated".
Proof. by_evaluation. Qed.

Lemma getValidAccessToken_keeps_refresh_token_witness :
  exists tokens',
    SecureStorage.getAntigravityTokens sample_account (store used_twice)
    = Some tokens' /\
    SecureStorage.refreshToken tokens' = str "refresh-1".
Proof.
  apply (getValidAccessToken_keeps_refresh_token provider sample_account
           (used_at 1700000004000 sample_tokens) used_once).
  by vm_compute.
Defined.

(** C5, at the input where the code departs from it.  The first use of
    the token after the login changes the record of the account
    ([lastUsedAt]) and leaves the snapshot file as the login wrote it: no
    file operation takes place, and the file no longer is the snapshot of
    the store. *)
Lemma snapshot_stale_after_getValidAccessToken :
  SecureStorage.getAntigravityTokens sample_account (store logged_in)
  = Some sample_tokens /\
  SecureStorage.getAntigravityTokens sample_account (store used_once)
  = Some (used_at 1700000004000 sample_tokens) /\
  file_operations used_once = file_operations logged_in /\
  snapshot_file used_once = snapshot_file logged_in /\
  snapshot_file used_once
  <> Some {| version := 3; accounts := snapshot_accounts (store used_once);
             activeIndex := 0 |} /\
  lastUsed <$> snapshot_accounts (store used_once) = [1700000004000] /\
  (fun file => lastUsed <$> accounts file) <$> snapshot_file used_once
  = Some [1700000002000].
Proof. by_evaluation. Qed.

(** The world of the scenario when nothing reaches the provider, read
    close to the expiry of the token. *)
Lemma getValidAccessToken_failed_refresh_frame_witness :
  (getValidAccessToken provider_unreachable sample_account used_once).1 = None /\
  SecureStorage.getAntigravityTokens sample_account
    (store (getValidAccessToken provider_unreachable sample_account used_once).2)
  = Some (used_at 1700000004000 sample_tokens).
Proof.
  destruct (getValidAccessToken_failed_refresh_frame provider_unreachable
              sample_account (used_at 1700000004000 sample_tokens) used_once)
    as (Hnone & _ & _ & Hget & _); [by vm_compute..|].
  split; [exact Hnone | exact Hget].
Defined.



(** ** The snapshot file *)

Lemma list_omap_length {A B} (f : A -> option B) (l : list A) :
  (length (omap f l) <= length l)%nat.
Proof.
  induction l as [|x l IH]; [done|]. cbn [omap list_omap].
  destruct (f x); cbn [length]; lia.
Qed.

Lemma listed_iff (store : gmap jsstring SecureStorage.AntigravityStoredTokens) k :
  k ∈ SecureStorage.listAntigravityAccounts store <-> is_Some (store !! k).
Proof.
  unfold SecureStorage.listAntigravityAccounts. rewrite list_elem_of_fmap. split.
  - intros ([k' tokens] & -> & H). apply elem_of_map_to_list in H. by eexists.
  - intros [tokens H]. exists (k, tokens). split; [done|].
    by apply elem_of_map_to_list.
Qed.

Lemma listed_length (store : gmap jsstring SecureStorage.AntigravityStoredTokens) :
  length (SecureStorage.listAntigravityAccounts store) = size store.
Proof.
  unfold SecureStorage.listAntigravityAccounts.
  by rewrite length_fmap, length_map_to_list.
Qed.

(** X25.  The snapshot has an entry for every record that has a refresh token
    and for no other: a record without one is left out. *)
Theorem snapshot_accounts_entries
    (store : gmap jsstring SecureStorage.AntigravityStoredTokens) a :
  (a ∈ snapshot_accounts store <->
   exists accountId tokens,
     store !! accountId = Some tokens /\
     SecureStorage.refreshToken tokens <> [] /\
     snapshot_entry tokens = Some a) /\
  (a ∈ snapshot_accounts store -> snap_refreshToken a <> []) /\
  (length (snapshot_accounts store) <= size store)%nat.
Proof.
  split_and!.
  - unfold snapshot_accounts. rewrite list_elem_of_omap. split.
    + intros (k & Hk & Ha). apply listed_iff in Hk as [tokens Hk].
      unfold SecureStorage.getAntigravityTokens in Ha. rewrite Hk in Ha.
      exists k, tokens. split_and!; [done| |done].
      unfold snapshot_entry in Ha. by destruct (SecureStorage.refreshToken tokens).
    + intros (k & tokens & Hk & _ & Ha). exists k. split.
      * apply listed_iff. by eexists.
      * unfold SecureStorage.getAntigravityTokens. by rewrite Hk.
  - unfold snapshot_accounts. rewrite list_elem_of_omap.
    intros (k & _ & Ha). destruct (SecureStorage.getAntigravityTokens k store)
      as [tokens|]; [|done].
    unfold snapshot_entry in Ha.
    destruct (SecureStorage.refreshToken tokens) eqn:E; [done|].
    cbn [truthy] in Ha. injection Ha as <-. by cbn.
  - unfold snapshot_accounts. rewrite <- listed_length. apply list_omap_length.
Qed.

Section Storage.
Variable env : Env.

Lemma syncToOpenCodePlugin_spec w :
  let r := syncToOpenCodePlugin env w in
  let written :=
    file_system env (file_operations w) &&
    match snapshot_accounts (store w) with
    | [] => true
    | _ :: _ => file_system env (S (file_operations w))
    end in
  store r.2 = store w /\ listener r.2 = listener w /\ requests r.2 = requests w /\
  ticks r.2 = ticks w /\
  (file_operations w < file_operations r.2)%nat /\
  snapshot_file r.2 = (if written then snapshot_of (store w) else snapshot_file w) /\
  (snapshot_accounts (store w) = [] -> file_operations r.2 = S (file_operations w)).
Proof.
  unfold syncToOpenCodePlugin, bind, get_store, file_operation, set_snapshot_file,
    ret, snapshot_of.
  cbn [fst snd store file_operations].
  destruct (snapshot_accounts (store w));
    destruct (file_system env (file_operations w)); cbn;
    try destruct (file_system env (S (file_operations w))); cbn;
    split_and!; try done; lia.
Qed.


(** ** Logging out *)

(** X26.  [logout] removes the record of the account and nothing else from the
    store, and tells whether there was one.  For an account that is not
    stored it changes nothing and touches no file; otherwise it rewrites
    the snapshot, which with a file system that works is the snapshot of
    the store that remains. *)
Theorem logout_removes accountId w :
  let r := logout env accountId w in
  r.1 = bool_decide (is_Some (store w !! accountId)) /\
  store r.2 = delete accountId (store w) /\
  listener r.2 = listener w /\ requests r.2 = requests w /\
  (store w !! accountId = None -> r.2 = w) /\
  (is_Some (store w !! accountId) ->
   (file_operations w < file_operations r.2)%nat /\
   ((forall n, file_system env n = true) ->
    snapshot_file r.2 = snapshot_of (delete accountId (store w)))).
Proof.
  intros r. assert (Hr : r = logout env accountId w) by reflexivity. clearbody r.
  unfold logout, bind, get_store, set_store, ret,
    SecureStorage.deleteAntigravityTokens in Hr.
  cbn [fst snd store snapshot_file listener requests ticks file_operations] in Hr.
  destruct (store w !! accountId) as [tokens|] eqn:Hget.
  - rewrite bool_decide_eq_true_2 in Hr by (by eexists).
    match type of Hr with
    | context [syncToOpenCodePlugin env ?w1] =>
      destruct (syncToOpenCodePlugin_spec w1) as (Hs & Hl & Hq & _ & Ho & Hf & _)
    end.
    cbn [store listener requests file_operations snapshot_file] in *.
    subst r. cbn [fst snd].
    rewrite bool_decide_eq_true_2 by (by eexists).
    split_and!; try done.
    intros _. split; [done|]. intros Hfs. rewrite Hf, !Hfs.
    by destruct (snapshot_accounts _).
  - rewrite bool_decide_eq_false_2 in Hr by (by intros [? ?]).
    subst r. cbn [fst snd store listener requests].
    rewrite bool_decide_eq_false_2 by (by intros [? ?]).
    split_and!; try done; try (by intros [? ?]).
    intros _. rewrite delete_id by done. by destruct w.
Qed.

Lemma logoutAll_loop_spec accounts :
  forall count w,
    NoDup accounts ->
    (forall k, k ∈ accounts -> is_Some (store w !! k)) ->
    let r := logoutAll_loop accounts count w in
    r.1 = count + Z.of_nat (length accounts) /\
    (forall k, store r.2 !! k
               = if bool_decide (k ∈ accounts) then None else store w !! k) /\
    snapshot_file r.2 = snapshot_file w /\ listener r.2 = listener w /\
    requests r.2 = requests w /\ ticks r.2 = ticks w /\
    file_operations r.2 = file_operations w.
Proof.
  induction accounts as [|accountId rest IH]; intros count w Hnodup Hall r.
  - subst r. cbn. split_and!; try done; lia.
  - apply NoDup_cons in Hnodup as [Hfresh Hnodup].
    assert (Hr : r = logoutAll_loop (accountId :: rest) count w) by reflexivity.
    clearbody r. cbn [logoutAll_loop] in Hr.
    unfold bind at 1 2, get_store, set_store, SecureStorage.deleteAntigravityTokens in Hr.
    cbn [fst snd store snapshot_file listener requests ticks file_operations] in Hr.
    rewrite bool_decide_eq_true_2 in Hr by (apply Hall, elem_of_cons; by left).
    match type of Hr with
    | _ = logoutAll_loop rest ?c ?w1 =>
      destruct (IH c w1 Hnodup) as (Hc & Hs & Hf & Hl & Hq & Ht & Ho)
    end.
    { intros k Hk. cbn [store]. rewrite lookup_delete_ne by (by intros ->).
      apply Hall, elem_of_cons. by right. }
    cbn [store snapshot_file listener requests ticks file_operations] in *.
    rewrite <- Hr in *. split_and!; try done.
    + rewrite Hc. cbn [length]. lia.
    + intros k. rewrite Hs.
      destruct (decide (k = accountId)) as [->|Hne].
      * rewrite (bool_decide_eq_true_2 (accountId ∈ accountId :: rest))
          by (apply elem_of_cons; by left).
        rewrite lookup_delete_eq. by destruct (bool_decide _).
      * rewrite lookup_delete_ne by done.
        destruct (decide (k ∈ rest)) as [Hin|Hin].
        -- rewrite (bool_decide_eq_true_2 _ Hin), bool_decide_eq_true_2; [done|].
           apply elem_of_cons. by right.
        -- rewrite (bool_decide_eq_false_2 _ Hin), bool_decide_eq_false_2; [done|].
           intros Hc'. by apply elem_of_cons in Hc' as [?|?].
Qed.

(** X27.  [logoutAll] empties the store and returns the number of accounts it
    held.  When there was none it changes nothing and touches no file;
    otherwise it rewrites the snapshot once, after the last record is
    gone, and a file system that works removes the file. *)
Theorem logoutAll_empties w :
  let r := logoutAll env w in
  r.1 = Z.of_nat (size (store w)) /\
  store r.2 = ∅ /\
  listener r.2 = listener w /\ requests r.2 = requests w /\
  (store w = ∅ -> r.2 = w) /\
  (store w <> ∅ ->
   (file_operations r.2 = S (file_operations w)) /\
   (file_system env (file_operations w) = true -> snapshot_file r.2 = None)).
Proof.
  intros r. assert (Hr : r = logoutAll env w) by reflexivity. clearbody r.
  unfold logoutAll, bind at 1 2, get_store in Hr. cbn [fst snd] in Hr.
  destruct (logoutAll_loop_spec (SecureStorage.listAntigravityAccounts (store w)) 0 w)
    as (Hc & Hs & Hf & Hl & Hq & Ht & Ho).
  { apply NoDup_fst_map_to_list. }
  { intros k. apply listed_iff. }
  rewrite listed_length in Hc.
  set (r1 := logoutAll_loop _ 0 w) in *.
  assert (Hempty : store r1.2 = ∅).
  { apply map_empty. intros k. rewrite Hs.
    destruct (store w !! k) eqn:Hk; [|by destruct (bool_decide _)].
    rewrite bool_decide_eq_true_2; [done|]. apply listed_iff. by eexists. }
  rewrite Hc in Hr. replace (0 + Z.of_nat (size (store w))) with
    (Z.of_nat (size (store w))) in * by lia.
  destruct (decide (store w = ∅)) as [Hw|Hw].
  - assert (Hsize : size (store w) = 0%nat) by (by apply map_size_empty_iff).
    rewrite Hsize in Hr. cbn in Hr. subst r. cbn [fst snd].
    rewrite Hsize. split_and!; try done.
    intros _. subst r1. unfold SecureStorage.listAntigravityAccounts.
    rewrite Hw, map_to_list_empty. reflexivity.
  - assert (Hsize : size (store w) <> 0%nat) by (by rewrite map_size_empty_iff).
    rewrite (proj2 (Z.ltb_lt 0 (Z.of_nat (size (store w))))) in Hr by lia.
    destruct (syncToOpenCodePlugin_spec r1.2)
      as (Hs' & Hl' & Hq' & _ & _ & Hf' & Hops).
    unfold bind, ret in Hr. subst r. cbn [fst snd].
    split_and!; try congruence.
    intros _. split.
    + rewrite Hops, Ho; [done|]. by rewrite Hempty.
    + intros Hfs. rewrite Hf', Hempty, Ho, Hfs. reflexivity.
Qed.

(** ** What is stored *)

(** X28.  [getAccounts] reports every account of the store once, in the order
    the store lists them, with the record's project id and timestamps and
    [Unknown] for an email that is absent or empty; it changes nothing.
    [isAuthenticated] holds exactly when the store has a record, with or
    without a refresh token, which is when [getAccounts] reports an
    account. *)
Theorem getAccounts_lists_store w :
  let r := getAccounts w in
  r.2 = w /\
  id <$> r.1 = SecureStorage.listAntigravityAccounts (store w) /\
  NoDup (id <$> r.1) /\
  length r.1 = size (store w) /\
  (forall a, a ∈ r.1 <->
     exists tokens, store w !! id a = Some tokens /\ a = account_of (id a) tokens) /\
  isAuthenticated w = (negb (bool_decide (r.1 = [])), w) /\
  ((isAuthenticated w).1 = true <-> store w <> ∅).
Proof.
  intros r. subst r. unfold getAccounts, isAuthenticated, bind, get_store, ret.
  cbn [fst snd].
  set (f := fun accountId =>
    match SecureStorage.getAntigravityTokens accountId (store w) with
    | Some tokens => Some (account_of accountId tokens)
    | None => None
    end).
  assert (Hids : forall l : list jsstring,
    (forall k, k ∈ l -> is_Some (store w !! k)) -> id <$> omap f l = l).
  { induction l as [|k l IH]; intros Hl; [done|].
    destruct (Hl k) as [tokens Hk]; [apply elem_of_cons; by left|].
    cbn [omap list_omap]. unfold f at 1, SecureStorage.getAntigravityTokens.
    rewrite Hk. cbn. f_equal. apply IH. intros k' Hk'. apply Hl, elem_of_cons. by right. }
  assert (Hall : id <$> omap f (SecureStorage.listAntigravityAccounts (store w))
                 = SecureStorage.listAntigravityAccounts (store w)).
  { apply Hids. intros k. apply listed_iff. }
  assert (Hlen : length (omap f (SecureStorage.listAntigravityAccounts (store w)))
                 = size (store w)).
  { rewrite <- listed_length. rewrite <- Hall at 2. by rewrite length_fmap. }
  split_and!.
  - done.
  - done.
  - rewrite Hall. apply NoDup_fst_map_to_list.
  - done.
  - intros a. rewrite list_elem_of_omap. split.
    + intros (k & Hk & Ha). apply listed_iff in Hk as [tokens Hk].
      unfold f, SecureStorage.getAntigravityTokens in Ha. rewrite Hk in Ha.
      injection Ha as <-. by exists tokens.
    + intros (tokens & Hk & Ha). exists (id a). split.
      * apply listed_iff. by eexists.
      * unfold f, SecureStorage.getAntigravityTokens. rewrite Hk. by rewrite Ha at 2.
  - f_equal. rewrite listed_length.
    destruct (omap f _) as [|a l] eqn:E; cbn [length] in Hlen.
    + by rewrite <- Hlen.
    + rewrite <- Hlen. by rewrite bool_decide_eq_false_2.
  - rewrite listed_length, Z.ltb_lt, <- map_size_empty_iff. lia.
Qed.


(** X30.  The token [getAnyValidAccessToken] returns is the access token the
    store holds for the account it names when the call returns, with the
    project id of that record, and the record says it was used at the
    last reading of the clock. *)
Theorem getAnyValidAccessToken_returns_stored accountId token projectId w :
  let r := getAnyValidAccessToken env w in
  r.1 = Some (accountId, token, projectId) ->
  exists tokens,
    store r.2 !! accountId = Some tokens /\
    SecureStorage.accessToken tokens = token /\
    SecureStorage.projectId tokens = projectId /\
    SecureStorage.lastUsedAt tokens = Some (clock env (pred (ticks r.2))).
Proof.
  intros r Hr. subst r.
  unfold getAnyValidAccessToken, bind, get_store in *. cbn [fst snd] in *.
  pose proof (getAnyValidAccessToken_loop_spec env
                (SecureStorage.listAntigravityAccounts (store w)) w) as H.
  cbv zeta in H. rewrite Hr in H.
  destruct H as (before & after & w1 & _ & _ & Hok).
  destruct (store w1 !! accountId) as [tokens|] eqn:Hget.
  2: { rewrite getValidAccessToken_absent in Hok by done. discriminate. }
  pose proof (getValidAccessToken_spec env accountId tokens w1 Hget) as (_ & _ & _ & H).
  cbv zeta in H. rewrite Hok in H. cbn [fst snd] in H.
  destruct (_ <=? _).
  - destruct H as [_ H]. destruct (accepted _) as [payload|]; [|by destruct H].
    destruct H as (Hres & Ht & Hst). injection Hres as Htoken Hproject.
    rewrite Hst, lookup_insert_eq, Ht. eexists.
    split_and!; [reflexivity|symmetry; exact Htoken|symmetry; exact Hproject|reflexivity].
  - destruct H as (_ & Hres & Ht & Hst). injection Hres as Htoken Hproject.
    rewrite Hst, lookup_insert_eq, Ht. eexists.
    split_and!; [reflexivity|symmetry; exact Htoken|symmetry; exact Hproject|reflexivity].
Qed.

End Storage.

(** ** Logging in *)

(** [await] on a promise that is rejected throws at once. *)
Lemma await_callback_rejected id events s message :
  Server.settlement s id = Some (Server.Rejected message) ->
  await_callback id events s = (Some (Throws (Error message)), s).
Proof. intros H. destruct events; cbn [await_callback]; by rewrite H. Qed.

(** The promise of a flow is settled in the end: by what happens to the
    listener or, when nothing else does it, by the timer of the flow. *)
Lemma await_callback_settles id events s :
  Server.single_flight s -> Server.armed s ->
  is_Some (Server.settlement s id) ->
  is_Some (await_callback id events s).1 /\
  (events = [] -> Server.settlement s id = Some Server.Unsettled ->
   (await_callback id events s).1
   = Some (Throws (Error (str "OAuth callback timeout"))) /\
   Server.pendingOAuth (await_callback id events s).2 = None).
Proof.
  revert s. induction events as [|e rest IH]; intros s Hs Ha [o Ho];
    cbn [await_callback]; rewrite Ho.
  - destruct o as [|params|message]; cbn [fst snd]; try (split; [by eexists|done]).
    destruct (Server.unsettled_pending s Hs id Ho) as (p & Hp & <-).
    destruct (ServerFacts.timeout_fires_pending s p Hs Ha Hp) as [Hrej Hnone].
    rewrite Hrej. cbn [fst snd]. split; [by eexists|done].
  - destruct o as [|params|message]; cbn [fst snd]; try (split; [by eexists|done]).
    split; [|done]. apply IH.
    + by apply ServerFacts.single_flight_step.
    + by apply ServerFacts.armed_step.
    + apply ServerFacts.exists_step. by eexists.
Qed.

Section Login.
Variable env : Env.

(** X20.  A login that does not succeed leaves the credential store and the
    snapshot file as they were and touches no file, whatever made it
    fail: the port, the browser, the callback, the provider or the
    network. *)
Theorem login_failure_frame i w :
  let r := login env i w in
  (exists a,
     r.1 = Some {| login_success := true; account := Some a; login_error := None |})
  \/
  (store r.2 = store w /\ snapshot_file r.2 = snapshot_file w /\
   file_operations r.2 = file_operations w).
Proof.
  intros r. assert (Hr : r = login env i w) by reflexivity. clearbody r.
  unfold login in Hr.
  destruct (negb (Server.startOAuthServer (bound i) (listener w)).1);
    [subst r; by right|].
  destruct (opened i) as [[]|e]; [|subst r; by right].
  cbn [set_listener fst snd listener] in Hr.
  destruct (await_callback _ (events i) _).1 as [[callback|e]|];
    [|subst r; by right..].
  unfold bind at 1 in Hr.
  match type of Hr with
  | context [exchangeCodeForTokens env ?c ?s ?w2] =>
    destruct (preserves_exchangeCodeForTokens env c s w2) as (Hs & Hf & Ho & _);
    destruct (exchangeCodeForTokens env c s w2) as [[result|error] w3]
  end.
  - left. subst r. unfold bind, ret. cbn [fst snd]. by eexists.
  - right. subst r. unfold ret. cbn [fst snd store snapshot_file file_operations] in *.
    by split_and!.
Qed.

(** The listener as [login] leaves it for [await]: started, with the
    flow of the login registered and its promise unsettled. *)
Lemma login_waiting es st b :
  let started := Server.startOAuthServer b (Server.run es Server.initial) in
  let waiting :=
    Server.waitForOAuthCallback st Server.DEFAULT_TIMEOUT_MS started.2 in
  Server.single_flight started.2 /\
  Server.single_flight waiting.2 /\ Server.armed waiting.2 /\
  Server.settlement waiting.2 waiting.1 = Some Server.Unsettled /\
  Server.pendingOAuth waiting.2
  = Some {| Server.flow := waiting.1; Server.expected := st |}.
Proof.
  intros started waiting.
  assert (Hs : Server.single_flight started.2).
  { apply ServerFacts.single_flight_start, ServerFacts.reachable_single_flight. }
  assert (Ha : Server.armed started.2).
  { apply (ServerFacts.armed_step _ (Server.Start b)), ServerFacts.reachable_armed. }
  destruct (ServerFacts.waitForOAuthCallback_spec st Server.DEFAULT_TIMEOUT_MS
              started.2 Hs) as (_ & Hp & Hu & _).
  split_and!; try done.
  - by apply ServerFacts.single_flight_wait.
  - by apply (ServerFacts.armed_step _ (Server.Wait st Server.DEFAULT_TIMEOUT_MS)).
Qed.

(** X21.  [login] returns, whatever happens to the listener while it waits:
    the promise it awaits is settled by a callback, by
    [stopOAuthServer], by a later login or by the timer of the flow.
    When the port cannot be bound it fails before a flow is registered;
    when nothing happens at all it fails with the timeout error, without
    a request to the provider. *)
Theorem login_returns es i w :
  listener w = Server.run es Server.initial ->
  let r := login env i w in
  let started := Server.startOAuthServer (bound i) (listener w) in
  is_Some r.1 /\
  (started.1 = false ->
   r.1 = Some (login_failure
                 (str "Failed to start OAuth callback server. Port may be in use.")) /\
   Server.promises (listener r.2) = Server.promises (listener w) /\
   Server.isOAuthServerRunning (listener r.2) = false) /\
  (started.1 = true -> opened i = Returns tt -> events i = [] ->
   r.1 = Some (login_failure (str "OAuth callback timeout")) /\
   requests r.2 = requests w /\
   Server.pendingOAuth (listener r.2) = None).
Proof.
  intros Hl r started.
  assert (Hr : r = login env i w) by reflexivity. clearbody r.
  unfold login in Hr. fold started in Hr.
  cbn [set_listener fst snd listener] in Hr.
  destruct (login_waiting es (auth_state (buildAuthorizationUrl (random i) []))
              (bound i)) as (_ & Hs & Ha & Hu & _).
  rewrite <- Hl in Hs, Ha, Hu. fold started in Hs, Ha, Hu.
  set (waiting := Server.waitForOAuthCallback _ _ started.2) in *.
  destruct (await_callback_settles waiting.1 (events i) waiting.2 Hs Ha)
    as [Hsome Htimeout]; [by eexists|].
  split_and!.
  - destruct (negb started.1); [subst r; by eexists|].
    destruct (opened i) as [[]|e]; [|subst r; by eexists].
    destruct Hsome as [o Ho]. rewrite Ho in Hr.
    destruct o as [callback|e]; [|subst r; by eexists].
    unfold bind at 1 in Hr.
    match type of Hr with
    | context [exchangeCodeForTokens env ?c ?s ?w2] =>
      destruct (exchangeCodeForTokens env c s w2) as [[result|error] w3]
    end; subst r; unfold bind, ret; cbn [fst snd]; by eexists.
  - intros Hstarted. rewrite Hstarted in Hr. cbn [negb] in Hr. subst r. cbn [fst snd].
    split_and!; [done| |].
    + cbn [listener]. subst started. unfold Server.startOAuthServer in *.
      by destruct (Server.server (listener w)).
    + cbn [listener]. subst started.
      unfold Server.startOAuthServer, Server.isOAuthServerRunning in *.
      destruct (Server.server (listener w)); [done|]. by cbn in *.
  - intros Hstarted Hopened Hevents.
    rewrite Hstarted, Hopened in Hr. cbn [negb] in Hr.
    destruct (Htimeout Hevents Hu) as [Hthrown Hnone].
    rewrite Hthrown in Hr. subst r. cbn [fst snd requests listener]. by split_and!.
Qed.

(** X22.  A login that has started the listener, opened the browser and
    registered its flow is waiting for the callback.  When the next thing
    to reach the listener then is a callback with an error of the
    provider, say because the user refused consent, [login] fails with
    that error, whatever else the callback carries and whatever reaches
    the listener after it; no request is sent to the provider, nothing
    is stored and no flow is pending when [login] returns.  The same
    callback reaching the listener before the flow is registered, when
    no other flow is pending, is answered with the failure page and
    changes nothing: it is not among the events of the login. *)
Theorem login_provider_error es i w c st error rest :
  listener w = Server.run es Server.initial ->
  (Server.startOAuthServer (bound i) (listener w)).1 = true ->
  opened i = Returns tt ->
  events i = Server.Request (Server.callback c st (Some error)) :: rest ->
  error <> [] ->
  let r := login env i w in
  let started := (Server.startOAuthServer (bound i) (listener w)).2 in
  r.1 = Some (login_failure (str "OAuth error: " ++ error)) /\
  requests r.2 = requests w /\
  store r.2 = store w /\
  Server.pendingOAuth (listener r.2) = None /\
  (Server.pendingOAuth (listener w) = None ->
   Server.handleRequest (Server.callback c st (Some error)) started
   = (Some (Server.failure_page error), started)).
Proof.
  intros Hl Hstarted Hopened Hevents Herror r started.
  assert (Hearly : Server.pendingOAuth (listener w) = None ->
    Server.handleRequest (Server.callback c st (Some error)) started
    = (Some (Server.failure_page error), started)).
  { intros Hnone.
    assert (Hp : Server.pendingOAuth started = None).
    { subst started. unfold Server.startOAuthServer.
      by destruct (Server.server (listener w)). }
    assert (Hpath : jsstring_eqb (str "/oauth-callback") (str "/oauth-callback") = true)
      by (by apply bool_decide_eq_true_2).
    unfold Server.handleRequest, Server.callback.
    cbn [Server.pathname Server.param_error Server.param_code Server.param_state].
    rewrite Hpath, Hp. by destruct error. }
  clearbody started.
  assert (Hr : r = login env i w) by reflexivity. clearbody r.
  unfold login in Hr. rewrite Hstarted, Hopened, Hevents in Hr.
  cbn [negb set_listener fst snd listener] in Hr.
  destruct (login_waiting es (auth_state (buildAuthorizationUrl (random i) []))
              (bound i)) as (_ & Hs & _ & Hu & Hp).
  rewrite <- Hl in Hs, Hu, Hp.
  cbn [await_callback] in Hr. rewrite Hu in Hr. cbn [Server.step] in Hr.
  pose proof (ServerFacts.error_rejects _ _
    {| Server.pathname := str "/oauth-callback"; Server.param_code := c;
       Server.param_state := st; Server.param_error := Some error |}
    error Hs Hp eq_refl eq_refl Herror) as Hrej.
  cbn [Server.flow] in Hrej. fold (Server.callback c st (Some error)) in Hrej.
  rewrite (await_callback_rejected _ rest _ _ Hrej) in Hr.
  subst r. cbn [fst snd requests store listener message_of].
  split_and!; try done.
  destruct (ServerFacts.handleRequest_cases (Server.callback c st (Some error))
    (Server.waitForOAuthCallback (auth_state (buildAuthorizationUrl (random i) []))
       Server.DEFAULT_TIMEOUT_MS
       (Server.startOAuthServer (bound i) (listener w)).2).2)
    as [Hsame|(p & o & _ & _ & _ & ->)]; [|done].
  rewrite Hsame in Hrej. unfold Server.settlement in *. congruence.
Qed.

(** X19.  A login succeeds when the browser comes back with a callback for
    the flow, the token endpoint grants tokens with a refresh token and
    the user-info request is answered.  It stores one record, under an
    id made of the clock reading and the random suffix, and changes no
    other record; the record has the tokens of the grant, the expiry
    counted from the clock reading before the exchange, one instant as
    creation and last use, and a project id that is never empty: the one
    a [loadCodeAssist] answer names, else the default.  The account
    returned is the one [getAccounts] reports for the record, and with a
    file system that works the snapshot file is the snapshot of the new
    store. *)
Theorem login_stores_account i w callback payload rt :
  Server.single_flight (listener w) ->
  Forall is_byte (random i) ->
  (Server.startOAuthServer (bound i) (listener w)).1 = true ->
  opened i = Returns tt ->
  let auth := buildAuthorizationUrl (random i) [] in
  let waiting :=
    Server.waitForOAuthCallback (auth_state auth) Server.DEFAULT_TIMEOUT_MS
      (Server.startOAuthServer (bound i) (listener w)).2 in
  (await_callback waiting.1 (events i) waiting.2).1 = Some (Returns callback) ->
  accepted (token_endpoint env (length (requests w))
              (TokenExchange (Server.code callback) (auth_verifier auth)))
  = Some payload ->
  refresh_token payload = Some rt -> rt <> [] ->
  user_info_obtained
    (userinfo_endpoint env (S (length (requests w)))
       (UserInfo (access_token payload))) = true ->
  let r := login env i w in
  exists accountId tokens,
    r.1 = Some {| login_success := true;
                  account := Some (account_of accountId tokens);
                  login_error := None |} /\
    store r.2 = <[accountId := tokens]> (store w) /\
    accountId
    = str "account_" ++ decimal (clock env (S (ticks w))) ++ str "_" ++ math_random i /\
    SecureStorage.accessToken tokens = access_token payload /\
    SecureStorage.refreshToken tokens = rt /\
    SecureStorage.expiresAt tokens = clock env (ticks w) + expires_in payload * 1000 /\
    SecureStorage.createdAt tokens = clock env (S (S (ticks w))) /\
    SecureStorage.lastUsedAt tokens = Some (clock env (S (S (ticks w)))) /\
    SecureStorage.projectId tokens <> [] /\
    (SecureStorage.projectId tokens = ANTIGRAVITY_DEFAULT_PROJECT_ID \/
     exists n e,
       project_of (load_endpoint env n (LoadCodeAssist e (access_token payload)))
       = Some (SecureStorage.projectId tokens)) /\
    ((forall n, file_system env n = true) ->
     snapshot_file r.2 = snapshot_of (<[accountId := tokens]> (store w))).
Proof.
  intros Hlistener Hrandom Hstarted Hopened auth waiting Hawait Hacc Hrt Hne Hinfo r.
  assert (Hstate : Server.state callback = auth_state auth).
  { eapply await_callback_state; [|exact Hawait].
    apply ServerFacts.expects_waitForOAuthCallback.
    by apply ServerFacts.single_flight_start. }
  assert (Hdec : decodeState (Server.state callback)
    = Returns {| state_verifier := auth_verifier auth; Codec.projectId := [] |})
    by (rewrite Hstate; by apply decodeState_auth_state).
  assert (Hr : r = login env i w) by reflexivity. clearbody r.
  unfold login in Hr. rewrite Hstarted, Hopened in Hr. cbn [negb] in Hr.
  fold auth in Hr. cbn [set_listener fst snd listener] in Hr. fold waiting in Hr.
  rewrite Hawait in Hr. unfold bind at 1 in Hr.
  match type of Hr with
  | context [exchangeCodeForTokens env _ _ ?w2] =>
    pose proof (OAuthFacts.exchangeCodeForTokens_granted env (Server.code callback)
      (Server.state callback) _ payload rt w2 Hdec Hacc Hrt Hne Hinfo) as Hx;
    set (world := w2) in *
  end.
  cbv zeta in Hx. cbn [truthy Codec.projectId state_verifier] in Hx.
  rewrite Hx in Hr. clear Hx. cbn [fst snd] in Hr.
  match type of Hr with
  | context [fetchProjectId env ?token ?w3] =>
    destruct (OAuthFacts.fetchProjectId_world env token w3) as (sent & Hw3 & Hproject);
    set (project := (fetchProjectId env token w3).1) in *
  end.
  rewrite Hw3, OAuthFacts.advance_advance in Hr.
  unfold generateAccountId, bind, Date_now, get_store, set_store, ret in Hr.
  cbn [fst snd store snapshot_file listener requests ticks file_operations advance
       world plus accessToken refreshToken expiresAt email projectId] in Hr.
  match type of Hr with
  | context [syncToOpenCodePlugin env ?w5] =>
    destruct (syncToOpenCodePlugin_spec env w5) as (Hs & _ & _ & _ & _ & Hf & _);
    set (stored := w5) in *
  end.
  cbn [store snapshot_file file_operations stored] in Hs, Hf.
  subst r. cbn [fst snd].
  exists (str "account_" ++ decimal (clock env (S (ticks w))) ++ str "_" ++ math_random i),
    {| SecureStorage.accessToken := access_token payload;
       SecureStorage.refreshToken := rt;
       SecureStorage.expiresAt := clock env (ticks w) + expires_in payload * 1000;
       SecureStorage.projectId :=
         if truthy project then project else ANTIGRAVITY_DEFAULT_PROJECT_ID;
       SecureStorage.email :=
         accepted (userinfo_endpoint env (S (length (requests w)))
                     (UserInfo (access_token payload))) ≫= info_email;
       SecureStorage.createdAt := clock env (S (S (ticks w)));
       SecureStorage.lastUsedAt := Some (clock env (S (S (ticks w)))) |}.
  split_and!.
  - reflexivity.
  - exact Hs.
  - reflexivity.
  - reflexivity.
  - reflexivity.
  - reflexivity.
  - reflexivity.
  - reflexivity.
  - cbn [SecureStorage.projectId accessToken refreshToken expiresAt email projectId].
    by destruct project.
  - cbn [SecureStorage.projectId accessToken refreshToken expiresAt email projectId].
    destruct Hproject as [->|Hnamed]; [by left|].
    destruct project eqn:E; [by left|]. right. exact Hnamed.
  - intros Hfs. rewrite Hf, !Hfs.
    unfold SecureStorage.storeAntigravityTokens, snapshot_of.
    by destruct (snapshot_accounts _).
Qed.

(** X23.  [cleanup] is [stopOAuthServer] on the listener and touches nothing
    else.  A login that is waiting for its callback when the listener is
    stopped fails with the shutdown error, whatever happens afterwards;
    no request is sent to the provider and nothing is stored. *)
Theorem cleanup_fails_login es i w rest :
  listener w = Server.run es Server.initial ->
  (Server.startOAuthServer (bound i) (listener w)).1 = true ->
  opened i = Returns tt ->
  events i = Server.Stop :: rest ->
  let r := login env i w in
  cleanup w = (tt, (set_listener (Server.step (listener w) Server.Stop) w).2) /\
  r.1 = Some (login_failure (str "OAuth server stopped")) /\
  requests r.2 = requests w /\
  store r.2 = store w /\
  Server.pendingOAuth (listener r.2) = None.
Proof.
  intros Hl Hstarted Hopened Hevents r. split; [done|].
  assert (Hr : r = login env i w) by reflexivity. clearbody r.
  unfold login in Hr. rewrite Hstarted, Hopened, Hevents in Hr.
  cbn [negb set_listener fst snd listener] in Hr.
  destruct (login_waiting es (auth_state (buildAuthorizationUrl (random i) []))
              (bound i)) as (_ & Hs & _ & Hu & Hp).
  rewrite <- Hl in Hs, Hu, Hp.
  cbn [await_callback] in Hr. rewrite Hu in Hr. cbn [Server.step] in Hr.
  destruct (ServerFacts.stop_rejects _ _ Hs Hp) as [Hrej Hnone].
  cbn [Server.flow] in Hrej.
  rewrite (await_callback_rejected _ rest _ _ Hrej) in Hr.
  subst r. cbn [fst snd requests store listener message_of]. by split_and!.
Qed.

End Login.

Lemma login_returns_witness :
  (login provider
     {| bound := true; random := sample_random; math_random := str "k3x9qz";
        opened := Returns tt; events := [] |} empty_world).1
  = Some (login_failure (str "OAuth callback timeout")).
Proof.
  destruct (login_returns provider []
    {| bound := true; random := sample_random; math_random := str "k3x9qz";
       opened := Returns tt; events := [] |} empty_world eq_refl)
    as (_ & _ & Htimeout).
  by destruct Htimeout as (H & _).
Defined.

Lemma login_provider_error_witness :
  (login provider
     {| bound := true; random := sample_random; math_random := str "k3x9qz";
        opened := Returns tt;
        events := [Server.Request
                     (Server.callback None None (Some (str "access_denied")))] |}
     empty_world).1
  = Some (login_failure (str "OAuth error: access_denied")).
Proof.
  by destruct (login_provider_error provider []
    {| bound := true; random := sample_random; math_random := str "k3x9qz";
       opened := Returns tt;
       events := [Server.Request
                    (Server.callback None None (Some (str "access_denied")))] |}
    empty_world None None (str "access_denied") [] eq_refl eq_refl eq_refl eq_refl)
    as (H & _); [by_evaluation|].
Defined.


Lemma login_stores_account_witness :
  exists accountId tokens,
    (login provider sample_login empty_world).1
    = Some {| login_success := true;
              account := Some (account_of accountId tokens);
              login_error := None |} /\
    store (login provider sample_login empty_world).2
    = <[accountId := tokens]> (store empty_world) /\
    accountId = sample_account.
Proof.
  destruct (login_stores_account provider sample_login empty_world
              {| Server.code := str "abc123"; Server.state := sample_state |}
              {| access_token := str "access-0"; expires_in := 3600;
                 refresh_token := Some (str "refresh-1"); token_type := str "Bearer" |}
              (str "refresh-1"))
    as (accountId & tokens & Hr & Hs & Hid & _).
  - apply ServerFacts.single_flight_initial.
  - unfold sample_login, sample_random. cbn. repeat constructor; by vm_compute.
  - reflexivity.
  - reflexivity.
  - by vm_compute.
  - by vm_compute.
  - reflexivity.
  - by_evaluation.
  - by vm_compute.
  - exists accountId, tokens. split; [exact Hr|]. split; [exact Hs|].
    rewrite Hid. vm_compute. reflexivity.
Defined.

Lemma getAnyValidAccessToken_returns_stored_witness :
  exists tokens,
    store (getAnyValidAccessToken provider logged_in).2 !! sample_account
    = Some tokens /\
    SecureStorage.accessToken tokens = str "access-0".
Proof.
  destruct (getAnyValidAccessToken_returns_stored provider sample_account
              (str "access-0") (str "project-1") logged_in)
    as (tokens & Hget & Htoken & _); [vm_compute; reflexivity|].
  exists tokens. split; [exact Hget|exact Htoken].
Defined.

Lemma cleanup_fails_login_witness :
  (login provider
     {| bound := true; random := sample_random; math_random := str "k3x9qz";
        opened := Returns tt; events := [Server.Stop] |} empty_world).1
  = Some (login_failure (str "OAuth server stopped")).
Proof.
  by destruct (cleanup_fails_login provider []
    {| bound := true; random := sample_random; math_random := str "k3x9qz";
       opened := Returns tt; events := [Server.Stop] |}
    empty_world [] eq_refl eq_refl eq_refl eq_refl)
    as (_ & H & _).
Defined.

End TokenManagerFacts.
